(** * kintone-backup-scheduler: the backup / restore engine

    A shallow embedding of [src/core/kintoneClient.js] (retry policy),
    [src/core/database.js] (metadata store) and of the [BackupManager]
    class (backup orchestration, archive codec, restore reconciliation),
    with the properties of the specification stated over it. *)

From Stdlib Require Import ZArith QArith Qminmax Qpower Qround Lia Lqa.
From Stdlib Require Import String Ascii List Bool.
From stdpp Require Import base option list gmap strings sorting.

#[local] Set Warnings "-register-all".

Local Open Scope string_scope.
Local Open Scope Z_scope.

(** ** Record values

    A kintone record is a JavaScript object from field code to field
    object; field objects carry a [type] tag and a [value].  Values are
    the JSON values, with the integers for numbers (the service sends
    field values as text).  Strings hold the UTF-8 bytes of the text.
    Objects keep their properties in insertion order; property names are
    taken not to be array indices or names of [Object.prototype]. *)

Module Js.

Local Infix "+++" := String.append (at level 60, right associativity).

(** The values of JSON.  Numbers are the integers: kintone sends the
    values of fields as texts, and the numbers the program itself writes
    are counts.  A number with a fraction or an exponent is outside this
    type, and [JSON_parse] below answers [None] for its text. *)
Inductive json :=
| JNull
| JBool (b : bool)
| JNum (n : Z)
| JStr (s : string)
| JArr (items : list json)
| JObj (members : list (string * json)).

(** An object is its list of own properties in insertion order. *)
Definition object := list (string * json).

(** [o[k]]: [None] is [undefined]. *)
Fixpoint get (o : object) (k : string) : option json :=
  match o with
  | [] => None
  | (k', v) :: o' => if String.eqb k' k then Some v else get o' k
  end.

(** [o[k] = v]: an existing property keeps its place, a new one goes last. *)
Fixpoint set (o : object) (k : string) (v : json) : object :=
  match o with
  | [] => [(k, v)]
  | (k', v') :: o' =>
      if String.eqb k' k then (k', v) :: o' else (k', v') :: set o' k v
  end.

(** [v.k] on any value: arrays and primitives have no such property,
    [null] is handled by the caller ([None] here as well). *)
Definition prop (v : json) (k : string) : option json :=
  match v with
  | JObj o => get o k
  | _ => None
  end.

Definition truthy (v : json) : bool :=
  match v with
  | JNull => false
  | JBool b => b
  | JNum n => negb (n =? 0)
  | JStr s => negb (String.eqb s "")
  | JArr _ | JObj _ => true
  end.

Definition truthy_opt (v : option json) : bool :=
  match v with Some v => truthy v | None => false end.

(** [v?.k] *)
Definition opt_prop (v : option json) (k : string) : option json :=
  match v with
  | Some JNull | None => None
  | Some v' => prop v' k
  end.

(** [a || b] on values that may be [undefined] *)
Definition or_else (a b : option json) : option json :=
  if truthy_opt a then a else b.

(** [typeof v === 'object'] *)
Definition typeof_object (v : json) : bool :=
  match v with
  | JNull | JArr _ | JObj _ => true
  | _ => false
  end.

Definition digit_char (d : Z) : ascii := ascii_of_nat (Z.to_nat (48 + d)).

Fixpoint pos_digits (fuel : nat) (n : Z) (acc : string) : string :=
  match fuel with
  | O => acc
  | S fuel' =>
      let acc' := String (digit_char (n mod 10)) acc in
      if n <? 10 then acc' else pos_digits fuel' (n / 10) acc'
  end.

(** Decimal text of an integer. *)
Definition Z_to_string (n : Z) : string :=
  if n <? 0
  then String "-" (pos_digits (S (Z.to_nat (Z.log2 (- n)))) (- n) "")
  else pos_digits (S (Z.to_nat (Z.log2 n))) n "".

Fixpoint join (sep : string) (l : list string) : string :=
  match l with
  | [] => ""
  | [s] => s
  | s :: l' => s ++ sep ++ join sep l'
  end.

(** [String(v)] *)
Fixpoint to_String (v : json) : string :=
  match v with
  | JNull => "null"
  | JBool true => "true"
  | JBool false => "false"
  | JNum n => Z_to_string n
  | JStr s => s
  | JArr items =>
      join "," (map (fun i => match i with JNull => "" | _ => to_String i end) items)
  | JObj _ => "[object Object]"
  end.

(** *** Buffers and UTF-8

    A [Buffer] is a byte string as well.  [Buffer.toString()] decodes it
    as UTF-8, replacing every ill-formed sequence by U+FFFD; in this
    representation it copies the well-formed sequences and writes
    EF BF BD for each replaced one. *)

Definition byte_in (lo hi : nat) (c : ascii) : bool :=
  let n := nat_of_ascii c in ((lo <=? n) && (n <=? hi))%nat.

Definition is_cont (c : ascii) : bool := byte_in 128 191 c.

Definition REPLACEMENT : string :=
  String (ascii_of_nat 239) (String (ascii_of_nat 191) (String (ascii_of_nat 189) "")).

(** Allowed range of the second byte after lead byte [b0]. *)
Definition second_ok (b0 b1 : ascii) : bool :=
  let n := nat_of_ascii b0 in
  if (n =? 224)%nat then byte_in 160 191 b1
  else if (n =? 237)%nat then byte_in 128 159 b1
  else if (n =? 240)%nat then byte_in 144 191 b1
  else if (n =? 244)%nat then byte_in 128 143 b1
  else is_cont b1.

Fixpoint Buffer_toString (b : string) : string :=
  match b with
  | EmptyString => EmptyString
  | String b0 r =>
      if byte_in 0 127 b0 then String b0 (Buffer_toString r)
      else if byte_in 194 223 b0 then
        match r with
        | String b1 r1 =>
            if is_cont b1 then String b0 (String b1 (Buffer_toString r1))
            else REPLACEMENT +++ Buffer_toString r
        | EmptyString => REPLACEMENT
        end
      else if byte_in 224 239 b0 then
        match r with
        | String b1 r1 =>
            if second_ok b0 b1 then
              match r1 with
              | String b2 r2 =>
                  if is_cont b2
                  then String b0 (String b1 (String b2 (Buffer_toString r2)))
                  else REPLACEMENT +++ Buffer_toString r1
              | EmptyString => REPLACEMENT
              end
            else REPLACEMENT +++ Buffer_toString r
        | EmptyString => REPLACEMENT
        end
      else if byte_in 240 244 b0 then
        match r with
        | String b1 r1 =>
            if second_ok b0 b1 then
              match r1 with
              | String b2 r2 =>
                  if is_cont b2 then
                    match r2 with
                    | String b3 r3 =>
                        if is_cont b3
                        then String b0 (String b1 (String b2 (String b3 (Buffer_toString r3))))
                        else REPLACEMENT +++ Buffer_toString r2
                    | EmptyString => REPLACEMENT
                    end
                  else REPLACEMENT +++ Buffer_toString r1
              | EmptyString => REPLACEMENT
              end
            else REPLACEMENT +++ Buffer_toString r
        | EmptyString => REPLACEMENT
        end
      else REPLACEMENT +++ Buffer_toString r
  end.

(** UTF-8 bytes of the code point [c]. *)
Definition utf8_encode (c : N) : string :=
  let b (n : N) := ascii_of_N n in
  (if c <? 128 then String (b c) ""
   else if c <? 2048 then
     String (b (192 + c / 64)) (String (b (128 + c mod 64)) "")
   else if c <? 65536 then
     String (b (224 + c / 4096))
       (String (b (128 + (c / 64) mod 64)) (String (b (128 + c mod 64)) ""))
   else
     String (b (240 + c / 262144))
       (String (b (128 + (c / 4096) mod 64))
          (String (b (128 + (c / 64) mod 64)) (String (b (128 + c mod 64)) ""))))%N.

(** *** JSON.stringify(value, null, 2) *)

Definition NL : string := String (ascii_of_nat 10) "".
Definition GAP : string := "  ".

Definition hex_digit (n : nat) : ascii :=
  if (n <? 10)%nat then ascii_of_nat (48 + n) else ascii_of_nat (87 + n).

Definition DQ : string := String (ascii_of_nat 34) "".

Definition quote_char (c : ascii) : string :=
  let n := nat_of_ascii c in
  if (n =? 34)%nat then "\" +++ DQ
  else if (n =? 92)%nat then "\\"
  else if (n =? 8)%nat then "\b"
  else if (n =? 9)%nat then "\t"
  else if (n =? 10)%nat then "\n"
  else if (n =? 12)%nat then "\f"
  else if (n =? 13)%nat then "\r"
  else if (n <? 32)%nat
  then "\u00" +++ String (hex_digit (n / 16)%nat) (String (hex_digit (n mod 16)%nat) "")
  else String c "".

Fixpoint quote_body (s : string) : string :=
  match s with
  | EmptyString => EmptyString
  | String c s' => quote_char c +++ quote_body s'
  end.

Definition quote (s : string) : string := DQ +++ quote_body s +++ DQ.

Fixpoint stringify (indent : string) (v : json) {struct v} : string :=
  match v with
  | JNull => "null"
  | JBool true => "true"
  | JBool false => "false"
  | JNum n => Z_to_string n
  | JStr s => quote s
  | JArr [] => "[]"
  | JArr items =>
      let indent' := indent +++ GAP in
      "[" +++ NL +++ indent'
        +++ join ("," +++ NL +++ indent') (map (stringify indent') items)
        +++ NL +++ indent +++ "]"
  | JObj [] => "{}"
  | JObj members =>
      let indent' := indent +++ GAP in
      "{" +++ NL +++ indent'
        +++ join ("," +++ NL +++ indent')
              (map (fun m => quote (fst m) +++ ": " +++ stringify indent' (snd m)) members)
        +++ NL +++ indent +++ "}"
  end.

Definition JSON_stringify (v : json) : string := stringify "" v.

(** *** JSON.parse

    A recursive-descent reader of the JSON grammar.  Numbers with a
    fraction or an exponent and escapes of lone surrogates have no
    counterpart among the values above and are rejected. *)

Definition is_json_ws (c : ascii) : bool :=
  let n := nat_of_ascii c in
  ((n =? 32) || (n =? 9) || (n =? 10) || (n =? 13))%nat.

Fixpoint skip_ws (s : string) : string :=
  match s with
  | String c s' => if is_json_ws c then skip_ws s' else s
  | EmptyString => s
  end.

Definition hex_value (c : ascii) : option N :=
  let n := N_of_ascii c in
  (if (48 <=? n) && (n <=? 57) then Some (n - 48)
   else if (97 <=? n) && (n <=? 102) then Some (n - 87)
   else if (65 <=? n) && (n <=? 70) then Some (n - 55)
   else None)%N.

Definition parse_hex4 (s : string) : option (N * string) :=
  match s with
  | String a (String b (String c (String d r))) =>
      ha ← hex_value a; hb ← hex_value b; hc ← hex_value c; hd ← hex_value d;
      Some ((((ha * 16 + hb) * 16 + hc) * 16 + hd)%N, r)
  | _ => None
  end.

(** The character a one-letter escape stands for. *)
Definition unescape (e : ascii) : option ascii :=
  let n := nat_of_ascii e in
  if (n =? 34)%nat then Some e
  else if (n =? 92)%nat then Some e
  else if (n =? 47)%nat then Some e
  else if (n =? 98)%nat then Some (ascii_of_nat 8)
  else if (n =? 102)%nat then Some (ascii_of_nat 12)
  else if (n =? 110)%nat then Some (ascii_of_nat 10)
  else if (n =? 114)%nat then Some (ascii_of_nat 13)
  else if (n =? 116)%nat then Some (ascii_of_nat 9)
  else None.

(** The text of a string literal after its opening quote, and what
    follows the closing quote. *)
Fixpoint parse_string (fuel : nat) (s : string) : option (string * string) :=
  match fuel with
  | O => None
  | S fuel' =>
      match s with
      | EmptyString => None
      | String c r =>
          let n := nat_of_ascii c in
          if (n =? 34)%nat then Some (EmptyString, r)
          else if (n =? 92)%nat then
            match r with
            | String e r' =>
                if (nat_of_ascii e =? 117)%nat then
                  '(u, r1) ← parse_hex4 r';
                  if ((55296 <=? u) && (u <=? 56319))%N then
                    match r1 with
                    | String "\" (String "u" r2) =>
                        '(l, r3) ← parse_hex4 r2;
                        if ((56320 <=? l) && (l <=? 57343))%N then
                          '(t, rest) ← parse_string fuel' r3;
                          Some (utf8_encode (65536 + (u - 55296) * 1024 + (l - 56320))%N +++ t, rest)
                        else None
                    | _ => None
                    end
                  else if ((56320 <=? u) && (u <=? 57343))%N then None
                  else
                    '(t, rest) ← parse_string fuel' r1;
                    Some (utf8_encode u +++ t, rest)
                else
                  ch ← unescape e;
                  '(t, rest) ← parse_string fuel' r';
                  Some (String ch t, rest)
            | EmptyString => None
            end
          else if (n <? 32)%nat then None
          else
            '(t, rest) ← parse_string fuel' r;
            Some (String c t, rest)
      end
  end.

Fixpoint take_digits (s : string) : string * string :=
  match s with
  | String c s' =>
      if byte_in 48 57 c
      then let '(ds, rest) := take_digits s' in (String c ds, rest)
      else (EmptyString, s)
  | EmptyString => (EmptyString, s)
  end.

Fixpoint digits_to_Z (acc : Z) (ds : string) : Z :=
  match ds with
  | String c ds' => digits_to_Z (10 * acc + (Z.of_nat (nat_of_ascii c) - 48)) ds'
  | EmptyString => acc
  end.

Definition starts_fraction (s : string) : bool :=
  match s with
  | String c _ =>
      let n := nat_of_ascii c in ((n =? 46) || (n =? 101) || (n =? 69))%nat
  | EmptyString => false
  end.

Definition parse_number (s : string) : option (Z * string) :=
  let '(neg, s1) :=
    match s with
    | String "-" r => (true, r)
    | _ => (false, s)
    end in
  let '(ds, rest) := take_digits s1 in
  match ds with
  | EmptyString => None
  | String "0" (String _ _) => None
  | _ =>
      if starts_fraction rest then None
      else Some (if neg : bool then - digits_to_Z 0 ds else digits_to_Z 0 ds, rest)
  end.

(** [s] without the prefix [p]. *)
Fixpoint expect (p s : string) : option string :=
  match p with
  | EmptyString => Some s
  | String c p' =>
      match s with
      | String c' s' => if Ascii.eqb c c' then expect p' s' else None
      | EmptyString => None
      end
  end.

(** Property definitions in source order; a repeated key overwrites. *)
Definition object_of (members : list (string * json)) : object :=
  fold_left (fun o m => set o (fst m) (snd m)) members [].

Fixpoint parse_value (fuel : nat) (s : string) {struct fuel} : option (json * string) :=
  match fuel with
  | O => None
  | S fuel' =>
      match skip_ws s with
      | EmptyString => None
      | String c r =>
          let n := nat_of_ascii c in
          if (n =? 110)%nat then r' ← expect "ull" r; Some (JNull, r')
          else if (n =? 116)%nat then r' ← expect "rue" r; Some (JBool true, r')
          else if (n =? 102)%nat then r' ← expect "alse" r; Some (JBool false, r')
          else if (n =? 34)%nat then
            '(t, r') ← parse_string (S (String.length r)) r; Some (JStr t, r')
          else if (n =? 91)%nat then
            match skip_ws r with
            | String "]" r' => Some (JArr [], r')
            | _ => '(items, r') ← parse_elements fuel' r; Some (JArr items, r')
            end
          else if (n =? 123)%nat then
            match skip_ws r with
            | String "}" r' => Some (JObj [], r')
            | _ => '(members, r') ← parse_members fuel' r; Some (JObj (object_of members), r')
            end
          else '(z, r') ← parse_number (String c r); Some (JNum z, r')
      end
  end
with parse_elements (fuel : nat) (s : string) {struct fuel} : option (list json * string) :=
  match fuel with
  | O => None
  | S fuel' =>
      '(v, r) ← parse_value fuel' s;
      match skip_ws r with
      | String "," r' => '(vs, r'') ← parse_elements fuel' r'; Some (v :: vs, r'')
      | String "]" r' => Some ([v], r')
      | _ => None
      end
  end
with parse_members (fuel : nat) (s : string) {struct fuel} : option (list (string * json) * string) :=
  match fuel with
  | O => None
  | S fuel' =>
      match skip_ws s with
      | String c r =>
          if (nat_of_ascii c =? 34)%nat then
            '(k, r1) ← parse_string (S (String.length r)) r;
            match skip_ws r1 with
            | String ":" r2 =>
                '(v, r3) ← parse_value fuel' r2;
                match skip_ws r3 with
                | String "," r4 => '(ms, r5) ← parse_members fuel' r4; Some ((k, v) :: ms, r5)
                | String "}" r4 => Some ([(k, v)], r4)
                | _ => None
                end
            | _ => None
            end
          else None
      | EmptyString => None
      end
  end.

(** [JSON.parse(text)]; [None] is a SyntaxError. *)
Definition JSON_parse (text : string) : option json :=
  '(v, r) ← parse_value (2 * String.length text + 2) text;
  match skip_ws r with
  | EmptyString => Some v
  | _ => None
  end.

(** *** Well-formed values

    The property names of a JavaScript object are distinct. *)

Fixpoint distinct (keys : list string) : bool :=
  match keys with
  | [] => true
  | k :: rest => negb (existsb (String.eqb k) rest) && distinct rest
  end.

Fixpoint well_formed (v : json) : bool :=
  match v with
  | JArr items => forallb well_formed items
  | JObj members =>
      distinct (map fst members) && forallb (fun m => well_formed (snd m)) members
  | _ => true
  end.

(** The number of values in a value, separators counted. *)
Fixpoint size (v : json) : nat :=
  match v with
  | JArr items => S (list_sum (map (fun i => S (size i)) items))
  | JObj members => S (list_sum (map (fun m => S (size (snd m))) members))
  | _ => 1
  end.

(** Indentation is made of spaces. *)
Fixpoint blank (s : string) : bool :=
  match s with
  | EmptyString => true
  | String c s' => (nat_of_ascii c =? 32)%nat && blank s'
  end.

(** What may follow a value inside a text: nothing, a comma or a line
    feed. *)
Definition delimited (rest : string) : bool :=
  match rest with
  | EmptyString => true
  | String c _ => ((nat_of_ascii c =? 44) || (nat_of_ascii c =? 10))%nat
  end.

(** A text of decimal digits. *)
Fixpoint all_digits (s : string) : bool :=
  match s with
  | EmptyString => true
  | String c s' => byte_in 48 57 c && all_digits s'
  end.

(** *** Streams *)

(** The first [n] bytes of [s], and the rest. *)
Fixpoint split_at (n : nat) (s : string) : string * string :=
  match n, s with
  | S n', String c s' => let '(a, b) := split_at n' s' in (String c a, b)
  | _, _ => (EmptyString, s)
  end.

(** [s] cut into chunks of [n] bytes (the last one may be shorter). *)
Fixpoint chunks (fuel n : nat) (s : string) : list string :=
  match fuel with
  | O => []
  | S fuel' =>
      match s with
      | EmptyString => []
      | _ => let '(a, b) := split_at n s in a :: chunks fuel' n b
      end
  end.

(** *** Enumeration *)

(** Number of bytes of the sequence that lead byte [c] starts. *)
Definition sequence_length (c : ascii) : nat :=
  if byte_in 240 255 c then 4
  else if byte_in 224 239 c then 3
  else if byte_in 192 223 c then 2
  else 1.

(** The characters of a text, one string each. *)
Fixpoint code_points (fuel : nat) (s : string) : list string :=
  match fuel with
  | O => []
  | S fuel' =>
      match s with
      | EmptyString => []
      | String c _ =>
          let '(a, b) := split_at (sequence_length c) s in
          a :: code_points fuel' b
      end
  end.

Definition characters (s : string) : list json :=
  map JStr (code_points (String.length s) s).

Fixpoint indexed (i : Z) (items : list json) : object :=
  match items with
  | [] => []
  | v :: rest => (Z_to_string i, v) :: indexed (i + 1) rest
  end.

(** [Object.entries(v)]; [None] is the TypeError on [null]. *)
Definition entries (v : json) : option object :=
  match v with
  | JNull => None
  | JObj o => Some o
  | JArr items => Some (indexed 0 items)
  | JStr s => Some (indexed 0 (characters s))
  | JBool _ | JNum _ => Some []
  end.

(** [[...v]]; [None] is the TypeError on a value that is not iterable. *)
Definition spread (v : json) : option (list json) :=
  match v with
  | JArr items => Some items
  | JStr s => Some (characters s)
  | _ => None
  end.

(** *** JSON.stringify(value)

    The text without line feeds and indentation. *)

Fixpoint stringify_compact (v : json) : string :=
  match v with
  | JNull => "null"
  | JBool true => "true"
  | JBool false => "false"
  | JNum n => Z_to_string n
  | JStr s => quote s
  | JArr items => "[" +++ join "," (map stringify_compact items) +++ "]"
  | JObj members =>
      "{" +++ join "," (map (fun m => quote (fst m) +++ ":" +++ stringify_compact (snd m))
                            members) +++ "}"
  end.

End Js.
(** ** src/core/database.js: the metadata store *)

Module Database.

(** Status and kind texts stored by the program. *)
Definition ST_RUNNING : string := "実行中".
Definition ST_SUCCESS : string := "成功".
Definition ST_PARTIAL : string := "部分成功".
Definition ST_FAILURE : string := "失敗".
Definition KIND_FULL : string := "全体".
Definition KIND_DIFF : string := "差分".
Definition KIND_RESTORE : string := "復元".

(** A row of table [backups]; [None] is SQL NULL. *)
Record backup_row := {
  app_id : string;
  app_name : option string;
  backup_type : string;
  trigger_type : option string;
  start_time : string;
  end_time : option string;
  duration_seconds : option Q;
  record_count : option Z;
  file_path : option string;
  data_size_mb : option Q;
  compression_ratio : option Q;
  status : string;
  error_details : option string;
  api_request_count : Z;
  retry_count : Z;
  diff_base_datetime : option string;
  hostname : option string;
  app_version : option string;
  remarks : option string
}.

(** A row of table [apps], keyed by its unique [app_id]. *)
Record app_row := {
  a_app_name : option string;
  is_active : bool;
  last_backup_datetime : option string;
  last_full_backup_datetime : option string;
  field_info : option string
}.

(** A row of table [record_index], keyed by its unique (app_id, record_id). *)
Record marker := {
  updated_time : string;
  last_backup_id : option Z
}.

Record db := {
  backups : gmap Z backup_row;
  backups_seq : Z;                       (* AUTOINCREMENT counter *)
  apps : gmap string app_row;
  record_index : gmap (string * string) marker
}.

Definition empty_db : db :=
  {| backups := ∅; backups_seq := 0; apps := ∅; record_index := ∅ |}.

(** [insertBackup(backupData)]: the row is stored under the next id of the
    AUTOINCREMENT sequence, which is returned ([lastInsertRowid]). *)
Definition insertBackup (d : db) (backupData : backup_row) : db * Z :=
  let id := backups_seq d + 1 in
  ({| backups := <[id := backupData]> (backups d);
      backups_seq := id;
      apps := apps d;
      record_index := record_index d |}, id).

(** One [key = ?] of [updateBackup(backupId, updateData)]. *)
Inductive assignment :=
| Set_app_name (v : string)
| Set_end_time (v : string)
| Set_duration_seconds (v : Q)
| Set_record_count (v : Z)
| Set_file_path (v : string)
| Set_data_size_mb (v : Q)
| Set_compression_ratio (v : Q)
| Set_status (v : string)
| Set_error_details (v : string)
| Set_api_request_count (v : Z)
| Set_retry_count (v : Z)
| Set_diff_base_datetime (v : option string).

Definition assign (r : backup_row) (a : assignment) : backup_row :=
  match a with
  | Set_app_name v =>
      {| app_id := app_id r; app_name := Some v; backup_type := backup_type r; trigger_type := trigger_type r; start_time := start_time r; end_time := end_time r; duration_seconds := duration_seconds r; record_count := record_count r; file_path := file_path r; data_size_mb := data_size_mb r; compression_ratio := compression_ratio r; status := status r; error_details := error_details r; api_request_count := api_request_count r; retry_count := retry_count r; diff_base_datetime := diff_base_datetime r; hostname := hostname r; app_version := app_version r; remarks := remarks r |}
  | Set_end_time v =>
      {| app_id := app_id r; app_name := app_name r; backup_type := backup_type r; trigger_type := trigger_type r; start_time := start_time r; end_time := Some v; duration_seconds := duration_seconds r; record_count := record_count r; file_path := file_path r; data_size_mb := data_size_mb r; compression_ratio := compression_ratio r; status := status r; error_details := error_details r; api_request_count := api_request_count r; retry_count := retry_count r; diff_base_datetime := diff_base_datetime r; hostname := hostname r; app_version := app_version r; remarks := remarks r |}
  | Set_duration_seconds v =>
      {| app_id := app_id r; app_name := app_name r; backup_type := backup_type r; trigger_type := trigger_type r; start_time := start_time r; end_time := end_time r; duration_seconds := Some v; record_count := record_count r; file_path := file_path r; data_size_mb := data_size_mb r; compression_ratio := compression_ratio r; status := status r; error_details := error_details r; api_request_count := api_request_count r; retry_count := retry_count r; diff_base_datetime := diff_base_datetime r; hostname := hostname r; app_version := app_version r; remarks := remarks r |}
  | Set_record_count v =>
      {| app_id := app_id r; app_name := app_name r; backup_type := backup_type r; trigger_type := trigger_type r; start_time := start_time r; end_time := end_time r; duration_seconds := duration_seconds r; record_count := Some v; file_path := file_path r; data_size_mb := data_size_mb r; compression_ratio := compression_ratio r; status := status r; error_details := error_details r; api_request_count := api_request_count r; retry_count := retry_count r; diff_base_datetime := diff_base_datetime r; hostname := hostname r; app_version := app_version r; remarks := remarks r |}
  | Set_file_path v =>
      {| app_id := app_id r; app_name := app_name r; backup_type := backup_type r; trigger_type := trigger_type r; start_time := start_time r; end_time := end_time r; duration_seconds := duration_seconds r; record_count := record_count r; file_path := Some v; data_size_mb := data_size_mb r; compression_ratio := compression_ratio r; status := status r; error_details := error_details r; api_request_count := api_request_count r; retry_count := retry_count r; diff_base_datetime := diff_base_datetime r; hostname := hostname r; app_version := app_version r; remarks := remarks r |}
  | Set_data_size_mb v =>
      {| app_id := app_id r; app_name := app_name r; backup_type := backup_type r; trigger_type := trigger_type r; start_time := start_time r; end_time := end_time r; duration_seconds := duration_seconds r; record_count := record_count r; file_path := file_path r; data_size_mb := Some v; compression_ratio := compression_ratio r; status := status r; error_details := error_details r; api_request_count := api_request_count r; retry_count := retry_count r; diff_base_datetime := diff_base_datetime r; hostname := hostname r; app_version := app_version r; remarks := remarks r |}
  | Set_compression_ratio v =>
      {| app_id := app_id r; app_name := app_name r; backup_type := backup_type r; trigger_type := trigger_type r; start_time := start_time r; end_time := end_time r; duration_seconds := duration_seconds r; record_count := record_count r; file_path := file_path r; data_size_mb := data_size_mb r; compression_ratio := Some v; status := status r; error_details := error_details r; api_request_count := api_request_count r; retry_count := retry_count r; diff_base_datetime := diff_base_datetime r; hostname := hostname r; app_version := app_version r; remarks := remarks r |}
  | Set_status v =>
      {| app_id := app_id r; app_name := app_name r; backup_type := backup_type r; trigger_type := trigger_type r; start_time := start_time r; end_time := end_time r; duration_seconds := duration_seconds r; record_count := record_count r; file_path := file_path r; data_size_mb := data_size_mb r; compression_ratio := compression_ratio r; status := v; error_details := error_details r; api_request_count := api_request_count r; retry_count := retry_count r; diff_base_datetime := diff_base_datetime r; hostname := hostname r; app_version := app_version r; remarks := remarks r |}
  | Set_error_details v =>
      {| app_id := app_id r; app_name := app_name r; backup_type := backup_type r; trigger_type := trigger_type r; start_time := start_time r; end_time := end_time r; duration_seconds := duration_seconds r; record_count := record_count r; file_path := file_path r; data_size_mb := data_size_mb r; compression_ratio := compression_ratio r; status := status r; error_details := Some v; api_request_count := api_request_count r; retry_count := retry_count r; diff_base_datetime := diff_base_datetime r; hostname := hostname r; app_version := app_version r; remarks := remarks r |}
  | Set_api_request_count v =>
      {| app_id := app_id r; app_name := app_name r; backup_type := backup_type r; trigger_type := trigger_type r; start_time := start_time r; end_time := end_time r; duration_seconds := duration_seconds r; record_count := record_count r; file_path := file_path r; data_size_mb := data_size_mb r; compression_ratio := compression_ratio r; status := status r; error_details := error_details r; api_request_count := v; retry_count := retry_count r; diff_base_datetime := diff_base_datetime r; hostname := hostname r; app_version := app_version r; remarks := remarks r |}
  | Set_retry_count v =>
      {| app_id := app_id r; app_name := app_name r; backup_type := backup_type r; trigger_type := trigger_type r; start_time := start_time r; end_time := end_time r; duration_seconds := duration_seconds r; record_count := record_count r; file_path := file_path r; data_size_mb := data_size_mb r; compression_ratio := compression_ratio r; status := status r; error_details := error_details r; api_request_count := api_request_count r; retry_count := v; diff_base_datetime := diff_base_datetime r; hostname := hostname r; app_version := app_version r; remarks := remarks r |}
  | Set_diff_base_datetime v =>
      {| app_id := app_id r; app_name := app_name r; backup_type := backup_type r; trigger_type := trigger_type r; start_time := start_time r; end_time := end_time r; duration_seconds := duration_seconds r; record_count := record_count r; file_path := file_path r; data_size_mb := data_size_mb r; compression_ratio := compression_ratio r; status := status r; error_details := error_details r; api_request_count := api_request_count r; retry_count := retry_count r; diff_base_datetime := v; hostname := hostname r; app_version := app_version r; remarks := remarks r |}
  end.

(** [updateBackup(backupId, updateData)]: [UPDATE backups SET ... WHERE id = ?];
    no row with that id, no change. *)
Definition updateBackup (d : db) (backupId : Z) (updateData : list assignment) : db :=
  {| backups := alter (fun r => fold_left assign updateData r) backupId (backups d);
     backups_seq := backups_seq d;
     apps := apps d;
     record_index := record_index d |}.

(** [getBackupById(backupId)] *)
Definition getBackupById (d : db) (backupId : Z) : option backup_row :=
  backups d !! backupId.

(** The two statements of [deleteBackup]. *)
Definition delete_index_stmt (backupId : Z) (d : db) : db :=
  {| backups := backups d;
     backups_seq := backups_seq d;
     apps := apps d;
     record_index :=
       filter (fun kv => last_backup_id (snd kv) ≠ Some backupId) (record_index d) |}.

Definition delete_backup_stmt (backupId : Z) (d : db) : db :=
  {| backups := delete backupId (backups d);
     backups_seq := backups_seq d;
     apps := apps d;
     record_index := record_index d |}.

(** [deleteBackup(backupId)] when both statements run. *)
Definition deleteBackup (d : db) (backupId : Z) : db :=
  delete_backup_stmt backupId (delete_index_stmt backupId d).

(** Statements can fail (a locked or full database, an I/O error): the
    statement then has no effect and [run] throws.  [fault] names the
    position, in execution order, of the statement that throws, if any. *)
Inductive outcome := Completed | Thrown.

Fixpoint run_statements (stmts : list (db -> db)) (fault : option nat) (d : db)
    : db * outcome :=
  match stmts with
  | [] => (d, Completed)
  | s :: rest =>
      match fault with
      | Some O => (d, Thrown)
      | Some (S n) => run_statements rest (Some n) (s d)
      | None => run_statements rest None (s d)
      end
  end.

(** [deleteBackup] with statement failures: each statement commits on its
    own, the second is not reached when the first throws. *)
Definition deleteBackup_run (backupId : Z) (fault : option nat) (d : db) : db * outcome :=
  run_statements [delete_index_stmt backupId; delete_backup_stmt backupId] fault d.

(** [transaction(callback)]: better-sqlite3 commits when the callback
    returns and rolls back when it throws, passing the exception on. *)
Definition transaction (callback : db -> db * outcome) (d : db) : db * outcome :=
  match callback d with
  | (d', Completed) => (d', Completed)
  | (_, Thrown) => (d, Thrown)
  end.

(** [updateAppLastBackup(appId, backupDatetime, isFullBackup)] *)
Definition updateAppLastBackup (d : db) (appId : string) (backupDatetime : string)
    (isFullBackup : bool) : db :=
  {| backups := backups d;
     backups_seq := backups_seq d;
     apps := alter (fun a =>
               {| a_app_name := a_app_name a;
                  is_active := is_active a;
                  last_backup_datetime := Some backupDatetime;
                  last_full_backup_datetime :=
                    if isFullBackup then Some backupDatetime
                    else last_full_backup_datetime a;
                  field_info := field_info a |}) appId (apps d);
     record_index := record_index d |}.

(** [upsertRecordIndex(appId, recordId, updatedTime, backupId)] *)
Definition upsertRecordIndex (d : db) (appId recordId updatedTime : string)
    (backupId : Z) : db :=
  {| backups := backups d;
     backups_seq := backups_seq d;
     apps := apps d;
     record_index :=
       <[(appId, recordId) :=
           {| updated_time := updatedTime; last_backup_id := Some backupId |}]>
         (record_index d) |}.

(** [getLastBackupDatetime(appId)]: the two columns of the app's row, or
    [None] ([undefined]) when the app has no row. *)
Definition getLastBackupDatetime (d : db) (appId : string)
    : option (option string * option string) :=
  (fun a => (last_backup_datetime a, last_full_backup_datetime a)) <$> apps d !! appId.

(** The AUTOINCREMENT sequence is at or above every id of the table: ids
    are issued by [insertBackup] only. *)
Definition ids_bounded (d : db) : Prop :=
  ∀ id row, backups d !! id = Some row → id <= backups_seq d.

(** The filters of [getBackupHistory]; a filter that is left out or falsy
    (the empty text, the limit 0) does not restrict. *)
Record history_filters := {
  f_app_id : option string;
  f_backup_type : option string;
  f_status : option string;
  f_start_date : option string;
  f_end_date : option string;
  f_limit : option Z
}.

Definition no_filters : history_filters :=
  {| f_app_id := None; f_backup_type := None; f_status := None;
     f_start_date := None; f_end_date := None; f_limit := None |}.

(** [if (filter) { query += ' AND ...' }] for one text filter. *)
Definition when_given (filter : option string) (test : string -> bool) : bool :=
  match filter with
  | Some s => if String.eqb s "" then true else test s
  | None => true
  end.

(** The WHERE clause of [getBackupHistory]; texts compare byte by byte. *)
Definition history_match (filters : history_filters) (r : backup_row) : bool :=
  when_given (f_app_id filters) (fun s => String.eqb (app_id r) s)
  && when_given (f_backup_type filters) (fun s => String.eqb (backup_type r) s)
  && when_given (f_status filters) (fun s => String.eqb (status r) s)
  && when_given (f_start_date filters) (fun s => String.leb s (start_time r))
  && when_given (f_end_date filters) (fun s => String.leb (start_time r) s).

(** [ORDER BY start_time DESC] *)
Definition newest_first (x y : Z * backup_row) : Prop :=
  String.leb (start_time (snd y)) (start_time (snd x)) = true.

#[export] Instance newest_first_dec x y : Decision (newest_first x y).
Proof. unfold newest_first. apply _. Defined.

(** [LIMIT ?]: a negative limit does not restrict. *)
Definition apply_limit {A} (limit : option Z) (rows : list A) : list A :=
  match limit with
  | Some n => if n <=? 0 then rows else take (Z.to_nat n) rows
  | None => rows
  end.

(** [getBackupHistory(filters)]: the rows with their ids.  Rows with the
    same start time come in an order the engine chooses. *)
Definition getBackupHistory (d : db) (filters : history_filters)
    : list (Z * backup_row) :=
  apply_limit (f_limit filters)
    (merge_sort newest_first
       (List.filter (fun kv => history_match filters (snd kv))
          (map_to_list (backups d)))).

(** The parameter of [upsertApp]; [None] is a property left out.  The
    flag is the number 1 or 0. *)
Record app_data := {
  d_app_id : string;
  d_app_name : option string;
  d_is_active : option bool;
  d_field_info : option Js.json
}.

(** [appData.field_info ? JSON.stringify(appData.field_info) : null] *)
Definition field_info_text (v : option Js.json) : option string :=
  match v with
  | Some v' => if Js.truthy v' then Some (Js.stringify_compact v') else None
  | None => None
  end.

(** [upsertApp(appData)]: a new row has no backup times; on a conflict
    the name, the flag and the field information are replaced and the
    backup times stay. *)
Definition upsertApp (d : db) (appData : app_data) : db :=
  let previous := apps d !! d_app_id appData in
  {| backups := backups d;
     backups_seq := backups_seq d;
     apps :=
       <[d_app_id appData :=
           {| a_app_name := d_app_name appData;
              is_active := default true (d_is_active appData);
              last_backup_datetime := previous ≫= last_backup_datetime;
              last_full_backup_datetime := previous ≫= last_full_backup_datetime;
              field_info := field_info_text (d_field_info appData) |}]> (apps d);
     record_index := record_index d |}.

(** [ORDER BY app_name]: NULL comes first. *)
Definition by_name (x y : string * app_row) : Prop :=
  match a_app_name (snd x), a_app_name (snd y) with
  | None, _ => True
  | Some _, None => False
  | Some a, Some b => String.leb a b = true
  end.

#[export] Instance by_name_dec x y : Decision (by_name x y).
Proof.
  unfold by_name. destruct (a_app_name (snd x)), (a_app_name (snd y)); apply _.
Defined.

(** A row of the answer of [getAllApps], with the field information
    parsed. *)
Record app_view := {
  v_app_id : string;
  v_app_name : option string;
  v_is_active : bool;
  v_last_backup_datetime : option string;
  v_last_full_backup_datetime : option string;
  v_field_info : option Js.json
}.

(** [app.field_info ? JSON.parse(app.field_info) : null]; the outer
    [None] is the SyntaxError. *)
Definition parse_field_info (text : option string) : option (option Js.json) :=
  match text with
  | Some s => if String.eqb s "" then Some None else Some <$> Js.JSON_parse s
  | None => Some None
  end.

Definition view_app (kv : string * app_row) : option app_view :=
  info ← parse_field_info (field_info (snd kv));
  Some {| v_app_id := fst kv;
          v_app_name := a_app_name (snd kv);
          v_is_active := is_active (snd kv);
          v_last_backup_datetime := last_backup_datetime (snd kv);
          v_last_full_backup_datetime := last_full_backup_datetime (snd kv);
          v_field_info := info |}.

(** [getAllApps(activeOnly)]; [None] when a stored field information is
    no JSON text.  Rows with the same name come in an order the engine
    chooses. *)
Definition getAllApps (d : db) (activeOnly : bool) : option (list app_view) :=
  mapM view_app
    (merge_sort by_name
       (List.filter (fun kv => negb activeOnly || is_active (snd kv))
          (map_to_list (apps d)))).

(** [getRecordsToBackup(appId, sinceDateTime)]: record id and updated
    time of the markers of the app that are later than the given time,
    oldest first. *)
Definition oldest_first (x y : string * string) : Prop :=
  String.leb (snd x) (snd y) = true.

#[export] Instance oldest_first_dec x y : Decision (oldest_first x y).
Proof. unfold oldest_first. apply _. Defined.

Definition getRecordsToBackup (d : db) (appId sinceDateTime : string)
    : list (string * string) :=
  merge_sort oldest_first
    (map (fun km => (snd (fst km), updated_time (snd km)))
       (List.filter (fun km => String.eqb (fst (fst km)) appId
                               && String.ltb sinceDateTime (updated_time (snd km)))
          (map_to_list (record_index d)))).

(** The operations that write to the store, and what a sequence of them
    makes of it.  [deleteBackup] comes with the statement that fails, if
    one does. *)
Inductive operation :=
| Insert_backup (backupData : backup_row)
| Update_backup (backupId : Z) (updateData : list assignment)
| Delete_backup (backupId : Z) (fault : option nat)
| Upsert_app (appData : app_data)
| Update_app_last_backup (appId backupDatetime : string) (isFullBackup : bool)
| Upsert_record_index (appId recordId updatedTime : string) (backupId : Z).

Definition perform (d : db) (op : operation) : db :=
  match op with
  | Insert_backup backupData => (insertBackup d backupData).1
  | Update_backup backupId updateData => updateBackup d backupId updateData
  | Delete_backup backupId fault => (deleteBackup_run backupId fault d).1
  | Upsert_app appData => upsertApp d appData
  | Update_app_last_backup appId backupDatetime isFullBackup =>
      updateAppLastBackup d appId backupDatetime isFullBackup
  | Upsert_record_index appId recordId updatedTime backupId =>
      upsertRecordIndex d appId recordId updatedTime backupId
  end.

Definition perform_all (d : db) (ops : list operation) : db := fold_left perform ops d.

End Database.

(** ** The world the engine runs in

    The engine threads four pieces of mutable state: the metadata store,
    the two counters of the remote client, the archive directory and the
    attachment directory.  The remote service, the clock and the disk are
    the environment; every remote call is logged in a trace. *)

Module Effects.

(** A thrown JavaScript error. *)
Record error := {
  message : string;
  stack : string
}.

Definition Error (msg : string) : error := {| message := msg; stack := "" |}.
Definition TypeError : error := Error "TypeError".

Inductive result (A : Type) :=
| Ok (a : A)
| Throw (e : error).
Arguments Ok {A} a.
Arguments Throw {A} e.

(** The two counters of the client. *)
Record counters := {
  apiRequestCount : Z;
  retryCount : Z
}.

(** Parameters of [client.record.getAllRecords]. *)
Record records_query := {
  q_app : string;
  q_fields : option (list string);
  q_condition : option string
}.

(** The row [logToBackupApp] adds to the audit app. *)
Record audit_entry := {
  backup_datetime : string;
  target_app_id : string;
  target_app_name : string;
  log_record_count : Z;
  log_status : string;
  log_duration_seconds : Q;
  log_error_details : string;
  log_backup_type : string;
  log_file_path : string;
  log_trigger_type : string;
  log_diff_base_datetime : string;
  log_data_size_mb : option Q;
  log_compression_ratio : option Q;
  log_api_request_count : Z;
  log_retry_count : Z;
  log_hostname : string;
  log_app_version : string;
  log_remarks : string
}.

(** One element of the [records] parameter of an update call. *)
Record update_entry := {
  id : string;
  record : Js.json
}.

(** A call that reaches the remote service. *)
Inductive call :=
| GetApp (appId : string)
| GetFormFields (appId : string)
| GetAllRecords (params : records_query)
| GetRecords (appId query : string) (fields : list string)
| AddRecords (appId : string) (batch : list Js.json)
| UpdateRecords (appId : string) (batch : list update_entry)
| AddRecord (appId : string) (entry : audit_entry)
| DownloadFile (fileKey : string).

(** The calls that write records, and the attachment downloads. *)
Definition is_write (c : call) : bool :=
  match c with
  | AddRecords _ _ | UpdateRecords _ _ => true
  | _ => false
  end.

Definition is_download (c : call) : bool :=
  match c with
  | DownloadFile _ => true
  | _ => false
  end.

(** What the service (behind the retrying transport) answers to a call:
    the number of times the retry condition ran, and the final response or
    error.  The first argument is the number of calls made before. *)
Definition reply (A : Type) : Type := (Z * result A)%type.

Record service := {
  on_getApp : nat -> string -> reply string;                 (* name *)
  on_getFormFields : nat -> string -> reply Js.object;       (* properties *)
  on_getAllRecords : nat -> records_query -> reply (list Js.json);
  on_getRecords : nat -> string -> string -> list string -> reply (list Js.json);
  on_addRecords : nat -> string -> list Js.json -> reply (list string);   (* ids *)
  on_updateRecords : nat -> string -> list update_entry -> reply unit;
  on_addRecord : nat -> string -> audit_entry -> reply string;   (* id *)
  on_downloadFile : nat -> string -> reply string
}.

(** Places where the program reads the clock. *)
Inductive time_site := AtStart | AtArchiveName | AtManifest | AtEnd.

(** An archive: its entries by name, in the order written. *)
Definition container := list (string * string).

(** What becomes of the archive that [createBackupZip] writes.  Two
    events settle its promise: ['close'] of the output file resolves it,
    ['error'] of the archiver rejects it.  An error of the output file
    has no listener, and ['close'] follows it.  [remains] is what the file
    holds afterwards; [None]: the file was not opened, and the path is as
    it was. *)
Inductive archive_outcome :=
| Written
| Output_error (remains : option container)
| Archiver_error (e : error) (remains : option container).

Record env := {
  remote : service;
  now_iso : time_site -> string;        (* new Date().toISOString() *)
  now_ms : time_site -> Z;              (* Date.now() *)
  archive_stream : string -> archive_outcome;  (* the streams of the archive at a path *)
  file_size : container -> Z;           (* size of the written zip file *)
  chunk_size : nat                      (* size of the chunks the inflate stream emits *)
}.

(** The archive at a path is not written as it should be. *)
Definition write_fails (E : env) (path : string) : bool :=
  match archive_stream E path with
  | Written => false
  | _ => true
  end.

(** The files after a stream has failed. *)
Definition left_at (path : string) (remains : option container)
    (files : gmap string container) : gmap string container :=
  match remains with
  | Some c => <[path := c]> files
  | None => files
  end.

Record world := {
  store : Database.db;
  stats : counters;
  trace : list call;
  archives : gmap string container;
  attachments : gmap string string;
  recordNumberFieldCache : gmap string (option string)
}.

Definition with_store (w : world) (d : Database.db) : world :=
  {| store := d; stats := stats w; trace := trace w;
     archives := archives w; attachments := attachments w;
     recordNumberFieldCache := recordNumberFieldCache w |}.

Definition with_stats (w : world) (c : counters) : world :=
  {| store := store w; stats := c; trace := trace w;
     archives := archives w; attachments := attachments w;
     recordNumberFieldCache := recordNumberFieldCache w |}.

Definition with_trace (w : world) (t : list call) : world :=
  {| store := store w; stats := stats w; trace := t;
     archives := archives w; attachments := attachments w;
     recordNumberFieldCache := recordNumberFieldCache w |}.

Definition with_archives (w : world) (a : gmap string container) : world :=
  {| store := store w; stats := stats w; trace := trace w;
     archives := a; attachments := attachments w;
     recordNumberFieldCache := recordNumberFieldCache w |}.

Definition with_attachments (w : world) (a : gmap string string) : world :=
  {| store := store w; stats := stats w; trace := trace w;
     archives := archives w; attachments := a;
     recordNumberFieldCache := recordNumberFieldCache w |}.

Definition with_cache (w : world) (c : gmap string (option string)) : world :=
  {| store := store w; stats := stats w; trace := trace w;
     archives := archives w; attachments := attachments w;
     recordNumberFieldCache := c |}.

(** Computations that change the world and may throw. *)
Definition M (A : Type) : Type := world -> world * result A.

#[export] Instance M_ret : MRet M := fun A a w => (w, Ok a).

#[export] Instance M_bind : MBind M := fun A B f m w =>
  match m w with
  | (w', Ok a) => f a w'
  | (w', Throw e) => (w', Throw e)
  end.

Definition throw {A} (e : error) : M A := fun w => (w, Throw e).

(** [try { body } catch (e) { handler(e) }] *)
Definition try_catch {A} (body : M A) (handler : error -> M A) : M A := fun w =>
  match body w with
  | (w', Ok a) => (w', Ok a)
  | (w', Throw e) => handler e w'
  end.

(** [try { body } finally { cleanup }], for a cleanup that does not throw. *)
Definition finally {A} (body : M A) (cleanup : world -> world) : M A := fun w =>
  let '(w', r) := body w in (cleanup w', r).

Definition lift {A} (r : result A) : M A := fun w => (w, r).

(** A statement of the store that does not fail. *)
Definition on_store (f : Database.db -> Database.db) : M unit := fun w =>
  (with_store w (f (store w)), Ok tt).

Definition get_store : M Database.db := fun w => (w, Ok (store w)).
Definition get_stats : M counters := fun w => (w, Ok (stats w)).

(** A sequential loop over a list. *)
Fixpoint for_each {A} (l : list A) (body : A -> M unit) : M unit :=
  match l with
  | [] => mret tt
  | x :: l' => body x ;; for_each l' body
  end.

End Effects.
(** ** src/core/kintoneClient.js: retry policy *)

Module KintoneClient.
Import Effects.

Local Infix "+++" := String.append (at level 60, right associativity).

(** JavaScript numbers are idealised as exact rationals: every constant of
    [RETRY_CONFIG] is an integer, and the jitter draw is a rational in
    [0, 1).  The literal [0.2] is the rational 1/5. *)
Record retry_config := {
  maxRetries : Z;
  initialDelay : Q;
  maxDelay : Q;
  backoffMultiplier : Q;
  retryableStatusCodes : list Z
}.

Definition RETRY_CONFIG : retry_config := {|
  maxRetries := 5;
  initialDelay := 1000;
  maxDelay := 32000;
  backoffMultiplier := 2;
  retryableStatusCodes := [429; 500; 502; 503; 504]
|}.

(** [Math.min(initialDelay * Math.pow(backoffMultiplier, retryCount - 1), maxDelay)] *)
Definition baseDelay (retryCount : Z) : Q :=
  Qmin (initialDelay RETRY_CONFIG
          * Qpower (backoffMultiplier RETRY_CONFIG) (retryCount - 1))
       (maxDelay RETRY_CONFIG).

(** The [retryDelay] callback; [random] is the value of [Math.random()]. *)
Definition retryDelay (retryCount : Z) (random : Q) : Q :=
  let delay := baseDelay retryCount in
  let jitter := (delay * (2 # 10) * (random * 2 - 1))%Q in
  (delay + jitter)%Q.

(** The part of an axios error the callbacks look at. *)
Record response := {
  status : Z;
  retry_after : option string   (* headers['retry-after'] *)
}.

Record axios_error := {
  error_response : option response;
  (* axiosRetry.isNetworkOrIdempotentRequestError(error) *)
  isNetworkOrIdempotentRequestError : bool
}.

Definition is_digit (c : ascii) : bool :=
  let n := nat_of_ascii c in ((48 <=? n) && (n <=? 57))%nat.

Definition is_space (c : ascii) : bool :=
  let n := nat_of_ascii c in
  ((n =? 32) || (n =? 9) || (n =? 10) || (n =? 11) || (n =? 12) || (n =? 13))%nat.

Fixpoint skip_spaces (s : string) : string :=
  match s with
  | String c s' => if is_space c then skip_spaces s' else s
  | EmptyString => s
  end.

Fixpoint digits_value (acc : option Z) (s : string) : option Z :=
  match s with
  | String c s' =>
      if is_digit c
      then digits_value
             (Some (10 * default 0 acc + Z.of_nat (nat_of_ascii c) - 48)) s'
      else acc
  | EmptyString => acc
  end.

(** [parseInt(s)] in radix ten; [None] is NaN. *)
Definition parseInt (s : string) : option Z :=
  match skip_spaces s with
  | String "-" s' => Z.opp <$> digits_value None s'
  | String "+" s' => digits_value None s'
  | s' => digits_value None s'
  end.

(** Truthiness of a header value: absent and the empty string are falsy. *)
Definition header_truthy (h : option string) : bool :=
  match h with
  | Some s => negb (String.eqb s "")
  | None => false
  end.

(** The wait, in milliseconds, that a rate-limit response asks for:
    [parseInt(retryAfter) * 1000] of a 429 response with the header. *)
Definition hinted_wait (e : axios_error) : option Z :=
  match error_response e with
  | Some r =>
      if (status r =? 429) && header_truthy (retry_after r)
      then (fun n => n * 1000) <$> parseInt (default "" (retry_after r))
      else None
  | None => None
  end.

(** The [retryCondition] callback.  It counts the retry, and on a 429 with
    a [retry-after] header computes [waitTime], logs, and returns [true];
    [waitTime] is bound and not used again. *)
Definition retryCondition (c : counters) (e : axios_error) : counters * bool :=
  let c' := {| apiRequestCount := apiRequestCount c;
               retryCount := retryCount c + 1 |} in
  match error_response e with
  | Some r =>
      if (status r =? 429) && header_truthy (retry_after r)
      then
        let waitTime := (fun n => n * 1000) <$> parseInt (default "" (retry_after r)) in
        (c', true)
      else
        (c', isNetworkOrIdempotentRequestError e
             || bool_decide (status r ∈ retryableStatusCodes RETRY_CONFIG))
  | None => (c', isNetworkOrIdempotentRequestError e)
  end.

(** How axios-retry drives the two callbacks after a failed attempt:
    with [done] retries already made, it retries when [done < retries] and
    [retryCondition(error)] holds, and then sleeps for
    [retryDelay(done + 1, error)] before the next attempt.  The result is
    the delay waited, or [None] when the error is surfaced. *)
Definition wait_before_retry (c : counters) (done : Z) (e : axios_error)
    (random : Q) : counters * option Q :=
  if done <? maxRetries RETRY_CONFIG
  then
    let '(c', retry) := retryCondition c e in
    if retry then (c', Some (retryDelay (done + 1) random)) else (c', None)
  else (c, None).

(** A request retried until it succeeds or the retries are exhausted:
    [outcomes] gives the error of each failed attempt in turn ([None] is a
    response), [randoms] the jitter draws.  Returns the delays waited and
    whether the call ended in a response. *)
Fixpoint run_request (c : counters) (done : Z)
    (outcomes : list (option axios_error)) (randoms : list Q)
    : counters * list Q * bool :=
  match outcomes with
  | [] => (c, [], false)
  | None :: _ => (c, [], true)
  | Some e :: rest =>
      match wait_before_retry c done e (hd 0%Q randoms) with
      | (c', Some d) =>
          let '(c'', ds, ok) := run_request c' (done + 1) rest (tl randoms) in
          (c'', d :: ds, ok)
      | (c', None) => (c', [], false)
      end
  end.

(** A rate-limit response that asks for a wait of 60 seconds, and the
    same response without the header. *)
Definition rate_limited_60 : axios_error :=
  {| error_response := Some {| status := 429; retry_after := Some "60" |};
     isNetworkOrIdempotentRequestError := false |}.

Definition rate_limited_plain : axios_error :=
  {| error_response := Some {| status := 429; retry_after := None |};
     isNetworkOrIdempotentRequestError := false |}.

(** *** The operations of the client *)

Section Operations.
Context (E : env).

Definition count_request (n : Z) : M unit := fun w =>
  (with_stats w {| apiRequestCount := apiRequestCount (stats w) + n;
                   retryCount := retryCount (stats w) |}, Ok tt).

(** One call to the service: it is logged, the retries it took are
    counted, and its response is returned or its error thrown. *)
Definition send {A} (c : call) (answer : nat -> reply A) : M A := fun w =>
  let '(retries, r) := answer (length (trace w)) in
  (with_trace
     (with_stats w {| apiRequestCount := apiRequestCount (stats w);
                      retryCount := retryCount (stats w) + retries |})
     (trace w ++ [c]), r).

(** [getApp(appId)]: the [name] of the response. *)
Definition getApp (appId : string) : M string :=
  count_request 1 ;;
  send (GetApp appId) (fun n => on_getApp (remote E) n appId).

(** [getFormFields(appId)]: the [properties] of the response. *)
Definition getFormFields (appId : string) : M Js.object :=
  count_request 1 ;;
  send (GetFormFields appId) (fun n => on_getFormFields (remote E) n appId).

Definition nonempty_list {A} (l : option (list A)) : option (list A) :=
  match l with
  | Some (_ :: _) => l
  | _ => None
  end.

Definition nonempty_text (s : option string) : option string :=
  match s with
  | Some s' => if String.eqb s' "" then None else s
  | None => None
  end.

(** [getAllRecords(appId, { fields, condition })] *)
Definition getAllRecords (appId : string) (fields : option (list string))
    (condition : option string) : M (list Js.json) :=
  let params := {| q_app := appId;
                   q_fields := nonempty_list fields;
                   q_condition := nonempty_text condition |} in
  count_request 1 ;;
  records ← send (GetAllRecords params) (fun n => on_getAllRecords (remote E) n params);
  let estimatedRequests := (Z.of_nat (length records) + 499) / 500 in
  count_request (estimatedRequests - 1) ;;
  mret records.

(** [getDifferentialRecords(appId, sinceDateTime, fields = null)] *)
Definition getDifferentialRecords (appId sinceDateTime : string)
    (fields : option (list string)) : M (list Js.json) :=
  let condition := "更新日時 > " +++ Js.DQ +++ sinceDateTime +++ Js.DQ in
  getAllRecords appId fields (Some condition).

(** [downloadFile(fileKey)] *)
Definition downloadFile (fileKey : string) : M string :=
  count_request 1 ;;
  send (DownloadFile fileKey) (fun n => on_downloadFile (remote E) n fileKey).

(** [records.slice(i, i + batchSize)] for [i = 0, batchSize, ...] *)
Fixpoint batches {A} (fuel batchSize : nat) (records : list A) : list (list A) :=
  match fuel with
  | O => []
  | S fuel' =>
      match records with
      | [] => []
      | _ => take batchSize records :: batches fuel' batchSize (drop batchSize records)
      end
  end.

Definition has_next {A} (rest : list A) : Z :=
  match rest with [] => 0 | _ => 1 end.

Fixpoint addRecords_loop (appId : string) (bs : list (list Js.json))
    (results : list string) : M (list string) :=
  match bs with
  | [] => mret results
  | batch :: rest =>
      ids ← send (AddRecords appId batch) (fun n => on_addRecords (remote E) n appId batch);
      count_request (has_next rest) ;;
      addRecords_loop appId rest (results ++ ids)
  end.

(** [addRecords(appId, records)]: batches of 100, the ids of all of them. *)
Definition addRecords (appId : string) (records : list Js.json) : M (list string) :=
  count_request 1 ;;
  addRecords_loop appId (batches (length records) 100 records) [].

Fixpoint updateRecords_loop (appId : string) (bs : list (list update_entry)) : M unit :=
  match bs with
  | [] => mret tt
  | batch :: rest =>
      send (UpdateRecords appId batch) (fun n => on_updateRecords (remote E) n appId batch) ;;
      count_request (has_next rest) ;;
      updateRecords_loop appId rest
  end.

(** [updateRecords(appId, records)]: batches of 100. *)
Definition updateRecords (appId : string) (records : list update_entry) : M bool :=
  count_request 1 ;;
  updateRecords_loop appId (batches (length records) 100 records) ;;
  mret true.

(** [addAllRecords] and [updateAllRecords] *)
Definition addAllRecords (appId : string) (records : list Js.json) : M (list string) :=
  addRecords appId records.

Definition updateAllRecords (appId : string) (records : list update_entry) : M bool :=
  updateRecords appId records.

(** [logToBackupApp(backupAppId, logData)]: the id of the new row, or
    [None] ([null]) when the call fails; nothing is thrown. *)
Definition logToBackupApp (backupAppId : string) (logData : audit_entry)
    : M (option string) :=
  try_catch
    (count_request 1 ;;
     i ← send (AddRecord backupAppId logData)
            (fun n => on_addRecord (remote E) n backupAppId logData);
     mret (Some i))
    (fun _ => mret None).

(** [resetCounters()] *)
Definition resetCounters (w : world) : world :=
  with_stats w {| apiRequestCount := 0; retryCount := 0 |}.

(** [getStats()] *)
Definition getStats : M counters := get_stats.

Definition upper (c : ascii) : ascii :=
  if Js.byte_in 97 122 c then ascii_of_nat (nat_of_ascii c - 32) else c.

Fixpoint toUpperCase (s : string) : string :=
  match s with
  | String c s' => String (upper c) (toUpperCase s')
  | EmptyString => EmptyString
  end.

(** The first property whose [type], in upper case, is RECORD_NUMBER.
    [type.toUpperCase()] on a truthy value that is not a string throws. *)
Fixpoint find_record_number_field (properties : Js.object) : result (option string) :=
  match properties with
  | [] => Ok None
  | (fieldCode, p) :: rest =>
      if Js.truthy p && Js.truthy_opt (Js.prop p "type") then
        match Js.prop p "type" with
        | Some (Js.JStr t) =>
            if String.eqb (toUpperCase t) "RECORD_NUMBER" then Ok (Some fieldCode)
            else find_record_number_field rest
        | _ => Throw TypeError
        end
      else find_record_number_field rest
  end.

Definition text_truthy (s : option string) : bool :=
  match s with
  | Some s' => negb (String.eqb s' "")
  | None => false
  end.

(** The part of [getRecordNumberFieldCode] behind the cache: the form
    fields are fetched and searched, and the answer is cached. *)
Definition determine_field_code (appId : string) : M (option string) :=
  properties ← getFormFields appId;
  found ← lift (find_record_number_field properties);
  ((fun w => (with_cache w (<[appId := found]> (recordNumberFieldCache w)), Ok found))
     : M (option string)).

(** [getRecordNumberFieldCode(appId)], with its per-app cache; an error is
    logged and answered by [null]. *)
Definition getRecordNumberFieldCode (appId : string) : M (option string) :=
  try_catch
    (fun w =>
       match recordNumberFieldCache w !! appId with
       | Some (Some code) =>
           if text_truthy (Some code) then (w, Ok (Some code))
           else determine_field_code appId w
       | _ => determine_field_code appId w
       end)
    (fun _ => mret None).

(** [/^-?\d+(\.\d+)?$/.test(s)] *)
Definition digits_only (s : string) : bool :=
  match s with
  | EmptyString => false
  | _ => String.eqb (snd (Js.take_digits s)) ""
  end.

Definition is_numeric_text (s : string) : bool :=
  let s1 := match s with String "-" r => r | _ => s end in
  let '(ds, rest) := Js.take_digits s1 in
  negb (String.eqb ds "")
  && match rest with
     | EmptyString => true
     | String "." frac => digits_only frac
     | _ => false
     end.

(** [s.replace(/"/g, '\\"')] *)
Fixpoint escape_quotes (s : string) : string :=
  match s with
  | String c s' =>
      if (nat_of_ascii c =? 34)%nat
      then String "\" (String c (escape_quotes s'))
      else String c (escape_quotes s')
  | EmptyString => EmptyString
  end.

Definition format_value (s : string) : string :=
  if is_numeric_text s then s else Js.DQ +++ escape_quotes s +++ Js.DQ.

(** The body of the loop over the rows of one answer. *)
Definition note_row (fieldCode : string) (resultMap : gmap string (option string))
    (rec : Js.json) : gmap string (option string) :=
  let rnValue := Js.opt_prop (Js.opt_prop (Some rec) fieldCode) "value" in
  if negb (Js.truthy_opt rnValue) then resultMap
  else
    let idVal :=
      Js.or_else (Js.opt_prop (Js.opt_prop (Some rec) "$id") "value")
        (Js.or_else (Js.opt_prop (Js.opt_prop (Some rec) "__ID__") "value")
                 (Js.opt_prop (Some rec) "id")) in
    match rnValue, idVal with
    | Some rn, Some i =>
        if Js.truthy i then <[Js.to_String rn := Some (Js.to_String i)]> resultMap
        else resultMap
    | _, _ => resultMap
    end.

Fixpoint resolve_loop (appId fieldCode : string) (chunks : list (list string))
    (resultMap : gmap string (option string)) : M (gmap string (option string)) :=
  match chunks with
  | [] => mret resultMap
  | chunk :: rest =>
      let query := fieldCode +++ " in (" +++ Js.join "," (map format_value chunk)
                     +++ ") limit 500" in
      resultMap' ←
        try_catch
          (count_request 1 ;;
           records ← send (GetRecords appId query [fieldCode; "$id"])
                       (fun n => on_getRecords (remote E) n appId query [fieldCode; "$id"]);
           mret (fold_left (note_row fieldCode) records resultMap))
          (fun _ => mret resultMap);
      resolve_loop appId fieldCode rest resultMap'
  end.

(** [findRecordIdsByRecordNumbers(appId, recordNumbers)]: every requested
    number is mapped, to [None] ([null]) until a live record is found. *)
Definition findRecordIdsByRecordNumbers (appId : string) (recordNumbers : list string)
    : M (gmap string (option string)) :=
  let resultMap : gmap string (option string) :=
    fold_left (fun m rn => <[rn := None]> m) recordNumbers ∅ in
  match recordNumbers with
  | [] => mret resultMap
  | _ =>
      fieldCode ← getRecordNumberFieldCode appId;
      match fieldCode with
      | Some code =>
          if text_truthy fieldCode
          then resolve_loop appId code (batches (length recordNumbers) 50 recordNumbers) resultMap
          else mret resultMap
      | None => mret resultMap
      end
  end.

End Operations.

(** *** The list of apps

    [client.app.getApps({ limit, offset })] is answered by
    [getApps n limit offset], where [n] counts the requests of the loop;
    the answer is the [apps] of the response. *)

Section Apps.
Context {A : Type} (getApps : nat -> Z -> Z -> result (list A)).

(** The [while (hasMore)] loop of [getAllApps]: [None] when the loop has
    not ended after [fuel] requests. *)
Fixpoint getAllApps_loop (fuel : nat) (n : nat) (offset : Z) (allApps : list A)
    : M (option (list A)) :=
  match fuel with
  | O => mret None
  | S fuel' =>
      count_request 1 ;;
      apps ← lift (getApps n 100 offset);
      let allApps' := (allApps ++ apps)%list in
      if Z.of_nat (length apps) <? 100 then mret (Some allApps')
      else getAllApps_loop fuel' (S n) (offset + 100) allApps'
  end.

(** [getAllApps()] *)
Definition getAllApps (fuel : nat) : M (option (list A)) :=
  getAllApps_loop fuel 0 0 [].

End Apps.

(** A service that holds the apps [all] and answers with
    [all.slice(offset, offset + limit)]. *)
Definition pages {A} (all : list A) (n : nat) (limit offset : Z) : result (list A) :=
  Ok (take (Z.to_nat limit) (drop (Z.to_nat offset) all)).

End KintoneClient.

(** ** The BackupManager class *)

Module BackupManager.
Import Effects.

Local Infix "+++" := String.append (at level 60, right associativity).

(** System fields, left out on restore. *)
Definition SYSTEM_FIELDS : list string :=
  ["RECORD_NUMBER"; "__ID__"; "__REVISION__"; "CREATOR"; "CREATED_TIME";
   "MODIFIER"; "UPDATED_TIME"; "STATUS"; "STATUS_ASSIGNEE"; "$id"; "$revision"].

(** Read-only field types, left out on restore. *)
Definition READONLY_FIELD_TYPES : list string :=
  ["RECORD_NUMBER"; "CREATOR"; "CREATED_TIME"; "MODIFIER"; "UPDATED_TIME";
   "STATUS"; "STATUS_ASSIGNEE"; "__ID__"; "__REVISION__"; "CALC"; "CATEGORY"].

(** [list.includes(v)] for a list of strings. *)
Definition includes (l : list string) (v : option Js.json) : bool :=
  match v with
  | Some (Js.JStr s) => bool_decide (s ∈ l)
  | _ => false
  end.

(** [fieldValue && typeof fieldValue === 'object' && fieldValue.type] and
    [READONLY_FIELD_TYPES.includes(fieldValue.type)] *)
Definition has_readonly_type (fieldValue : Js.json) : bool :=
  Js.truthy fieldValue && Js.typeof_object fieldValue
  && Js.truthy_opt (Js.prop fieldValue "type")
  && includes READONLY_FIELD_TYPES (Js.prop fieldValue "type").

(** One turn of the loop of [cleanRecordForRestore]. *)
Definition clean_step (cleanRecord : Js.object) (entry : string * Js.json) : Js.object :=
  let '(fieldCode, fieldValue) := entry in
  if bool_decide (fieldCode ∈ SYSTEM_FIELDS) then cleanRecord
  else if has_readonly_type fieldValue then cleanRecord
  else Js.set cleanRecord fieldCode fieldValue.

(** [cleanRecordForRestore(record)] *)
Definition cleanRecordForRestore (record : Js.json) : result Js.json :=
  match Js.entries record with
  | Some es => Ok (Js.JObj (fold_left clean_step es []))
  | None => Throw TypeError
  end.

(** Configuration and the options of the two entry points. *)
Record config := {
  backupAppId : option string;
  archivesDir : string;
  attachmentsDir : string
}.

Record backup_options := {
  backupType : string;
  triggerType : string;
  hostname : string;
  appVersion : string
}.

Definition default_backup_options : backup_options :=
  {| backupType := "full"; triggerType := "手動"; hostname := ""; appVersion := "" |}.

Record backup_result := {
  r_appId : string;
  r_appName : string;
  r_success : bool;
  r_recordCount : Z;
  r_filePath : option string
}.

(** *** [path.join]

    The POSIX [path] module.  The segments of a path are the texts
    between its separators. *)
Fixpoint path_segments (current path : string) : list string :=
  match path with
  | EmptyString => [current]
  | String c rest =>
      if Ascii.eqb c "/" then current :: path_segments "" rest
      else path_segments (current +++ String c "") rest
  end.

(** [normalizeString]: empty segments and [.] are dropped; [..] removes
    the segment before it, and is kept when there is none to remove (or
    the one before is a [..] that was kept) and the path is relative.
    [kept] holds the segments kept so far, the last one first. *)
Fixpoint normalize_segments (allowAboveRoot : bool) (kept segments : list string)
    : list string :=
  match segments with
  | [] => rev kept
  | s :: rest =>
      if String.eqb s "" || String.eqb s "." then
        normalize_segments allowAboveRoot kept rest
      else if String.eqb s ".." then
        match kept with
        | top :: below =>
            if String.eqb top ".." then
              normalize_segments allowAboveRoot
                (if allowAboveRoot then s :: kept else kept) rest
            else normalize_segments allowAboveRoot below rest
        | [] =>
            normalize_segments allowAboveRoot
              (if allowAboveRoot then [s] else []) rest
        end
      else normalize_segments allowAboveRoot (s :: kept) rest
  end.

Fixpoint ends_with_separator (path : string) : bool :=
  match path with
  | EmptyString => false
  | String c EmptyString => Ascii.eqb c "/"
  | String _ rest => ends_with_separator rest
  end.

(** [path.normalize(path)] *)
Definition normalize (path : string) : string :=
  match path with
  | EmptyString => "."
  | String c _ =>
      let isAbsolute := Ascii.eqb c "/" in
      let trailingSeparator := ends_with_separator path in
      let body :=
        Js.join "/" (normalize_segments (negb isAbsolute) [] (path_segments "" path)) in
      if String.eqb body "" then
        if isAbsolute then "/" else if trailingSeparator then "./" else "."
      else
        (if isAbsolute then "/" else "") +++ body
          +++ (if trailingSeparator then "/" else "")
  end.

(** [path.join(...segments)]: the segments that are not empty, joined by
    the separator and normalised, so that [..] in a segment leads out of
    the segments before it. *)
Definition path_join_all (segments : list string) : string :=
  match List.filter (fun s => negb (String.eqb s "")) segments with
  | [] => "."
  | parts => normalize (Js.join "/" parts)
  end.

(** [path.join(a, b)] *)
Definition path_join (a b : string) : string := path_join_all [a; b].

(** [toISOString().replace(/[:.]/g, '-').replace('T', '_').substring(0, 19)] *)
Fixpoint replace_all (s : string) : string :=
  match s with
  | String c s' =>
      let n := nat_of_ascii c in
      String (if ((n =? 58) || (n =? 46))%nat then "-"%char else c) (replace_all s')
  | EmptyString => EmptyString
  end.

Fixpoint replace_first_T (s : string) : string :=
  match s with
  | String c s' =>
      if (nat_of_ascii c =? 84)%nat then String "_" s' else String c (replace_first_T s')
  | EmptyString => EmptyString
  end.

Definition archive_timestamp (iso : string) : string :=
  fst (Js.split_at 19 (replace_first_T (replace_all iso))).

(** [x.toFixed(2)] read back as a number: the nearest hundredth of the
    absolute value, the larger one of two that are as near, with the
    sign of [x]. *)
Definition toFixed2 (x : Q) : Q :=
  if Qle_bool 0 x
  then (inject_Z (Qfloor (x * 100 + (1 # 2))) / 100)%Q
  else (- (inject_Z (Qfloor (- x * 100 + (1 # 2))) / 100))%Q.

(** [v.k] where [v] must not be [null] or [undefined]. *)
Definition member (v : option Js.json) (k : string) : result (option Js.json) :=
  match v with
  | Some Js.JNull | None => Throw TypeError
  | Some v' => Ok (Js.prop v' k)
  end.

(** What better-sqlite3 binds for a parameter: a text as it is; a
    number as a REAL, which a TEXT column stores as its text with a
    fraction (4 as 4.0; integers of up to 15 digits); [null] and
    [undefined] as NULL.  A boolean, an array or an object cannot be
    bound, and the call throws before the statement runs. *)
Definition bind_value (v : option Js.json) : result (option string) :=
  match v with
  | Some (Js.JStr s) => Ok (Some s)
  | Some (Js.JNum n) => Ok (Some (Js.Z_to_string n +++ ".0"))
  | Some Js.JNull | None => Ok None
  | Some _ => Throw TypeError
  end.

(** A column that is NOT NULL refuses NULL when the statement runs. *)
Definition not_null (column : string) (v : option string) : result string :=
  match v with
  | Some s => Ok s
  | None => Throw (Error ("NOT NULL constraint failed: " +++ column))
  end.

Record restore_options := {
  selectedRecordIds : option (list string);
  restore_hostname : string;
  restore_appVersion : string
}.

(** What [restoreBackup] returns, with the status it derived (which the
    program sends to the audit app and folds into [success]). *)
Record restore_result := {
  success : bool;
  restored_appId : string;
  restored_appName : option string;
  recordCount : Z;
  addedCount : Z;
  updatedCount : Z;
  derived_status : string
}.

(** [records.filter((record) => selectedRecordIds.includes(record.$id.value))] *)
Fixpoint select_records (ids : list string) (records : list Js.json)
    : result (list Js.json) :=
  match records with
  | [] => Ok []
  | r :: rest =>
      match member (Some r) "$id" with
      | Throw e => Throw e
      | Ok i =>
          match member i "value" with
          | Throw e => Throw e
          | Ok v =>
              match select_records ids rest with
              | Throw e => Throw e
              | Ok rest' => Ok (if includes ids v then r :: rest' else rest')
              end
          end
      end
  end.

(** The business key of an archived record: the value of [$id], else the
    value of the record-number field, else [null]. *)
Definition business_key (record : Js.json) : result (option string) :=
  match member (Some record) "$id" with
  | Throw e => Throw e
  | Ok i =>
      if Js.truthy_opt i && Js.truthy_opt (Js.opt_prop i "value")
      then Ok (Js.to_String <$> Js.opt_prop i "value")
      else
        match member (Some record) "レコード番号" with
        | Throw e => Throw e
        | Ok n =>
            if Js.truthy_opt n && Js.truthy_opt (Js.opt_prop n "value")
            then Ok (Js.to_String <$> Js.opt_prop n "value")
            else Ok None
        end
  end.

(** [list.map(f)] for an [f] that may throw. *)
Fixpoint map_result {A B} (f : A -> result B) (l : list A) : result (list B) :=
  match l with
  | [] => Ok []
  | x :: l' =>
      match f x with
      | Throw e => Throw e
      | Ok y =>
          match map_result f l' with
          | Throw e => Throw e
          | Ok ys => Ok (y :: ys)
          end
      end
  end.

(** [Array.from(new Set(list.filter((v) => v !== null)))] *)
Definition unique_keys (keys : list (option string)) : list string :=
  fold_left (fun seen k =>
               match k with
               | Some s => if bool_decide (s ∈ seen) then seen else (seen ++ [s])%list
               | None => seen
               end) keys [].

(** One turn of the loop that splits the cleaned records: a record whose
    key is mapped to a truthy id is an update, any other an addition. *)
Definition partition_step (mapping : gmap string (option string))
    (acc : list update_entry * list Js.json) (x : Js.json * option string)
    : list update_entry * list Js.json :=
  let '(updates, adds) := acc in
  let '(rec, num) := x in
  let mappedId : option (option string) :=
    match num with
    | Some n => mapping !! n
    | None => None
    end in
  match mappedId with
  | Some (Some i) =>
      if negb (String.eqb i "")
      then ((updates ++ [{| id := i; record := rec |}])%list, adds)
      else (updates, (adds ++ [rec])%list)
  | _ => (updates, (adds ++ [rec])%list)
  end.

Definition partition (mapping : gmap string (option string))
    (cleanedRecords : list Js.json) (recordNumberList : list (option string))
    : list update_entry * list Js.json :=
  fold_left (partition_step mapping) (zip cleanedRecords recordNumberList) ([], []).

(** The status of a restore. *)
Definition restore_status (updateFailed addFailed : bool) (addedCount updatedCount : Z)
    : string :=
  if (updateFailed || addFailed) && ((addedCount >? 0) || (updatedCount >? 0))
  then Database.ST_PARTIAL
  else if updateFailed && addFailed then Database.ST_FAILURE
  else Database.ST_SUCCESS.

(** The live identifier a business key resolves to in the mapping, if
    any.  A record without key, a key the mapping does not hold, a key
    mapped to [null] and a key mapped to the empty text resolve to none. *)
Definition resolves_to (mapping : gmap string (option string)) (key : option string)
    : option string :=
  match key with
  | Some n =>
      match mapping !! n with
      | Some (Some i) => if String.eqb i "" then None else Some i
      | _ => None
      end
  | None => None
  end.

(** What the two tests of the loop of [cleanRecordForRestore] let
    through. *)
Definition passes (m : string * Js.json) : Prop :=
  (m.1 ∉ SYSTEM_FIELDS) ∧ has_readonly_type (m.2) = false.

(** The update a record and its key stand for, when the key resolves,
    and the addition it stands for when it does not. *)
Definition as_update (mapping : gmap string (option string))
    (x : Js.json * option string) : option update_entry :=
  (fun i => {| id := i; record := x.1 |}) <$> resolves_to mapping (x.2).

Definition as_add (mapping : gmap string (option string))
    (x : Js.json * option string) : option Js.json :=
  match resolves_to mapping (x.2) with
  | Some _ => None
  | None => Some (x.1)
  end.

(** All object members inside a value, at any depth. *)
Fixpoint deep_members (v : Js.json) : list (string * Js.json) :=
  match v with
  | Js.JArr items => flat_map deep_members items
  | Js.JObj members => flat_map (fun m => m :: deep_members (snd m)) members
  | _ => []
  end.

(** The recorded last backup time of an app: none when the app has no row
    or the column is NULL. *)
Definition last_backup_time (d : Database.db) (appId : string) : option string :=
  match Database.getLastBackupDatetime d appId with
  | Some (last, _) => last
  | None => None
  end.

(** The query of a full fetch. *)
Definition full_query (appId : string) : records_query :=
  {| q_app := appId; q_fields := None; q_condition := None |}.

(** An entry of the results of [runScheduledBackup]: what [backupApp]
    returned, or the app and the message of the error it threw. *)
Inductive scheduled_result :=
| Backed_up (result : backup_result)
| Not_backed_up (appId : string) (appName : option string) (error : string).

(** The options of a scheduled backup. *)
Definition scheduled_options : backup_options :=
  {| backupType := "differential"; triggerType := "スケジュール";
     hostname := ""; appVersion := "" |}.

Section Manager.
Context (E : env) (C : config).

(** [logToKintoneBackupApp(logData)]: skipped without a configured audit
    app; never throws. *)
Definition logToKintoneBackupApp (logData : audit_entry) : M unit :=
  try_catch
    (match backupAppId C with
     | Some app =>
         if String.eqb app "" then mret tt
         else KintoneClient.logToBackupApp E app logData ;; mret tt
     | None => mret tt
     end)
    (fun _ => mret tt).

(** [createBackupZip(appId, records, zipFilePath)]: the container gets the
    records as captured and a manifest; the result is the byte length of
    the records text.  The promise is resolved with that length when the
    output file closes, also when the file could not be written, and is
    rejected only by an error of the archiver. *)
Definition createBackupZip (appId : string) (records : list Js.json)
    (zipFilePath : string) : M Z :=
  let recordsJson := Js.JSON_stringify (Js.JArr records) in
  let originalSize := Z.of_nat (String.length recordsJson) in
  fieldProperties ←
    try_catch (p ← KintoneClient.getFormFields E appId; mret (Js.JObj p))
              (fun _ => mret Js.JNull);
  let metadata :=
    Js.JObj [("schemaVersion", Js.JStr "1.0.0");
             ("appId", Js.JStr appId);
             ("recordCount", Js.JNum (Z.of_nat (length records)));
             ("backupDate", Js.JStr (now_iso E AtManifest));
             ("version", Js.JStr "1.0");
             ("fieldProperties", fieldProperties)] in
  match archive_stream E zipFilePath with
  | Written =>
      ((fun w =>
          (with_archives w
             (<[zipFilePath := [("records.json", recordsJson);
                                ("backup_metadata.json", Js.JSON_stringify metadata)]]>
                (archives w)), Ok originalSize)) : M Z)
  | Output_error remains =>
      fun w => (with_archives w (left_at zipFilePath remains (archives w)), Ok originalSize)
  | Archiver_error e remains =>
      fun w => (with_archives w (left_at zipFilePath remains (archives w)), Throw e)
  end.

(** What the entry handler of [extractBackupZip] has accumulated. *)
Record extraction := {
  recordsJson : string;
  extracted : list Js.json;
  rejected : option error
}.

(** The text an entry stream adds: each chunk is decoded on its own. *)
Definition received (content : string) : string :=
  fold_left (fun acc chunk => acc +++ Js.Buffer_toString chunk)
    (Js.chunks (S (String.length content)) (chunk_size E) content) "".

(** The handler for one entry: the chunks of [records.json] are appended
    to [recordsJson], which is parsed at the end of the entry; other
    entries are drained. *)
Definition on_entry (st : extraction) (entry : string * string) : extraction :=
  let '(fileName, content) := entry in
  if String.eqb fileName "records.json" then
    let text := recordsJson st +++ received content in
    match Js.JSON_parse text ≫= Js.spread with
    | Some parsed =>
        {| recordsJson := text; extracted := extracted st ++ parsed;
           rejected := rejected st |}
    | None =>
        {| recordsJson := text; extracted := extracted st;
           rejected := match rejected st with
                       | Some e => Some e
                       | None => Some (Error "Failed to parse records.json")
                       end |}
    end
  else st.

(** [extractBackupZip(zipFilePath)]: the entries of the archive are
    handled in their order; the promise is rejected when the records
    cannot be parsed, and resolved with the records when the parser
    closes.  The code listens for errors of the parser only: the read
    stream of a file that is not there fails without a listener, and the
    promise is then not settled.  A result cannot say so: [ENOENT] is
    returned for that case, and nothing is proved of that case alone. *)
Definition extractBackupZip (zipFilePath : string) : M (list Js.json) := fun w =>
  match archives w !! zipFilePath with
  | None => (w, Throw (Error "ENOENT"))
  | Some entries =>
      let st := fold_left on_entry entries
                  {| recordsJson := ""; extracted := []; rejected := None |} in
      match rejected st with
      | Some e => (w, Throw e)
      | None => (w, Ok (extracted st))
      end
  end.

(** [findAttachmentFields(records)]: the FILE fields of the first record. *)
Fixpoint file_fields (es : Js.object) : result (list string) :=
  match es with
  | [] => Ok []
  | (fieldCode, field) :: rest =>
      match member (Some field) "type" with
      | Throw e => Throw e
      | Ok t =>
          match file_fields rest with
          | Throw e => Throw e
          | Ok l =>
              Ok (match t with
                  | Some (Js.JStr "FILE") => fieldCode :: l
                  | _ => l
                  end)
          end
      end
  end.

Definition findAttachmentFields (records : list Js.json) : result (list string) :=
  match records with
  | [] => Ok []
  | firstRecord :: _ =>
      match Js.entries firstRecord with
      | Some es => file_fields es
      | None => Throw TypeError
      end
  end.

(** One file of an attachment field: downloaded and written; a failure is
    logged and skipped. *)
Definition as_segment (v : option Js.json) : result string :=
  match v with
  | Some (Js.JStr s) => Ok s
  | _ => Throw TypeError
  end.

Definition download_one (appId : string) (recordId : option Js.json)
    (timestamp : string) (file : Js.json) : M unit :=
  try_catch
    (fileKey ← lift (member (Some file) "fileKey");
     fileData ← KintoneClient.downloadFile E (default "undefined" (Js.to_String <$> fileKey));
     fileName ← lift (member (Some file) "name");
     rid ← lift (as_segment recordId);
     name ← lift (as_segment fileName);
     let filePath :=
       path_join_all [attachmentsDir C; appId; rid; timestamp; name] in
     ((fun w => (with_attachments w (<[filePath := fileData]> (attachments w)), Ok tt))
        : M unit))
    (fun _ => mret tt).

(** The files of one attachment field of one record. *)
Definition download_field (appId : string) (recordId : option Js.json)
    (timestamp : string) (record : Js.json) (fieldCode : string) : M unit :=
  match Js.prop record fieldCode with
  | Some field =>
      if Js.truthy field then
        match Js.prop field "value" with
        | Some (Js.JArr files) => for_each files (download_one appId recordId timestamp)
        | Some (Js.JStr s) =>
            for_each (Js.characters s) (download_one appId recordId timestamp)
        | Some v => if Js.truthy v then throw TypeError else mret tt
        | None => mret tt
        end
      else mret tt
  | None => mret tt
  end.

(** [downloadAttachments(appId, records, timestamp)] *)
Definition downloadAttachments (appId : string) (records : list Js.json)
    (timestamp : string) : M unit :=
  attachmentFields ← lift (findAttachmentFields records);
  match attachmentFields with
  | [] => mret tt
  | _ =>
      for_each records (fun record =>
        i ← lift (member (Some record) "$id");
        recordId ← lift (member i "value");
        for_each attachmentFields
          (download_field appId recordId timestamp record))
  end.

(** Step 3 of [backupApp]: the records to back up and the differential
    baseline.  A differential backup of an app without a recorded last
    backup time fetches everything. *)
Definition fetchRecords (appId backupType : string)
    : M (list Js.json * option string) :=
  if String.eqb backupType "differential" then
    d ← get_store;
    match Database.getLastBackupDatetime d appId with
    | Some (Some last, _) =>
        if negb (String.eqb last "") then
          records ← KintoneClient.getDifferentialRecords E appId last None;
          mret (records, Some last)
        else
          records ← KintoneClient.getAllRecords E appId None None;
          mret (records, None)
    | _ =>
        records ← KintoneClient.getAllRecords E appId None None;
        mret (records, None)
    end
  else
    records ← KintoneClient.getAllRecords E appId None None;
    mret (records, None).

Definition kind_text (backupType : string) : string :=
  if String.eqb backupType "full" then Database.KIND_FULL else Database.KIND_DIFF.

Definition elapsed_seconds : Q := (inject_Z (now_ms E AtEnd - now_ms E AtStart) / 1000)%Q.

(** [fs.stat(zipFilePath).size] *)
Definition stat_size (zipFilePath : string) : M Z := fun w =>
  match archives w !! zipFilePath with
  | Some c => (w, Ok (file_size E c))
  | None => (w, Throw (Error "ENOENT"))
  end.

(** One turn of the record-index loop of [backupApp]. *)
Definition index_record (appId startTime : string) (backupId : Z) (record : Js.json)
    : M unit :=
  rev ← lift (member (Some record) "$revision");
  upd ← lift (member (Some record) "更新日時");
  let updatedTime :=
    Js.or_else (Js.opt_prop rev "value")
      (Js.or_else (Js.opt_prop upd "value") (Some (Js.JStr startTime))) in
  i ← lift (member (Some record) "$id");
  recordId ← lift (member i "value");
  rid ← lift (bind_value recordId);
  ut ← lift (bind_value updatedTime);
  rid ← lift (not_null "record_index.record_id" rid);
  ut ← lift (not_null "record_index.updated_time" ut);
  on_store (fun d => Database.upsertRecordIndex d appId rid ut backupId).

(** The [try] block of [backupApp]. *)
Definition backupApp_body (appId : string) (options : backup_options) (backupId : Z)
    : M backup_result :=
  let startTime := now_iso E AtStart in
  appName ← KintoneClient.getApp E appId;
  on_store (fun d => Database.updateBackup d backupId [Database.Set_app_name appName]) ;;
  '(records, diffBaseDatetime) ← fetchRecords appId (backupType options);
  match records with
  | [] =>
      st ← KintoneClient.getStats;
      on_store (fun d => Database.updateBackup d backupId
        [Database.Set_end_time (now_iso E AtEnd);
         Database.Set_duration_seconds elapsed_seconds;
         Database.Set_record_count 0;
         Database.Set_status Database.ST_SUCCESS;
         Database.Set_api_request_count (apiRequestCount st);
         Database.Set_retry_count (retryCount st);
         Database.Set_diff_base_datetime diffBaseDatetime]) ;;
      mret {| r_appId := appId; r_appName := appName; r_success := true;
              r_recordCount := 0; r_filePath := None |}
  | _ =>
      let timestamp := archive_timestamp (now_iso E AtArchiveName) in
      let zipFileName :=
        "app_" +++ appId +++ "_" +++ timestamp +++ "_" +++ backupType options +++ ".zip" in
      let zipFilePath := path_join (archivesDir C) zipFileName in
      originalSize ← createBackupZip appId records zipFilePath;
      downloadAttachments appId records timestamp ;;
      compressedSize ← stat_size zipFilePath;
      let compressionRatio :=
        toFixed2 ((1 - inject_Z compressedSize / inject_Z originalSize) * 100)%Q in
      for_each records (index_record appId startTime backupId) ;;
      let duration := elapsed_seconds in
      let count := Z.of_nat (length records) in
      let size_mb := toFixed2 (inject_Z compressedSize / inject_Z (1024 * 1024))%Q in
      st ← KintoneClient.getStats;
      on_store (fun d => Database.updateBackup d backupId
        [Database.Set_end_time (now_iso E AtEnd);
         Database.Set_duration_seconds duration;
         Database.Set_record_count count;
         Database.Set_file_path zipFileName;
         Database.Set_data_size_mb size_mb;
         Database.Set_compression_ratio compressionRatio;
         Database.Set_status Database.ST_SUCCESS;
         Database.Set_api_request_count (apiRequestCount st);
         Database.Set_retry_count (retryCount st);
         Database.Set_diff_base_datetime diffBaseDatetime]) ;;
      on_store (fun d => Database.updateAppLastBackup d appId (now_iso E AtEnd)
                           (String.eqb (backupType options) "full")) ;;
      st' ← KintoneClient.getStats;
      logToKintoneBackupApp
        {| backup_datetime := startTime;
           target_app_id := appId;
           target_app_name := appName;
           log_record_count := count;
           log_status := Database.ST_SUCCESS;
           log_duration_seconds := duration;
           log_error_details := "";
           log_backup_type := kind_text (backupType options);
           log_file_path := zipFileName;
           log_trigger_type := triggerType options;
           log_diff_base_datetime := default "" diffBaseDatetime;
           log_data_size_mb := Some size_mb;
           log_compression_ratio := Some compressionRatio;
           log_api_request_count := apiRequestCount st';
           log_retry_count := retryCount st';
           log_hostname := hostname options;
           log_app_version := appVersion options;
           log_remarks := "" |} ;;
      mret {| r_appId := appId; r_appName := appName; r_success := true;
              r_recordCount := count; r_filePath := Some zipFilePath |}
  end.

(** The [catch] block of [backupApp]: the run is closed as failed and the
    error is thrown again. *)
Definition backupApp_failed (backupId : Z) (err : error) : M backup_result :=
  st ← KintoneClient.getStats;
  on_store (fun d => Database.updateBackup d backupId
    [Database.Set_end_time (now_iso E AtEnd);
     Database.Set_duration_seconds elapsed_seconds;
     Database.Set_status Database.ST_FAILURE;
     Database.Set_error_details (if String.eqb (stack err) "" then message err else stack err);
     Database.Set_api_request_count (apiRequestCount st);
     Database.Set_retry_count (retryCount st)]) ;;
  throw err.

(** The row [backupApp] inserts when it starts. *)
Definition running_row (appId : string) (options : backup_options) : Database.backup_row :=
  {| Database.app_id := appId;
     Database.app_name := Some "";
     Database.backup_type := kind_text (backupType options);
     Database.trigger_type := Some (triggerType options);
     Database.start_time := now_iso E AtStart;
     Database.end_time := None;
     Database.duration_seconds := None;
     Database.record_count := None;
     Database.file_path := None;
     Database.data_size_mb := None;
     Database.compression_ratio := None;
     Database.status := Database.ST_RUNNING;
     Database.error_details := None;
     Database.api_request_count := 0;
     Database.retry_count := 0;
     Database.diff_base_datetime := None;
     Database.hostname := Some (hostname options);
     Database.app_version := Some (appVersion options);
     Database.remarks := None |}.

(** [backupApp(appId, options)]; the id of the run row is returned with
    the outcome. *)
Definition backupApp (appId : string) (options : backup_options)
    : world -> world * (Z * result backup_result) := fun w =>
  let '(d, backupId) := Database.insertBackup (store w) (running_row appId options) in
  let '(w', r) :=
    finally
      (try_catch (backupApp_body appId options backupId) (backupApp_failed backupId))
      KintoneClient.resetCounters (with_store w d) in
  (w', (backupId, r)).

(** The mapping from business key to live record id; a failure of the
    lookup leaves it empty. *)
Definition resolve_keys (appId : string) (uniqueRecordNumbers : list string)
    : M (gmap string (option string)) :=
  match uniqueRecordNumbers with
  | [] => mret ∅
  | _ =>
      try_catch (KintoneClient.findRecordIdsByRecordNumbers E appId uniqueRecordNumbers)
                (fun _ => mret ∅)
  end.

(** The two calls of a restore: each partition is sent when it is not
    empty, and a failure of one is recorded and does not stop the other. *)
Definition apply_updates (appId : string) (updates : list update_entry) : M (Z * bool) :=
  match updates with
  | [] => mret (0, false)
  | _ =>
      try_catch (KintoneClient.updateAllRecords E appId updates ;;
                 mret (Z.of_nat (length updates), false))
                (fun _ => mret (0, true))
  end.

Definition apply_adds (appId : string) (adds : list Js.json) : M (Z * bool) :=
  match adds with
  | [] => mret (0, false)
  | _ =>
      try_catch (res ← KintoneClient.addAllRecords E appId adds;
                 mret (Z.of_nat (length res), false))
                (fun _ => mret (0, true))
  end.

(** The [try] block of [restoreBackup]. *)
Definition restoreBackup_body (backupId : Z) (backup : Database.backup_row)
    (options : restore_options) : M restore_result :=
  let startTime := now_iso E AtStart in
  file ← lift (match Database.file_path backup with
               | Some f => Ok f
               | None => Throw TypeError
               end);
  let zipFilePath := path_join (archivesDir C) file in
  records ← extractBackupZip zipFilePath;
  recordsToRestore ←
    lift (match selectedRecordIds options with
          | Some (i :: ids) => select_records (i :: ids) records
          | _ => Ok records
          end);
  match recordsToRestore with
  | [] => throw (Error "復元するレコードがありません")
  | _ =>
      cleanedRecords ← lift (map_result cleanRecordForRestore recordsToRestore);
      recordNumberList ← lift (map_result business_key recordsToRestore);
      let uniqueRecordNumbers := unique_keys recordNumberList in
      mapping ← resolve_keys (Database.app_id backup) uniqueRecordNumbers;
      let '(updates, adds) := partition mapping cleanedRecords recordNumberList in
      '(updatedCount, updateFailed) ← apply_updates (Database.app_id backup) updates;
      '(addedCount, addFailed) ← apply_adds (Database.app_id backup) adds;
      let status := restore_status updateFailed addFailed addedCount updatedCount in
      let duration := elapsed_seconds in
      let remarks :=
        "バックアップID: " +++ Js.Z_to_string backupId +++ "からの復元 (追加:"
          +++ Js.Z_to_string addedCount +++ ", 更新:" +++ Js.Z_to_string updatedCount
          +++ ")" in
      st ← KintoneClient.getStats;
      logToKintoneBackupApp
        {| backup_datetime := startTime;
           target_app_id := Database.app_id backup;
           target_app_name := default "" (Database.app_name backup);
           log_record_count := Z.of_nat (length recordsToRestore);
           log_status := status;
           log_duration_seconds := duration;
           log_error_details := "";
           log_backup_type := Database.KIND_RESTORE;
           log_file_path := file;
           log_trigger_type := "手動";
           log_diff_base_datetime := "";
           log_data_size_mb := None;
           log_compression_ratio := None;
           log_api_request_count := apiRequestCount st;
           log_retry_count := retryCount st;
           log_hostname := restore_hostname options;
           log_app_version := restore_appVersion options;
           log_remarks := remarks |} ;;
      mret {| success := String.eqb status Database.ST_SUCCESS
                         || String.eqb status Database.ST_PARTIAL;
              restored_appId := Database.app_id backup;
              restored_appName := Database.app_name backup;
              recordCount := Z.of_nat (length recordsToRestore);
              addedCount := addedCount;
              updatedCount := updatedCount;
              derived_status := status |}
  end.

(** [restoreBackup(backupId, options)] *)
Definition restoreBackup (backupId : Z) (options : restore_options) : M restore_result :=
  fun w =>
    match Database.getBackupById (store w) backupId with
    | None => (w, Throw (Error "バックアップが見つかりません"))
    | Some backup =>
        finally
          (try_catch (restoreBackup_body backupId backup options) (fun e => throw e))
          KintoneClient.resetCounters w
    end.

(** [getRecordsFromBackup(backupId)]: the records of the archive of a
    run, for the preview. *)
Definition getRecordsFromBackup (backupId : Z) : M (list Js.json) := fun w =>
  match Database.getBackupById (store w) backupId with
  | None => (w, Throw (Error "バックアップが見つかりません"))
  | Some backup =>
      match Database.file_path backup with
      | Some file => extractBackupZip (path_join (archivesDir C) file) w
      | None => (w, Throw TypeError)
      end
  end.

(** One turn of the loop of [runScheduledBackup]: the app is backed up,
    and a failure becomes an entry of the results. *)
Definition scheduled_turn (app : Database.app_view) : M scheduled_result := fun w =>
  let '(w', (_, r)) := backupApp (Database.v_app_id app) scheduled_options w in
  (w', Ok match r with
          | Ok res => Backed_up res
          | Throw e =>
              Not_backed_up (Database.v_app_id app) (Database.v_app_name app) (message e)
          end).

Fixpoint scheduled_loop (apps : list Database.app_view) (results : list scheduled_result)
    : M (list scheduled_result) :=
  match apps with
  | [] => mret results
  | app :: rest =>
      result ← scheduled_turn app;
      scheduled_loop rest (results ++ [result])
  end.

(** [runScheduledBackup()]: a differential backup of every active app. *)
Definition runScheduledBackup : M (list scheduled_result) := fun w =>
  match Database.getAllApps (store w) true with
  | None => (w, Throw (Error "SyntaxError"))
  | Some apps => scheduled_loop apps [] w
  end.

End Manager.

End BackupManager.

(** ** main.js: the handlers of the renderer's requests *)

Module Main.
Import Effects.

Section Handlers.
Context (E : env) (C : BackupManager.config).

(** [ipcMain.handle('delete-backup')]: the archive of the run is removed
    when it is there, then the run is deleted from the store.  A run that
    names no archive makes [path.join] throw. *)
Definition delete_backup (backupId : Z) : M unit := fun w =>
  match Database.getBackupById (store w) backupId with
  | None => (w, Throw (Error "バックアップが見つかりません"))
  | Some backup =>
      match Database.file_path backup with
      | None => (w, Throw TypeError)
      | Some file =>
          let zipFilePath := BackupManager.path_join (BackupManager.archivesDir C) file in
          let w1 := with_archives w (delete zipFilePath (archives w)) in
          (with_store w1 (Database.deleteBackup (store w1) backupId), Ok tt)
      end
  end.

(** [ipcMain.handle('get-backup-details')] *)
Definition get_backup_details (backupId : Z) : M (list Js.json) :=
  BackupManager.getRecordsFromBackup E C backupId.

End Handlers.

End Main.

(** ** Sample data *)

Module Samples.
Import Effects Js.

(** A store with one finished run and one record marker made by it. *)
Definition finished_run : Database.backup_row :=
  {| Database.app_id := "10";
     Database.app_name := Some "顧客";
     Database.backup_type := Database.KIND_FULL;
     Database.trigger_type := Some "手動";
     Database.start_time := "2024-01-02T03:04:05.678Z";
     Database.end_time := Some "2024-01-02T03:04:09.678Z";
     Database.duration_seconds := Some 4%Q;
     Database.record_count := Some 1;
     Database.file_path := Some "app_10_2024-01-02_03-04-05_full.zip";
     Database.data_size_mb := Some 0%Q;
     Database.compression_ratio := Some 32%Q;
     Database.status := Database.ST_SUCCESS;
     Database.error_details := None;
     Database.api_request_count := 3;
     Database.retry_count := 0;
     Database.diff_base_datetime := None;
     Database.hostname := Some "";
     Database.app_version := Some "";
     Database.remarks := None |}.

Definition marker_of_run : Database.marker :=
  {| Database.updated_time := "5"; Database.last_backup_id := Some 1 |}.

Definition sample_db : Database.db :=
  {| Database.backups := {[ 1 := finished_run ]};
     Database.backups_seq := 1;
     Database.apps := ∅;
     Database.record_index := {[ ("10", "1") := marker_of_run ]} |}.

(** A record with a computed field at top level and another one in a row
    of a table. *)
Definition subtotal : json := JObj [("type", JStr "CALC"); ("value", JStr "100")].

Definition order_record : json :=
  JObj [("$id", JObj [("type", JStr "__ID__"); ("value", JStr "1")]);
        ("顧客名", JObj [("type", JStr "SINGLE_LINE_TEXT"); ("value", JStr "山田")]);
        ("合計", JObj [("type", JStr "CALC"); ("value", JStr "100")]);
        ("明細", JObj [("type", JStr "SUBTABLE");
                       ("value", JArr [JObj [("id", JStr "7");
                                            ("value", JObj [("単価", JObj [("type", JStr "NUMBER"); ("value", JStr "100")]);
                                                            ("小計", subtotal)])]])])].

Definition order_cleaned : json :=
  JObj [("顧客名", JObj [("type", JStr "SINGLE_LINE_TEXT"); ("value", JStr "山田")]);
        ("明細", JObj [("type", JStr "SUBTABLE");
                       ("value", JArr [JObj [("id", JStr "7");
                                            ("value", JObj [("単価", JObj [("type", JStr "NUMBER"); ("value", JStr "100")]);
                                                            ("小計", subtotal)])]])])].

(** Two archived records, and a mapping that resolves the first. *)
Definition customer (i name : string) : json :=
  JObj [("$id", JObj [("type", JStr "__ID__"); ("value", JStr i)]);
        ("顧客名", JObj [("type", JStr "SINGLE_LINE_TEXT"); ("value", JStr name)])].

Definition one_resolved : gmap string (option string) :=
  {[ "1" := Some "101"; "2" := None ]}.

(** A service on which updates fail, and one on which additions fail;
    everything else answers. *)
Definition record_number_form : object :=
  [("レコード番号", JObj [("type", JStr "RECORD_NUMBER")])].

Definition live_row (number i : string) : json :=
  JObj [("レコード番号", JObj [("value", JStr number)]); ("$id", JObj [("value", JStr i)])].

Definition service_where (live : list json) (updates_fail adds_fail : bool) : service :=
  {| on_getApp := fun _ _ => (0, Ok "顧客");
     on_getFormFields := fun _ _ => (0, Ok record_number_form);
     on_getAllRecords := fun _ _ => (0, Ok [customer "1" "山田"]);
     on_getRecords := fun _ _ _ _ => (0, Ok live);
     on_addRecords := fun _ _ batch =>
       if adds_fail then (5, Throw (Error "520")) else (0, Ok (map (fun _ => "201") batch));
     on_updateRecords := fun _ _ _ =>
       if updates_fail then (5, Throw (Error "520")) else (0, Ok tt);
     on_addRecord := fun _ _ _ => (0, Ok "1");
     on_downloadFile := fun _ _ => (0, Ok "") |}.

Definition env_where (live : list json) (updates_fail adds_fail : bool) : env :=
  {| remote := service_where live updates_fail adds_fail;
     now_iso := fun _ => "2024-01-02T03:04:05.678Z";
     now_ms := fun site => match site with AtEnd => 5000 | _ => 1000 end;
     archive_stream := fun _ => Written;
     file_size := fun _ => 100;
     chunk_size := Z.to_nat 16384 |}.

Definition sample_config : BackupManager.config :=
  {| BackupManager.backupAppId := Some "99";
     BackupManager.archivesDir := "archives";
     BackupManager.attachmentsDir := "attachments" |}.

Definition fresh_world : world :=
  {| store := Database.empty_db;
     stats := {| apiRequestCount := 0; retryCount := 0 |};
     trace := [];
     archives := ∅;
     attachments := ∅;
     recordNumberFieldCache := ∅ |}.

(** The world after run 1 archived [records]. *)
Definition archived_world (records : list json) : world :=
  {| store := sample_db;
     stats := {| apiRequestCount := 0; retryCount := 0 |};
     trace := [];
     archives :=
       {[ "archives/app_10_2024-01-02_03-04-05_full.zip" :=
            [("records.json", JSON_stringify (JArr records));
             ("backup_metadata.json", "{}")] ]};
     attachments := ∅;
     recordNumberFieldCache := ∅ |}.

Definition restore_all : BackupManager.restore_options :=
  {| BackupManager.selectedRecordIds := None;
     BackupManager.restore_hostname := "";
     BackupManager.restore_appVersion := "" |}.

(** A record whose memo is 16312 letters followed by one kana.  In the
    JSON text of the list that holds it, the kana occupies bytes 16383 to
    16385: the first 16384-byte chunk ends inside it. *)
Fixpoint letters (n : nat) : string :=
  match n with
  | O => EmptyString
  | S n' => String "a" (letters n')
  end.

Definition memo_record (text : string) : json :=
  JObj [("メモ", JObj [("type", JStr "MULTI_LINE_TEXT"); ("value", JStr text)])].

Definition long_text : string := String.append (letters (Z.to_nat 16312)) "あ".

Definition long_text_read : string :=
  String.append (letters (Z.to_nat 16312))
    (String.append REPLACEMENT (String.append REPLACEMENT REPLACEMENT)).

(** The memo text of the first record of a list. *)
Definition memo_text (records : list json) : string :=
  match records with
  | r :: _ =>
      match Js.prop r "メモ" ≫= (fun f => Js.prop f "value") with
      | Some (JStr s) => s
      | _ => EmptyString
      end
  | [] => EmptyString
  end.

(** The last bytes of a memo of that length. *)
Definition text_tail (s : string) : string := snd (split_at (Z.to_nat 16312) s).

(** A store with two apps set up, the first one active. *)
Definition app_entry (name : string) (active : bool) : Database.app_row :=
  {| Database.a_app_name := Some name;
     Database.is_active := active;
     Database.last_backup_datetime := None;
     Database.last_full_backup_datetime := None;
     Database.field_info := None |}.

Definition scheduled_db : Database.db :=
  {| Database.backups := ∅;
     Database.backups_seq := 0;
     Database.apps := {[ "10" := app_entry "顧客" true; "20" := app_entry "案件" false ]};
     Database.record_index := ∅ |}.

Definition scheduled_view : Database.app_view :=
  {| Database.v_app_id := "10";
     Database.v_app_name := Some "顧客";
     Database.v_is_active := true;
     Database.v_last_backup_datetime := None;
     Database.v_last_full_backup_datetime := None;
     Database.v_field_info := None |}.

Definition scheduled_world : world :=
  {| store := scheduled_db;
     stats := {| apiRequestCount := 0; retryCount := 0 |};
     trace := [];
     archives := ∅;
     attachments := ∅;
     recordNumberFieldCache := ∅ |}.

(** A service that is down, and an environment on it. *)
Definition service_down : service :=
  {| on_getApp := fun _ _ => (5, Throw (Error "520"));
     on_getFormFields := fun _ _ => (5, Throw (Error "520"));
     on_getAllRecords := fun _ _ => (5, Throw (Error "520"));
     on_getRecords := fun _ _ _ _ => (5, Throw (Error "520"));
     on_addRecords := fun _ _ _ => (5, Throw (Error "520"));
     on_updateRecords := fun _ _ _ => (5, Throw (Error "520"));
     on_addRecord := fun _ _ _ => (5, Throw (Error "520"));
     on_downloadFile := fun _ _ => (5, Throw (Error "520")) |}.

Definition env_down : env :=
  {| remote := service_down;
     now_iso := fun _ => "2024-01-02T03:04:05.678Z";
     now_ms := fun site => match site with AtEnd => 5000 | _ => 1000 end;
     archive_stream := fun _ => Written;
     file_size := fun _ => 100;
     chunk_size := Z.to_nat 16384 |}.

(** A record with one attached file, whose name as the service sends it
    leads upwards, and a service that holds this record. *)
Definition file_record (name : string) : json :=
  JObj [("$id", JObj [("type", JStr "__ID__"); ("value", JStr "1")]);
        ("添付", JObj [("type", JStr "FILE");
                       ("value", JArr [JObj [("fileKey", JStr "k1");
                                            ("name", JStr name)]])])].

Definition service_with_file (name : string) : service :=
  {| on_getApp := fun _ _ => (0, Ok "顧客");
     on_getFormFields := fun _ _ => (0, Ok record_number_form);
     on_getAllRecords := fun _ _ => (0, Ok [file_record name]);
     on_getRecords := fun _ _ _ _ => (0, Ok []);
     on_addRecords := fun _ _ batch => (0, Ok (map (fun _ => "201") batch));
     on_updateRecords := fun _ _ _ => (0, Ok tt);
     on_addRecord := fun _ _ _ => (0, Ok "1");
     on_downloadFile := fun _ _ => (0, Ok "contents") |}.

Definition env_with_file (name : string) : env :=
  {| remote := service_with_file name;
     now_iso := fun _ => "2024-01-02T03:04:05.678Z";
     now_ms := fun site => match site with AtEnd => 5000 | _ => 1000 end;
     archive_stream := fun _ => Written;
     file_size := fun _ => 100;
     chunk_size := Z.to_nat 16384 |}.

End Samples.

(** ** Vocabulary of the properties of a run *)

Module Runs.
Import Effects BackupManager.

(** A computation keeps the relation [R] between the world before and
    the world after. *)
Definition respects (R : world → world → Prop) {A} (m : M A) : Prop :=
  ∀ w, R w (m w).1.

(** The run row [backupId] is untouched. *)
Definition same_run (backupId : Z) (w w' : world) : Prop :=
  Database.backups (store w') !! backupId = Database.backups (store w) !! backupId.

(** No archive or attachment is written and no attachment is downloaded. *)
Definition same_files (w w' : world) : Prop :=
  archives w' = archives w
  ∧ attachments w' = attachments w
  ∧ List.filter is_download (trace w') = List.filter is_download (trace w).

(** Both. *)
Definition quiet (backupId : Z) (w w' : world) : Prop :=
  same_run backupId w w' ∧ same_files w w'.

(** A computation that returns, returns a value with property [Q]. *)
Definition ensures {A} (Q : A → Prop) (m : M A) : Prop :=
  ∀ w, match (m w).2 with
       | Ok a => Q a
       | Throw _ => True
       end.

(** No key of the mapping is resolved to the empty text. *)
Definition ids_not_empty (mapping : gmap string (option string)) : Prop :=
  ∀ k i, mapping !! k = Some (Some i) → i ≠ EmptyString.

(** The id values of a row the service answers with are no arrays (the
    service sends ids as text). *)
Definition scalar (v : option Js.json) : Prop :=
  match v with
  | Some (Js.JArr _) => False
  | _ => True
  end.

Definition row_ids_scalar (rec : Js.json) : Prop :=
  scalar (Js.opt_prop (Js.opt_prop (Some rec) "$id") "value")
  ∧ scalar (Js.opt_prop (Js.opt_prop (Some rec) "__ID__") "value")
  ∧ scalar (Js.opt_prop (Some rec) "id").

Definition service_ids_scalar (E : env) : Prop :=
  ∀ n appId query fields rows,
    (on_getRecords (remote E) n appId query fields).2 = Ok rows →
    Forall row_ids_scalar rows.

Section RunRow.
Context (backupId : Z).

Definition run_row (w : world) : option Database.backup_row :=
  Database.backups (store w) !! backupId.

(** A row that has not been closed: no record count, no archive. *)
Definition pending (row : Database.backup_row) : Prop :=
  Database.record_count row = None ∧ Database.file_path row = None.

(** How a run ends, from the world [w0] it started in. *)
Inductive closed (w0 w' : world) : result backup_result → Prop :=
| closed_empty res row :
    run_row w' = Some row →
    Database.record_count row = Some 0 →
    Database.file_path row = None →
    Database.status row = Database.ST_SUCCESS →
    same_files w0 w' →
    closed w0 w' (Ok res)
| closed_full res row n f :
    run_row w' = Some row →
    Database.record_count row = Some n → 0 < n →
    Database.file_path row = Some f →
    Database.status row = Database.ST_SUCCESS →
    closed w0 w' (Ok res)
| closed_failed e row :
    run_row w' = Some row →
    Database.record_count row = None →
    Database.file_path row = None →
    Database.status row = Database.ST_FAILURE →
    closed w0 w' (Throw e).

(** The [try] block ends closed, or throws with the row still pending. *)
Definition body_outcome (w0 : world) (out : world * result backup_result) : Prop :=
  match out with
  | (w1, Ok res) => closed w0 w1 (Ok res)
  | (w1, Throw e) => ∃ row1, run_row w1 = Some row1 ∧ pending row1
  end.

End RunRow.

(** The time slept over the retries of one request. *)
Definition total_wait (delays : list Q) : Q := fold_right Qplus 0%Q delays.

(** A jitter draw of [Math.random()]. *)
Definition is_draw (random : Q) : Prop := (0 <= random)%Q ∧ (random < 1)%Q.

(** *** What a computation may change

    A footprint names the calls a computation may make, the changes it
    may make to the store, and the archive and attachment files it may
    write; [touches F w w'] holds when [w'] comes from [w] by such
    changes, and by changes to the counters and the cache of the
    client. *)
Record footprint := {
  may_call : call → Prop;
  may_store : Database.db → Database.db → Prop;
  may_archive : string → Prop;
  may_attach : string → Prop
}.

Inductive touches (F : footprint) (w : world) : world → Prop :=
| touches_none : touches F w w
| touches_stats w' c : touches F w w' → touches F w (with_stats w' c)
| touches_cache w' c : touches F w w' → touches F w (with_cache w' c)
| touches_call w' c :
    touches F w w' → may_call F c → touches F w (with_trace w' (trace w' ++ [c]))
| touches_store w' d :
    touches F w w' → may_store F (store w') d → touches F w (with_store w' d)
| touches_archive w' p content :
    touches F w w' → may_archive F p →
    touches F w (with_archives w' (<[p := content]> (archives w')))
| touches_attachment w' p content :
    touches F w w' → may_attach F p →
    touches F w (with_attachments w' (<[p := content]> (attachments w'))).

(** The calls of a backup of [appId]: reads of the app, downloads, and
    the record added to the audit app. *)
Definition backup_call (C : config) (appId : string) (c : call) : Prop :=
  match c with
  | GetApp a | GetFormFields a => a = appId
  | GetAllRecords q => q_app q = appId
  | DownloadFile _ => True
  | AddRecord a _ => backupAppId C = Some a
  | GetRecords _ _ _ | AddRecords _ _ | UpdateRecords _ _ => False
  end.

(** The statements of a backup of [appId] that runs as [backupId]. *)
Definition backup_statement (appId : string) (backupId : Z) (d d' : Database.db) : Prop :=
  (∃ updateData, d' = Database.updateBackup d backupId updateData)
  ∨ (∃ recordId updatedTime,
       d' = Database.upsertRecordIndex d appId recordId updatedTime backupId)
  ∨ (∃ backupDatetime isFullBackup,
       d' = Database.updateAppLastBackup d appId backupDatetime isFullBackup).

(** The statements of a backup before it records the time of the backup
    for the app. *)
Definition run_statement (appId : string) (backupId : Z) (d d' : Database.db) : Prop :=
  (∃ updateData, d' = Database.updateBackup d backupId updateData)
  ∨ (∃ recordId updatedTime,
       d' = Database.upsertRecordIndex d appId recordId updatedTime backupId).

(** The names a run gives its files: the time in the name of the
    archive, which is also the directory of the attachments of a record,
    and the name of the archive. *)
Definition run_timestamp (E : env) : string :=
  archive_timestamp (now_iso E AtArchiveName).

Definition archive_name (E : env) (appId backupType : string) : string :=
  String.append "app_"
    (String.append appId
       (String.append "_"
          (String.append (run_timestamp E)
             (String.append "_" (String.append backupType ".zip"))))).

(** The files of a backup: its archive, and attachments at the paths
    that [path.join] makes of the directory of the attachments, the app,
    a record id, the time of the run and a file name. *)
Definition backup_footprint (E : env) (C : config) (appId backupType : string)
    (backupId : Z) : footprint :=
  {| may_call := backup_call C appId;
     may_store := backup_statement appId backupId;
     may_archive := fun p => p = path_join (archivesDir C) (archive_name E appId backupType);
     may_attach := fun p =>
       ∃ recordId name,
         p = path_join_all [attachmentsDir C; appId; recordId; run_timestamp E; name] |}.

Definition run_footprint (E : env) (C : config) (appId backupType : string)
    (backupId : Z) : footprint :=
  {| may_call := backup_call C appId;
     may_store := run_statement appId backupId;
     may_archive := may_archive (backup_footprint E C appId backupType backupId);
     may_attach := may_attach (backup_footprint E C appId backupType backupId) |}.

(** The calls of a restore into [appId]: the look-up of the live records,
    the two kinds of writes, and the record added to the audit app. *)
Definition restore_call (C : config) (appId : string) (c : call) : Prop :=
  match c with
  | GetFormFields a | GetRecords a _ _ | AddRecords a _ | UpdateRecords a _ => a = appId
  | AddRecord a _ => backupAppId C = Some a
  | GetApp _ | GetAllRecords _ | DownloadFile _ => False
  end.

Definition restore_footprint (C : config) (appId : string) : footprint :=
  {| may_call := restore_call C appId;
     may_store := fun _ _ => False;
     may_archive := fun _ => False;
     may_attach := fun _ => False |}.

(** The calls of the look-up of live records in [appId]. *)
Definition lookup_call (appId : string) (c : call) : Prop :=
  match c with
  | GetFormFields a | GetRecords a _ _ => a = appId
  | _ => False
  end.

Definition lookup_footprint (appId : string) : footprint :=
  {| may_call := lookup_call appId;
     may_store := fun _ _ => False;
     may_archive := fun _ => False;
     may_attach := fun _ => False |}.

(** A computation that does not throw. *)
Definition returns {A} (m : M A) : Prop := ∀ w, ∃ a, (m w).2 = Ok a.

(** An entry of the results of a scheduled backup that is about [app]. *)
Definition result_of (app : Database.app_view) (r : scheduled_result) : Prop :=
  match r with
  | Backed_up res => r_appId res = Database.v_app_id app ∧ r_success res = true
  | Not_backed_up appId appName _ =>
      appId = Database.v_app_id app ∧ appName = Database.v_app_name app
  end.

(** The test a field passes to be kept by [cleanRecordForRestore]. *)
Definition keeps (entry : string * Js.json) : bool :=
  negb (bool_decide (entry.1 ∈ SYSTEM_FIELDS)) && negb (has_readonly_type (entry.2)).

(** A text of ASCII characters, and a value whose texts and property
    names are such texts. *)
Fixpoint ascii_text (s : string) : bool :=
  match s with
  | EmptyString => true
  | String c s' => Js.byte_in 0 127 c && ascii_text s'
  end.

Fixpoint ascii_value (v : Js.json) : bool :=
  match v with
  | Js.JStr s => ascii_text s
  | Js.JArr items => forallb ascii_value items
  | Js.JObj members => forallb (fun m => ascii_text (fst m) && ascii_value (snd m)) members
  | _ => true
  end.

End Runs.

(** * Properties *)

(** ** The retry policy *)

Module RetryPolicy.
Import Effects KintoneClient.

Local Open Scope Q_scope.

Lemma baseDelay_unfold (n : Z) :
  baseDelay n = Qmin (1000 * Qpower 2 (n - 1)) 32000.
Proof. reflexivity. Qed.

(** From the first attempt on, the uncapped delay is the integer
    [1000 * 2^(n-1)]. *)
Lemma uncapped_integer (n : Z) :
  (1 <= n)%Z -> 1000 * Qpower 2 (n - 1) == inject_Z (1000 * 2 ^ (n - 1)).
Proof.
  intros Hn.
  rewrite inject_Z_mult.
  rewrite (Zpower_Qpower 2 (n - 1)) by lia.
  reflexivity.
Qed.

Lemma uncapped_mono (n m : Z) :
  (1 <= n)%Z -> (n <= m)%Z ->
  1000 * Qpower 2 (n - 1) <= 1000 * Qpower 2 (m - 1).
Proof.
  intros Hn Hnm.
  rewrite !uncapped_integer by lia.
  rewrite <- Zle_Qle.
  apply Z.mul_le_mono_nonneg_l; [lia |].
  apply Z.pow_le_mono_r; lia.
Qed.

Lemma baseDelay_mono (n m : Z) :
  (1 <= n)%Z -> (n <= m)%Z -> baseDelay n <= baseDelay m.
Proof.
  intros Hn Hnm. rewrite !baseDelay_unfold.
  apply Q.min_le_compat_r.
  now apply uncapped_mono.
Qed.

Lemma baseDelay_capped (n : Z) : baseDelay n <= maxDelay RETRY_CONFIG.
Proof. rewrite baseDelay_unfold. apply Q.le_min_r. Qed.

Lemma baseDelay_nonneg (n : Z) : (1 <= n)%Z -> 0 <= baseDelay n.
Proof.
  intros Hn. rewrite baseDelay_unfold.
  apply Q.min_glb; [| discriminate].
  rewrite uncapped_integer by lia.
  replace 0 with (inject_Z 0) by reflexivity.
  rewrite <- Zle_Qle.
  apply Z.mul_nonneg_nonneg; [lia |].
  apply Z.pow_nonneg; lia.
Qed.

(** Once the cap is reached the delay stays there. *)
Lemma baseDelay_at_cap (n : Z) : (6 <= n)%Z -> baseDelay n == maxDelay RETRY_CONFIG.
Proof.
  intros Hn. rewrite baseDelay_unfold.
  apply Q.min_r.
  rewrite uncapped_integer by lia.
  replace (maxDelay RETRY_CONFIG) with (inject_Z 32000) by reflexivity.
  rewrite <- Zle_Qle.
  assert (2 ^ 5 <= 2 ^ (n - 1))%Z by (apply Z.pow_le_mono_r; lia).
  change (2 ^ 5)%Z with 32%Z in *. lia.
Qed.

Lemma jitter_bounds (d random : Q) :
  0 <= d -> 0 <= random -> random < 1 ->
  (8 # 10) * d <= d + d * (2 # 10) * (random * 2 - 1)
  /\ d + d * (2 # 10) * (random * 2 - 1) <= (12 # 10) * d.
Proof. intros Hd H0 H1. split; nra. Qed.

(** C10: from the first retry on, the base delay does not decrease with
    the attempt number and never exceeds the configured cap, and for every
    jitter draw in [0, 1) the delay returned by [retryDelay] lies between
    80% and 120% of the base delay. *)
Theorem retry_backoff_monotone_within_jitter (n m : Z) (random : Q) :
  (1 <= n)%Z -> (n <= m)%Z -> 0 <= random -> random < 1 ->
  baseDelay n <= baseDelay m
  /\ baseDelay m <= maxDelay RETRY_CONFIG
  /\ (8 # 10) * baseDelay n <= retryDelay n random
  /\ retryDelay n random <= (12 # 10) * baseDelay n.
Proof.
  intros Hn Hnm H0 H1.
  split; [now apply baseDelay_mono |].
  split; [apply baseDelay_capped |].
  unfold retryDelay.
  apply jitter_bounds; auto using baseDelay_nonneg.
Qed.

Lemma retry_backoff_witness :
  baseDelay 1 <= baseDelay 5
  /\ baseDelay 5 <= maxDelay RETRY_CONFIG
  /\ (8 # 10) * baseDelay 1 <= retryDelay 1 (1 # 2)
  /\ retryDelay 1 (1 # 2) <= (12 # 10) * baseDelay 1.
Proof.
  apply (retry_backoff_monotone_within_jitter 1 5 (1 # 2)).
  - lia.
  - lia.
  - unfold Qle. simpl. lia.
  - unfold Qlt. simpl. lia.
Defined.

(** The base delays of the five retries the configuration allows. *)
Example baseDelay_values :
  map baseDelay [1; 2; 3; 4; 5; 6; 7]%Z = [1000; 2000; 4000; 8000; 16000; 32000; 32000].
Proof. vm_compute. reflexivity. Qed.

(** The retry condition answers a 429 the same with or without the header. *)
Lemma wait_ignores_header (c : counters) (done : Z) (h : option string) (net : bool)
    (random : Q) :
  wait_before_retry c done
    {| error_response := Some {| status := 429; retry_after := h |};
       isNetworkOrIdempotentRequestError := net |} random
  = wait_before_retry c done
      {| error_response := Some {| status := 429; retry_after := None |};
         isNetworkOrIdempotentRequestError := net |} random.
Proof.
  unfold wait_before_retry, retryCondition. simpl.
  destruct (done <? 5)%Z; [| reflexivity].
  destruct (header_truthy h); simpl; [| reflexivity].
  rewrite orb_true_r. reflexivity.
Qed.

(** C5 (the code at a rate-limit response with a hint): a 429 response
    with [retry-after: 60] asks for a wait of 60000 ms; the delay waited
    before the first retry is the back-off delay of attempt 1 (1000 ms at
    the middle jitter draw, and the same as without the header). *)
Theorem rate_limit_hint_not_waited :
  hinted_wait rate_limited_60 = Some 60000%Z
  /\ (forall c random,
        snd (wait_before_retry c 0 rate_limited_60 random) = Some (retryDelay 1 random))
  /\ retryDelay 1 (1 # 2) == 1000
  /\ (forall c done random,
        wait_before_retry c done rate_limited_60 random
        = wait_before_retry c done rate_limited_plain random).
Proof.
  split; [reflexivity |].
  split; [intros c random; reflexivity |].
  split; [vm_compute; reflexivity |].
  intros c done random. apply wait_ignores_header.
Qed.

(** A call that keeps being rate limited: five retries are made, after
    the back-off delays of attempts 1 to 5 (here at the middle draw), and
    the sixth failure is surfaced; the hint of 60 s is never waited. *)
Example rate_limited_call_runs_out :
  run_request {| apiRequestCount := 1; retryCount := 0 |} 0
    (repeat (Some rate_limited_60) 6) (repeat (1 # 2) 6)
  = ({| apiRequestCount := 1; retryCount := 5 |},
     [retryDelay 1 (1 # 2); retryDelay 2 (1 # 2); retryDelay 3 (1 # 2);
      retryDelay 4 (1 # 2); retryDelay 5 (1 # 2)],
     false)
  ∧ Forall2 Qeq
      [retryDelay 1 (1 # 2); retryDelay 2 (1 # 2); retryDelay 3 (1 # 2);
       retryDelay 4 (1 # 2); retryDelay 5 (1 # 2)]
      [1000; 2000; 4000; 8000; 16000].
Proof.
  split; [reflexivity |].
  repeat constructor; vm_compute; reflexivity.
Qed.

End RetryPolicy.

(** ** The metadata store *)

Module StoreProps.
Import Database.

(** C8: after [deleteBackup(id)] no record marker refers to the run, the
    run row is gone, the markers of other runs and the other run rows are
    as before (and no marker appears), and the table of apps, which holds
    the differential baselines, is unchanged. *)
Theorem deleteBackup_cascade (d : db) (backupId : Z) :
  (∀ k m, record_index (deleteBackup d backupId) !! k = Some m →
          last_backup_id m ≠ Some backupId)
  ∧ backups (deleteBackup d backupId) !! backupId = None
  ∧ (∀ k m, last_backup_id m ≠ Some backupId →
            (record_index (deleteBackup d backupId) !! k = Some m
             ↔ record_index d !! k = Some m))
  ∧ (∀ j, j ≠ backupId → backups (deleteBackup d backupId) !! j = backups d !! j)
  ∧ apps (deleteBackup d backupId) = apps d
  ∧ (∀ appId, getLastBackupDatetime (deleteBackup d backupId) appId
              = getLastBackupDatetime d appId).
Proof.
  unfold deleteBackup. simpl.
  split; [| split; [| split; [| split; [| split]]]].
  - intros k m H. apply map_lookup_filter_Some in H. simpl in H. tauto.
  - apply lookup_delete_eq.
  - intros k m Hm. rewrite map_lookup_filter_Some. simpl. tauto.
  - intros j Hj. now apply lookup_delete_ne.
  - reflexivity.
  - intros appId. reflexivity.
Qed.

(** What a run of the two statements can leave behind. *)
Lemma deleteBackup_run_cases (backupId : Z) (fault : option nat) (d : db) :
  deleteBackup_run backupId fault d = (d, Thrown)
  ∨ deleteBackup_run backupId fault d = (delete_index_stmt backupId d, Thrown)
  ∨ deleteBackup_run backupId fault d = (deleteBackup d backupId, Completed).
Proof.
  unfold deleteBackup_run, deleteBackup.
  destruct fault as [[| [| n]] |]; simpl; auto.
Qed.

(** C9 as stated fails: when the second statement throws, the marker of
    the run is gone while the run row is still there; the store is neither
    the one before nor the one after a complete deletion. *)
Lemma deleteBackup_not_atomic :
  let after := fst (deleteBackup_run 1 (Some 1%nat) Samples.sample_db) in
  snd (deleteBackup_run 1 (Some 1%nat) Samples.sample_db) = Thrown
  ∧ record_index after !! ("10", "1") = None
  ∧ record_index Samples.sample_db !! ("10", "1") = Some Samples.marker_of_run
  ∧ backups after !! 1 = Some Samples.finished_run
  ∧ backups (deleteBackup Samples.sample_db 1) !! 1 = None
  ∧ after ≠ Samples.sample_db
  ∧ after ≠ deleteBackup Samples.sample_db 1.
Proof.
  cbv zeta.
  assert (H0 : snd (deleteBackup_run 1 (Some 1%nat) Samples.sample_db) = Thrown)
    by reflexivity.
  assert (H1 : record_index (fst (deleteBackup_run 1 (Some 1%nat) Samples.sample_db))
               !! ("10", "1") = None) by (vm_compute; reflexivity).
  assert (H2 : record_index Samples.sample_db !! ("10", "1") = Some Samples.marker_of_run)
    by (vm_compute; reflexivity).
  assert (H3 : backups (fst (deleteBackup_run 1 (Some 1%nat) Samples.sample_db)) !! 1
               = Some Samples.finished_run) by (vm_compute; reflexivity).
  assert (H4 : backups (deleteBackup Samples.sample_db 1) !! 1 = None)
    by apply lookup_delete_eq.
  split; [exact H0 |].
  split; [exact H1 |].
  split; [exact H2 |].
  split; [exact H3 |].
  split; [exact H4 |].
  split.
  - intros H. rewrite H in H1. congruence.
  - intros H. rewrite H in H3. congruence.
Qed.

(** C9, amended: the statements of [deleteBackup] commit one by one.  A
    run ends with all effects (no statement fails), with none (the first
    fails), or with the markers of the run removed and the run row kept
    (the second fails).  The same sequence run through [transaction] is
    atomic: all effects when it completes, none when it throws. *)
Theorem deleteBackup_statementwise (backupId : Z) (fault : option nat) (d : db) :
  (deleteBackup_run backupId fault d = (deleteBackup d backupId, Completed)
   ∨ deleteBackup_run backupId fault d = (d, Thrown)
   ∨ deleteBackup_run backupId fault d = (delete_index_stmt backupId d, Thrown))
  ∧ (transaction (deleteBackup_run backupId fault) d = (deleteBackup d backupId, Completed)
     ∨ transaction (deleteBackup_run backupId fault) d = (d, Thrown))
  ∧ deleteBackup_run backupId None d = (deleteBackup d backupId, Completed)
  ∧ deleteBackup_run backupId (Some 0%nat) d = (d, Thrown)
  ∧ deleteBackup_run backupId (Some 1%nat) d = (delete_index_stmt backupId d, Thrown).
Proof.
  split; [| split; [| repeat split]].
  - destruct (deleteBackup_run_cases backupId fault d) as [H | [H | H]]; auto.
  - unfold transaction.
    destruct (deleteBackup_run_cases backupId fault d) as [H | [H | H]];
      rewrite H; auto.
Qed.

End StoreProps.

(** ** Backup runs *)

Module BackupProps.
Import Effects Js BackupManager Runs.

Local Open Scope list_scope.

Lemma bind_run {A B} (m : M A) (f : A → M B) (w : world) :
  (m ≫= f) w
  = match m w with
    | (w', Ok a) => f a w'
    | (w', Throw e) => (w', Throw e)
    end.
Proof. reflexivity. Qed.

(** *** Computations that keep a relation between worlds *)

Section Frames.
Context (R : world → world → Prop) {R_refl : Reflexive R} {R_trans : Transitive R}.


Lemma respects_ret {A} (a : A) : respects R (mret a).
Proof. intros w. apply R_refl. Qed.

Lemma respects_throw {A} (e : error) : respects R (@throw A e).
Proof. intros w. apply R_refl. Qed.

Lemma respects_lift {A} (r : result A) : respects R (lift r).
Proof. intros w. apply R_refl. Qed.

Lemma respects_bind {A B} (m : M A) (f : A → M B) :
  respects R m → (∀ a, respects R (f a)) → respects R (m ≫= f).
Proof.
  intros Hm Hf w. rewrite bind_run.
  specialize (Hm w). destruct (m w) as [w1 [a | e]]; simpl in *.
  - apply R_trans with w1; [assumption | apply Hf].
  - assumption.
Qed.

Lemma respects_try_catch {A} (body : M A) (handler : error → M A) :
  respects R body → (∀ e, respects R (handler e)) → respects R (try_catch body handler).
Proof.
  intros Hb Hh w. unfold try_catch.
  specialize (Hb w). destruct (body w) as [w1 [a | e]]; simpl in *.
  - assumption.
  - apply R_trans with w1; [assumption | apply Hh].
Qed.

Lemma respects_for_each {A} (l : list A) (body : A → M unit) :
  (∀ x, respects R (body x)) → respects R (for_each l body).
Proof.
  intros Hb. induction l as [| x l IH]; simpl.
  - apply respects_ret.
  - apply respects_bind; [apply Hb | intros _; apply IH].
Qed.

Lemma respects_run {A} (m : M A) (w w' : world) (r : result A) :
  respects R m → m w = (w', r) → R w w'.
Proof. intros Hm H. specialize (Hm w). now rewrite H in Hm. Qed.

End Frames.


#[local] Instance same_run_refl id : Reflexive (same_run id).
Proof. intros w. reflexivity. Qed.

#[local] Instance same_run_trans id : Transitive (same_run id).
Proof. intros a b c H1 H2. unfold same_run in *. congruence. Qed.

#[local] Instance same_files_refl : Reflexive same_files.
Proof. intros w. repeat split. Qed.

#[local] Instance same_files_trans : Transitive same_files.
Proof.
  intros a b c (H1 & H2 & H3) (H4 & H5 & H6). unfold same_files. repeat split; congruence.
Qed.

#[local] Instance quiet_refl id : Reflexive (quiet id).
Proof. intros w. split; reflexivity. Qed.

#[local] Instance quiet_trans id : Transitive (quiet id).
Proof. intros a b c [H1 H2] [H3 H4]. split; etransitivity; eassumption. Qed.

Ltac rbind :=
  match goal with |- respects ?R _ => apply (respects_bind R) end.
Ltac rtry :=
  match goal with |- respects ?R _ => apply (respects_try_catch R) end.
Ltac rret :=
  match goal with |- respects ?R _ => apply (respects_ret R) end.
Ltac rthrow :=
  match goal with |- respects ?R _ => apply (respects_throw R) end.
Ltac rlift :=
  match goal with |- respects ?R _ => apply (respects_lift R) end.
Ltac reach :=
  match goal with |- respects ?R _ => apply (respects_for_each R) end.

Section Steps.
Context (E : env) (C : config) (backupId : Z).

Lemma count_request_quiet (n : Z) : respects (quiet backupId) (KintoneClient.count_request n).
Proof. intros w. repeat split. Qed.

Lemma send_quiet {A} (c : call) (answer : nat → reply A) :
  is_download c = false → respects (quiet backupId) (KintoneClient.send c answer).
Proof.
  intros Hc w. unfold KintoneClient.send.
  destruct (answer (length (trace w))) as [retries r]. simpl.
  repeat split. simpl.
  rewrite List.filter_app. simpl. rewrite Hc. apply app_nil_r.
Qed.

Lemma send_same_run {A} (c : call) (answer : nat → reply A) :
  respects (same_run backupId) (KintoneClient.send c answer).
Proof.
  intros w. unfold KintoneClient.send.
  destruct (answer (length (trace w))) as [retries r]. reflexivity.
Qed.

Lemma count_request_same_run (n : Z) :
  respects (same_run backupId) (KintoneClient.count_request n).
Proof. intros w. reflexivity. Qed.

Lemma getApp_quiet (appId : string) : respects (quiet backupId) (KintoneClient.getApp E appId).
Proof.
  rbind; [apply count_request_quiet |].
  intros _. now apply send_quiet.
Qed.

Lemma getFormFields_quiet (appId : string) :
  respects (quiet backupId) (KintoneClient.getFormFields E appId).
Proof.
  rbind; [apply count_request_quiet |].
  intros _. now apply send_quiet.
Qed.

Lemma getAllRecords_quiet (appId : string) fields condition :
  respects (quiet backupId) (KintoneClient.getAllRecords E appId fields condition).
Proof.
  rbind; [apply count_request_quiet |]. intros _.
  rbind; [now apply send_quiet |]. intros records.
  rbind; [apply count_request_quiet |]. intros _.
  rret.
Qed.

Lemma get_store_quiet : respects (quiet backupId) get_store.
Proof. intros w. reflexivity. Qed.

Lemma getStats_quiet : respects (quiet backupId) KintoneClient.getStats.
Proof. intros w. reflexivity. Qed.

Lemma fetchRecords_quiet (appId backupType : string) :
  respects (quiet backupId) (fetchRecords E appId backupType).
Proof.
  unfold fetchRecords.
  destruct (String.eqb backupType "differential").
  - rbind; [apply get_store_quiet |]. intros d.
    destruct (Database.getLastBackupDatetime d appId) as [[[last |] ?] |].
    + destruct (negb (String.eqb last "")).
      * rbind; [apply getAllRecords_quiet |]. intros ?. rret.
      * rbind; [apply getAllRecords_quiet |]. intros ?. rret.
    + rbind; [apply getAllRecords_quiet |]. intros ?. rret.
    + rbind; [apply getAllRecords_quiet |]. intros ?. rret.
  - rbind; [apply getAllRecords_quiet |]. intros ?. rret.
Qed.

Lemma logToKintoneBackupApp_quiet (logData : audit_entry) :
  respects (quiet backupId) (logToKintoneBackupApp E C logData).
Proof.
  unfold logToKintoneBackupApp.
  rtry; [| intros ?; rret].
  destruct (backupAppId C) as [app |]; [| rret].
  destruct (String.eqb app ""); [rret |].
  rbind; [| intros ?; rret].
  unfold KintoneClient.logToBackupApp.
  rtry; [| intros ?; rret].
  rbind; [apply count_request_quiet |]. intros _.
  rbind; [now apply send_quiet |]. intros ?. rret.
Qed.

(** The audit call is never the reason for a throw. *)
Lemma logToKintoneBackupApp_total (logData : audit_entry) (w : world) :
  (logToKintoneBackupApp E C logData w).2 = Ok tt.
Proof.
  unfold logToKintoneBackupApp, try_catch.
  match goal with |- context [match ?x with _ => _ end] => destruct x as [w1 [[] | e]] end;
    reflexivity.
Qed.

(** The steps of a non-empty backup before its closing update. *)
Lemma quiet_same_run {A} (m : M A) : respects (quiet backupId) m → respects (same_run backupId) m.
Proof. intros H w. apply H. Qed.

Lemma createBackupZip_same_run appId records zipFilePath :
  respects (same_run backupId) (createBackupZip E appId records zipFilePath).
Proof.
  unfold createBackupZip.
  rbind.
  - rtry; [| intros ?; rret].
    rbind; [apply quiet_same_run, getFormFields_quiet |].
    intros ?. rret.
  - intros fp. destruct (archive_stream E zipFilePath); intros w; reflexivity.
Qed.

Lemma downloadFile_same_run fileKey :
  respects (same_run backupId) (KintoneClient.downloadFile E fileKey).
Proof.
  rbind; [apply count_request_same_run |]. intros _. apply send_same_run.
Qed.

Lemma download_one_same_run appId recordId timestamp file :
  respects (same_run backupId) (download_one E C appId recordId timestamp file).
Proof.
  unfold download_one.
  rtry; [| intros ?; rret].
  rbind; [rlift |]. intros ?.
  rbind; [apply downloadFile_same_run |]. intros ?.
  rbind; [rlift |]. intros ?.
  rbind; [rlift |]. intros ?.
  rbind; [rlift |]. intros ?.
  intros w. reflexivity.
Qed.

Lemma download_field_same_run appId recordId timestamp record fieldCode :
  respects (same_run backupId) (download_field E C appId recordId timestamp record fieldCode).
Proof.
  unfold download_field.
  destruct (Js.prop record fieldCode) as [field |]; [| rret].
  destruct (Js.truthy field); [| rret].
  destruct (Js.prop field "value") as [[ | | | | |] |];
    try rret; try rthrow;
    try (reach; intros ?; apply download_one_same_run).
  - destruct (Js.truthy _); [rthrow | rret].
  - destruct (Js.truthy _); [rthrow | rret].
Qed.

Lemma downloadAttachments_same_run appId records timestamp :
  respects (same_run backupId) (downloadAttachments E C appId records timestamp).
Proof.
  unfold downloadAttachments.
  rbind; [rlift |]. intros fields.
  destruct fields; [rret |].
  reach. intros record.
  rbind; [rlift |]. intros ?.
  rbind; [rlift |]. intros ?.
  reach. intros ?. apply download_field_same_run.
Qed.

Lemma stat_size_same_run zipFilePath :
  respects (same_run backupId) (stat_size E zipFilePath).
Proof. intros w. unfold stat_size. destruct (archives w !! zipFilePath); reflexivity. Qed.

Lemma index_record_same_run appId startTime record :
  respects (same_run backupId) (index_record appId startTime backupId record).
Proof.
  unfold index_record.
  repeat (rbind; [rlift |]; intros ?).
  intros w. reflexivity.
Qed.

End Steps.

(** *** The run row of a backup *)

Section RunRow.
Context (E : env) (C : config) (backupId : Z).


Lemma on_store_run (f : Database.db → Database.db) (w : world) :
  on_store f w = (with_store w (f (store w)), Ok tt).
Proof. reflexivity. Qed.

Lemma getStats_run (w : world) : KintoneClient.getStats w = (w, Ok (stats w)).
Proof. reflexivity. Qed.

Lemma updateBackup_row (w : world) (us : list Database.assignment) (row : Database.backup_row) :
  run_row backupId w = Some row →
  run_row backupId (with_store w (Database.updateBackup (store w) backupId us))
  = Some (fold_left Database.assign us row).
Proof.
  unfold run_row. simpl. rewrite lookup_alter_eq. intros ->. reflexivity.
Qed.

Lemma run_row_frame (w w' : world) :
  same_run backupId w w' → run_row backupId w' = run_row backupId w.
Proof. intros H. exact H. Qed.

Lemma failed_closed (w0 w : world) (e : error) (row : Database.backup_row) :
  run_row backupId w = Some row → pending row →
  closed backupId w0 (backupApp_failed E backupId e w).1 (backupApp_failed E backupId e w).2.
Proof.
  intros Hrow [Hc Hf].
  unfold backupApp_failed.
  rewrite bind_run, getStats_run, bind_run, on_store_run.
  cbn [fst snd throw].
  eapply closed_failed.
  - apply updateBackup_row, Hrow.
  - simpl. exact Hc.
  - simpl. exact Hf.
  - reflexivity.
Qed.


Lemma body_spec (appId : string) (options : backup_options) (w : world)
    (row : Database.backup_row) :
  run_row backupId w = Some row → pending row →
  body_outcome backupId w (backupApp_body E C appId options backupId w).
Proof.
  intros Hrow Hpend.
  unfold backupApp_body. cbv zeta.
  (* getApp *)
  rewrite bind_run.
  destruct (KintoneClient.getApp E appId w) as [w1 [appName | e]] eqn:H1.
  2: { pose proof (respects_run _ _ _ _ _ (getApp_quiet E backupId appId) H1) as [F _].
       exists row. split; [| exact Hpend]. rewrite (run_row_frame _ _ F). exact Hrow. }
  pose proof (respects_run _ _ _ _ _ (getApp_quiet E backupId appId) H1) as [F1 G1].
  (* the name is stored *)
  rewrite bind_run, on_store_run.
  set (w2 := with_store w1 _).
  assert (Hrow2 : run_row backupId w2 = Some (Database.assign row (Database.Set_app_name appName))).
  { unfold w2. rewrite (updateBackup_row w1 _ row); [reflexivity |].
    rewrite (run_row_frame _ _ F1). exact Hrow. }
  assert (Hpend2 : pending (Database.assign row (Database.Set_app_name appName))).
  { destruct Hpend. split; assumption. }
  assert (G2 : same_files w w2).
  { destruct G1 as (? & ? & ?). repeat split; assumption. }
  clearbody w2. clear Hrow Hpend H1 F1 G1.
  set (row2 := Database.assign row (Database.Set_app_name appName)) in *. clearbody row2.
  (* the records are fetched *)
  rewrite bind_run.
  destruct (fetchRecords E appId (backupType options) w2)
    as [w3 [[records diffBase] | e]] eqn:H3.
  2: { pose proof (respects_run _ _ _ _ _ (fetchRecords_quiet E backupId appId _) H3) as [F _].
       exists row2. split; [| exact Hpend2]. rewrite (run_row_frame _ _ F). exact Hrow2. }
  pose proof (respects_run _ _ _ _ _ (fetchRecords_quiet E backupId appId _) H3) as [F3 G3].
  assert (Hrow3 : run_row backupId w3 = Some row2) by (rewrite (run_row_frame _ _ F3); exact Hrow2).
  assert (G3' : same_files w w3) by (etransitivity; eassumption).
  clear H3 F3 G3 Hrow2 G2.
  destruct records as [| r rs].
  - (* nothing to back up *)
    rewrite bind_run, getStats_run, bind_run, on_store_run.
    cbn [body_outcome mret M_ret].
    eapply closed_empty.
    + apply updateBackup_row, Hrow3.
    + reflexivity.
    + simpl. apply Hpend2.
    + reflexivity.
    + destruct G3' as (? & ? & ?). repeat split; assumption.
  - (* an archive is written *)
    set (records := r :: rs) in *.
    rewrite bind_run.
    match goal with |- context [createBackupZip E appId records ?p w3] =>
      destruct (createBackupZip E appId records p w3) as [w4 [originalSize | e]] eqn:H4;
      pose proof (respects_run _ _ _ _ _ (createBackupZip_same_run E backupId appId records p) H4)
        as F4
    end.
    2: { exists row2. split; [| exact Hpend2]. rewrite (run_row_frame _ _ F4). exact Hrow3. }
    assert (Hrow4 : run_row backupId w4 = Some row2) by (rewrite (run_row_frame _ _ F4); exact Hrow3).
    clear H4 F4 Hrow3.
    rewrite bind_run.
    match goal with |- context [downloadAttachments E C appId records ?t w4] =>
      destruct (downloadAttachments E C appId records t w4) as [w5 [[] | e]] eqn:H5;
      pose proof (respects_run _ _ _ _ _
                    (downloadAttachments_same_run E C backupId appId records t) H5) as F5
    end.
    2: { exists row2. split; [| exact Hpend2]. rewrite (run_row_frame _ _ F5). exact Hrow4. }
    assert (Hrow5 : run_row backupId w5 = Some row2) by (rewrite (run_row_frame _ _ F5); exact Hrow4).
    clear H5 F5 Hrow4.
    rewrite bind_run.
    match goal with |- context [stat_size E ?p w5] =>
      destruct (stat_size E p w5) as [w6 [compressedSize | e]] eqn:H6;
      pose proof (respects_run _ _ _ _ _ (stat_size_same_run E backupId p) H6) as F6
    end.
    2: { exists row2. split; [| exact Hpend2]. rewrite (run_row_frame _ _ F6). exact Hrow5. }
    assert (Hrow6 : run_row backupId w6 = Some row2) by (rewrite (run_row_frame _ _ F6); exact Hrow5).
    clear H6 F6 Hrow5.
    cbv zeta. rewrite bind_run.
    match goal with |- context [for_each records ?b w6] =>
      destruct (for_each records b w6) as [w7 [[] | e]] eqn:H7;
      pose proof (respects_run _ _ _ _ _
                    (respects_for_each (same_run backupId) records b
                       (index_record_same_run backupId appId _)) H7) as F7
    end.
    2: { exists row2. split; [| exact Hpend2]. rewrite (run_row_frame _ _ F7). exact Hrow6. }
    assert (Hrow7 : run_row backupId w7 = Some row2) by (rewrite (run_row_frame _ _ F7); exact Hrow6).
    clear H7 F7 Hrow6.
    rewrite bind_run, getStats_run, bind_run, on_store_run.
    set (w8 := with_store w7 _).
    rewrite bind_run, on_store_run.
    set (w9 := with_store w8 _).
    rewrite bind_run, getStats_run, bind_run.
    match goal with |- context [logToKintoneBackupApp E C ?entry w9] =>
      pose proof (logToKintoneBackupApp_total E C entry w9) as Hlog;
      pose proof (logToKintoneBackupApp_quiet E C backupId entry w9) as [Flog _];
      destruct (logToKintoneBackupApp E C entry w9) as [w10 rlog]
    end.
    simpl in Hlog, Flog. subst rlog.
    cbn [body_outcome mret M_ret].
    eapply closed_full with (n := Z.of_nat (length records)).
    + rewrite (run_row_frame _ _ Flog).
      change (run_row backupId w9) with (run_row backupId w8).
      unfold w8. apply updateBackup_row, Hrow7.
    + reflexivity.
    + unfold records. simpl. lia.
    + reflexivity.
    + reflexivity.
Qed.

Lemma try_closed (appId : string) (options : backup_options) (w : world)
    (row : Database.backup_row) :
  run_row backupId w = Some row → pending row →
  closed backupId w
    (try_catch (backupApp_body E C appId options backupId) (backupApp_failed E backupId) w).1
    (try_catch (backupApp_body E C appId options backupId) (backupApp_failed E backupId) w).2.
Proof.
  intros Hrow Hpend. unfold try_catch.
  pose proof (body_spec appId options w row Hrow Hpend) as Hb.
  destruct (backupApp_body E C appId options backupId w) as [w1 [res | e]]; simpl in Hb.
  - exact Hb.
  - destruct Hb as (row1 & Hrow1 & Hpend1). now apply failed_closed with row1.
Qed.

End RunRow.

Lemma running_row_pending (E : env) (appId : string) (options : backup_options) :
  pending (running_row E appId options).
Proof. split; reflexivity. Qed.

(** C4: the row of a run that [backupApp] has finished is closed as
    success or as failure; closed as success with a positive record
    count it names its archive; with record count 0 it names none, and
    then the run has written no archive and no attachment and downloaded
    no file. *)
Theorem backupApp_archive_reference (E : env) (C : config) (appId : string)
    (options : backup_options) (w : world) :
  let out := backupApp E C appId options w in
  ∃ row,
    Database.getBackupById (store out.1) (out.2).1 = Some row
    ∧ (Database.status row = Database.ST_SUCCESS
       ∨ Database.status row = Database.ST_FAILURE)
    ∧ (Database.status row = Database.ST_SUCCESS →
       ∀ n, Database.record_count row = Some n → 0 < n →
            ∃ f, Database.file_path row = Some f)
    ∧ (Database.record_count row = Some 0 →
       Database.file_path row = None ∧ same_files w out.1).
Proof.
  cbv zeta. unfold backupApp.
  destruct (Database.insertBackup (store w) (running_row E appId options))
    as [d backupId] eqn:Hins.
  set (w0 := with_store w d).
  assert (Hrow0 : run_row backupId w0 = Some (running_row E appId options)).
  { unfold Database.insertBackup in Hins. injection Hins as <- <-.
    unfold run_row, w0. simpl. apply lookup_insert_eq. }
  pose proof (try_closed E C backupId appId options w0 _ Hrow0
                (running_row_pending E appId options)) as Hclosed.
  unfold finally.
  destruct (try_catch (backupApp_body E C appId options backupId)
              (backupApp_failed E backupId) w0) as [w1 r].
  cbn [fst snd] in *.
  change (store (KintoneClient.resetCounters w1)) with (store w1).
  unfold Database.getBackupById. fold (run_row backupId w1).
  inversion Hclosed as [res row Hr Hc Hf Hs Hfiles | res row n f Hr Hc Hn Hf Hs
                        | e row Hr Hc Hf Hs]; subst; exists row.
  - split; [exact Hr |]. split; [now left |]. split.
    + intros _ n Hn Hpos. rewrite Hc in Hn. injection Hn as <-. lia.
    + intros _. split; [exact Hf |].
      destruct Hfiles as (? & ? & ?). repeat split; assumption.
  - split; [exact Hr |]. split; [now left |]. split.
    + intros _ m Hm Hpos. now exists f.
    + intros H0. rewrite Hc in H0. injection H0 as ->. lia.
  - split; [exact Hr |]. split; [now right |]. split.
    + intros _ n Hn. rewrite Hc in Hn. discriminate.
    + intros H0. rewrite Hc in H0. discriminate.
Qed.

(** *** The first differential backup *)

Lemma getAllRecords_trace (E : env) (appId : string) (w : world) :
  trace (KintoneClient.getAllRecords E appId None None w).1
  = trace w ++ [GetAllRecords (full_query appId)]
  ∧ (KintoneClient.getAllRecords E appId None None w).2
    = (on_getAllRecords (remote E) (length (trace w)) (full_query appId)).2.
Proof.
  cbv [KintoneClient.getAllRecords KintoneClient.nonempty_list
         KintoneClient.nonempty_text mbind M_bind KintoneClient.count_request
         KintoneClient.send mret M_ret].
  fold (full_query appId).
  cbn [trace with_trace with_stats stats].
  destruct (on_getAllRecords (remote E) (length (trace w)) (full_query appId))
    as [retries [records | e]]; split; reflexivity.
Qed.

(** C6: for an app without a recorded last backup time, the records step
    of a differential backup is the records step of a full backup: one
    call for all records of the app, without fields or condition, with
    the same effect on counters and trace, no baseline, and an error only
    when that call ends in one. *)
Theorem differential_without_baseline_fetches_all (E : env) (appId : string) (w : world) :
  last_backup_time (store w) appId = None →
  fetchRecords E appId "differential" w = fetchRecords E appId "full" w
  ∧ trace (fetchRecords E appId "differential" w).1
    = trace w ++ [GetAllRecords (full_query appId)]
  ∧ (fetchRecords E appId "differential" w).2
    = match (on_getAllRecords (remote E) (length (trace w)) (full_query appId)).2 with
      | Ok records => Ok (records, None)
      | Throw e => Throw e
      end.
Proof.
  intros Hnone.
  assert (Hfull : fetchRecords E appId "differential" w
                  = (records ← KintoneClient.getAllRecords E appId None None;
                     mret (records, None)) w).
  { unfold fetchRecords. cbn [String.eqb Ascii.eqb Bool.eqb].
    rewrite bind_run. cbn [get_store].
    unfold last_backup_time in Hnone.
    destruct (Database.getLastBackupDatetime (store w) appId) as [[last full] |];
      [| reflexivity].
    subst last. reflexivity. }
  split; [rewrite Hfull; reflexivity |].
  rewrite Hfull, bind_run.
  destruct (getAllRecords_trace E appId w) as [Ht Hr].
  destruct (KintoneClient.getAllRecords E appId None None w) as [w1 [records | e]];
    cbn [fst snd] in *; rewrite <- Hr; split; assumption || reflexivity.
Qed.

Lemma differential_without_baseline_witness :
  fetchRecords (Samples.env_where [] false false) "10" "differential" Samples.fresh_world
  = fetchRecords (Samples.env_where [] false false) "10" "full" Samples.fresh_world
  ∧ trace (fetchRecords (Samples.env_where [] false false) "10" "differential"
             Samples.fresh_world).1
    = trace Samples.fresh_world ++ [GetAllRecords (full_query "10")]
  ∧ (fetchRecords (Samples.env_where [] false false) "10" "differential"
       Samples.fresh_world).2
    = match (on_getAllRecords (remote (Samples.env_where [] false false))
               (length (trace Samples.fresh_world)) (full_query "10")).2 with
      | Ok records => Ok (records, None)
      | Throw e => Throw e
      end.
Proof.
  apply (differential_without_baseline_fetches_all (Samples.env_where [] false false)
           "10" Samples.fresh_world).
  vm_compute. reflexivity.
Defined.

(** A first full backup of one record: the run row, the archive and its
    manifest. *)
Example first_full_backup :
  let out := backupApp (Samples.env_where [] false false) Samples.sample_config "10"
               default_backup_options Samples.fresh_world in
  (out.2).1 = 1
  ∧ match Database.getBackupById (store out.1) 1 with
    | Some row =>
        Database.backup_type row = Database.KIND_FULL
        ∧ Database.record_count row = Some 1
        ∧ Database.file_path row = Some "app_10_2024-01-02_03-04-05_full.zip"
        ∧ Database.status row = Database.ST_SUCCESS
    | None => False
    end
  ∧ match archives out.1 !! "archives/app_10_2024-01-02_03-04-05_full.zip" with
    | Some [(name1, text1); (name2, text2)] =>
        name1 = "records.json"
        ∧ JSON_parse text1 = Some (JArr [Samples.customer "1" "山田"])
        ∧ name2 = "backup_metadata.json"
        ∧ JSON_parse text2
          = Some (JObj [("schemaVersion", JStr "1.0.0");
                        ("appId", JStr "10");
                        ("recordCount", JNum 1);
                        ("backupDate", JStr "2024-01-02T03:04:05.678Z");
                        ("version", JStr "1.0");
                        ("fieldProperties", JObj Samples.record_number_form)])
    | _ => False
    end.
Proof. vm_compute. repeat split. Qed.

End BackupProps.

(** ** JSON texts *)

Module JsonProps.
Import Js.

Local Infix "+++" := String.append (at level 60, right associativity).
Local Open Scope list_scope.

Lemma sapp_assoc (a b c : string) : (a +++ b) +++ c = a +++ (b +++ c).
Proof.
  induction a as [| x a IH]; [reflexivity |].
  change (String x ((a +++ b) +++ c) = String x (a +++ (b +++ c))).
  now f_equal.
Qed.

Lemma sapp_nil_r (a : string) : a +++ "" = a.
Proof.
  induction a as [| x a IH]; [reflexivity |].
  change (String x (a +++ "") = String x a). now f_equal.
Qed.

Lemma length_sapp (a b : string) :
  String.length (a +++ b) = (String.length a + String.length b)%nat.
Proof.
  induction a as [| x a IH]; [reflexivity |].
  change (S (String.length (a +++ b)) = S (String.length a + String.length b)).
  now f_equal.
Qed.

(** *** String literals *)

(** Reading back the text of one quoted character. *)
Lemma parse_quote_char (c : ascii) (fuel : nat) (r : string) :
  parse_string (S fuel) (quote_char c +++ r)
  = '(t, rest) ← parse_string fuel r; Some (String c t, rest).
Proof.
  destruct c as [[] [] [] [] [] [] [] []]; reflexivity.
Qed.

Lemma length_quote_char (c : ascii) : (1 <= String.length (quote_char c))%nat.
Proof. destruct c as [[] [] [] [] [] [] [] []]; simpl; lia. Qed.

Lemma length_quote_body (s : string) :
  (String.length s <= String.length (quote_body s))%nat.
Proof.
  induction s as [| c s IH]; simpl; [lia |].
  rewrite length_sapp. pose proof (length_quote_char c). lia.
Qed.

Lemma parse_quote_body (s : string) (fuel : nat) (rest : string) :
  (String.length s < fuel)%nat →
  parse_string fuel (quote_body s +++ DQ +++ rest) = Some (s, rest).
Proof.
  revert fuel. induction s as [| c s IH]; intros fuel Hf.
  - destruct fuel; [simpl in Hf; lia | reflexivity].
  - destruct fuel as [| fuel]; [simpl in Hf; lia |].
    cbn [quote_body]. rewrite sapp_assoc, parse_quote_char.
    rewrite IH by (simpl in Hf; lia). reflexivity.
Qed.

(** *** Numbers *)

Lemma digit_char_spec (d : Z) :
  0 <= d < 10 →
  byte_in 48 57 (digit_char d) = true
  ∧ Z.of_nat (nat_of_ascii (digit_char d)) - 48 = d
  ∧ (digit_char d = "0"%char → d = 0).
Proof.
  intros Hd.
  assert (H : d = 0 ∨ d = 1 ∨ d = 2 ∨ d = 3 ∨ d = 4 ∨ d = 5 ∨ d = 6 ∨ d = 7
              ∨ d = 8 ∨ d = 9) by lia.
  repeat (destruct H as [-> | H]); try subst d;
    (split; [reflexivity | split; [reflexivity | try discriminate; reflexivity]]).
Qed.

Lemma digits_to_Z_app (a : Z) (d1 d2 : string) :
  digits_to_Z a (d1 +++ d2) = digits_to_Z (digits_to_Z a d1) d2.
Proof.
  revert a. induction d1 as [| c d1 IH]; intros a; [reflexivity |].
  change (digits_to_Z (10 * a + (Z.of_nat (nat_of_ascii c) - 48)) (d1 +++ d2)
          = digits_to_Z (digits_to_Z (10 * a + (Z.of_nat (nat_of_ascii c) - 48)) d1) d2).
  apply IH.
Qed.

Lemma all_digits_app (d1 d2 : string) :
  all_digits (d1 +++ d2) = all_digits d1 && all_digits d2.
Proof.
  induction d1 as [| c d1 IH]; [reflexivity |].
  change (byte_in 48 57 c && all_digits (d1 +++ d2)
          = byte_in 48 57 c && all_digits d1 && all_digits d2).
  rewrite IH. apply andb_assoc.
Qed.

(** The decimal text [pos_digits] puts in front of its accumulator. *)
Lemma pos_digits_spec (fuel : nat) (n : Z) (acc : string) :
  0 <= n < 2 ^ Z.of_nat fuel → (0 < fuel)%nat →
  ∃ c d,
    pos_digits fuel n acc = String c d +++ acc
    ∧ all_digits (String c d) = true
    ∧ digits_to_Z 0 (String c d) = n
    ∧ (c = "0"%char → d = EmptyString).
Proof.
  revert n acc. induction fuel as [| fuel IH]; intros n acc Hn Hf; [lia |].
  cbn [pos_digits].
  destruct (Z.ltb_spec n 10) as [Hlt | Hge].
  - destruct (digit_char_spec (n mod 10)) as (Hd & Hv & _);
      [apply Z.mod_pos_bound; lia |].
    exists (digit_char (n mod 10)), EmptyString.
    split; [reflexivity |]. split; [| split; [| reflexivity]].
    + cbn [all_digits]. rewrite Hd. reflexivity.
    + cbn [digits_to_Z]. rewrite Hv. rewrite Z.mod_small by lia. lia.
  - assert (Hpow : 2 ^ Z.of_nat (S fuel) = 2 * 2 ^ Z.of_nat fuel).
    { rewrite Nat2Z.inj_succ, Z.pow_succ_r by lia. reflexivity. }
    assert (Hfuel : (0 < fuel)%nat).
    { destruct fuel; [| lia]. simpl in Hn. lia. }
    assert (Hdiv : 0 <= n / 10 < 2 ^ Z.of_nat fuel).
    { split; [apply Z.div_pos; lia |]. apply Z.div_lt_upper_bound; lia. }
    destruct (IH (n / 10) (String (digit_char (n mod 10)) acc) Hdiv Hfuel)
      as (c & d & Heq & Hall & Hval & Hzero).
    destruct (digit_char_spec (n mod 10)) as (Hd & Hv & _);
      [apply Z.mod_pos_bound; lia |].
    exists c, (d +++ String (digit_char (n mod 10)) EmptyString).
    split; [| split; [| split]].
    + rewrite Heq.
      change (String c d +++ String (digit_char (n mod 10)) acc)
        with (String c (d +++ String (digit_char (n mod 10)) acc)).
      change (String c (d +++ String (digit_char (n mod 10)) "") +++ acc)
        with (String c ((d +++ String (digit_char (n mod 10)) "") +++ acc)).
      rewrite sapp_assoc. reflexivity.
    + change (String c (d +++ String (digit_char (n mod 10)) ""))
        with (String c d +++ String (digit_char (n mod 10)) "").
      rewrite all_digits_app, Hall. cbn [all_digits]. rewrite Hd. reflexivity.
    + change (String c (d +++ String (digit_char (n mod 10)) ""))
        with (String c d +++ String (digit_char (n mod 10)) "").
      rewrite digits_to_Z_app, Hval. cbn [digits_to_Z]. rewrite Hv.
      pose proof (Z.div_mod n 10). lia.
    + intros Hc. specialize (Hzero Hc). subst d c.
      cbn [digits_to_Z] in Hval. simpl in Hval.
      assert (1 <= n / 10) by (apply Z.div_le_lower_bound; lia).
      change (Z.of_nat (nat_of_ascii "0")) with 48 in Hval. lia.
Qed.

Lemma take_digits_app (d rest : string) :
  all_digits d = true →
  match rest with
  | EmptyString => True
  | String c _ => byte_in 48 57 c = false
  end →
  take_digits (d +++ rest) = (d, rest).
Proof.
  intros Hd Hrest. induction d as [| c d IH].
  - destruct rest as [| c r]; [reflexivity |].
    change (EmptyString +++ String c r) with (String c r).
    cbn [take_digits]. rewrite Hrest. reflexivity.
  - cbn [all_digits] in Hd. apply andb_true_iff in Hd as [Hc Hd].
    change (take_digits (String c (d +++ rest)) = (String c d, rest)).
    cbn [take_digits]. rewrite Hc, (IH Hd). reflexivity.
Qed.

Lemma delimited_no_digit (rest : string) :
  delimited rest = true →
  match rest with
  | EmptyString => True
  | String c _ => byte_in 48 57 c = false
  end
  ∧ starts_fraction rest = false.
Proof.
  destruct rest as [| c r]; [intros _; split; [exact I | reflexivity] |].
  unfold delimited, starts_fraction, byte_in.
  intros H. apply orb_true_iff in H as [H | H]; apply Nat.eqb_eq in H; rewrite H;
    split; reflexivity.
Qed.

Lemma parse_digits (c : ascii) (d rest : string) :
  all_digits (String c d) = true →
  (c = "0"%char → d = EmptyString) →
  delimited rest = true →
  parse_number (String c d +++ rest) = Some (digits_to_Z 0 (String c d), rest).
Proof.
  intros Hall Hzero Hrest.
  destruct (delimited_no_digit rest Hrest) as [Hnd Hnf].
  cbn [all_digits] in Hall. apply andb_true_iff in Hall as [Hc Hd].
  pose proof (take_digits_app d rest Hd Hnd) as Htake.
  change (String c d +++ rest) with (String c (d +++ rest)).
  unfold parse_number.
  destruct c as [[] [] [] [] [] [] [] []]; try discriminate Hc;
    cbn [take_digits byte_in nat_of_ascii]; simpl; rewrite Htake;
    try (rewrite Hnf; reflexivity).
  rewrite (Hzero eq_refl) in *. rewrite Hnf. reflexivity.
Qed.

Lemma parse_negative (c : ascii) (d rest : string) :
  all_digits (String c d) = true →
  (c = "0"%char → d = EmptyString) →
  delimited rest = true →
  parse_number (String "-" (String c d) +++ rest)
  = Some (- digits_to_Z 0 (String c d), rest).
Proof.
  intros Hall Hzero Hrest.
  destruct (delimited_no_digit rest Hrest) as [Hnd Hnf].
  cbn [all_digits] in Hall. apply andb_true_iff in Hall as [Hc Hd].
  pose proof (take_digits_app d rest Hd Hnd) as Htake.
  change (String "-" (String c d) +++ rest) with (String "-" (String c (d +++ rest))).
  unfold parse_number.
  destruct c as [[] [] [] [] [] [] [] []]; try discriminate Hc;
    cbn [take_digits byte_in nat_of_ascii]; simpl; rewrite Htake;
    try (rewrite Hnf; reflexivity).
  rewrite (Hzero eq_refl) in *. rewrite Hnf. reflexivity.
Qed.

Lemma log2_fuel (n : Z) : 0 <= n → n < 2 ^ Z.of_nat (S (Z.to_nat (Z.log2 n))).
Proof.
  intros Hn. rewrite Nat2Z.inj_succ, Z2Nat.id by apply Z.log2_nonneg.
  destruct (Z.eq_dec n 0) as [-> | Hne]; [reflexivity |].
  apply Z.log2_spec. lia.
Qed.

(** The decimal text of an integer: a sign, and digits without a leading
    zero. *)
Lemma Z_to_string_spec (n : Z) :
  ∃ c d,
    all_digits (String c d) = true
    ∧ (c = "0"%char → d = EmptyString)
    ∧ ((0 <= n ∧ Z_to_string n = String c d ∧ digits_to_Z 0 (String c d) = n)
       ∨ (n < 0 ∧ Z_to_string n = String "-" (String c d)
          ∧ digits_to_Z 0 (String c d) = - n)).
Proof.
  unfold Z_to_string. destruct (Z.ltb_spec n 0) as [Hneg | Hpos].
  - destruct (pos_digits_spec (S (Z.to_nat (Z.log2 (- n)))) (- n) EmptyString)
      as (c & d & Heq & Hall & Hval & Hzero);
      [split; [lia | apply log2_fuel; lia] | lia |].
    exists c, d. split; [exact Hall |]. split; [exact Hzero |]. right.
    rewrite Heq, sapp_nil_r. auto.
  - destruct (pos_digits_spec (S (Z.to_nat (Z.log2 n))) n EmptyString)
      as (c & d & Heq & Hall & Hval & Hzero);
      [split; [lia | apply log2_fuel; lia] | lia |].
    exists c, d. split; [exact Hall |]. split; [exact Hzero |]. left.
    rewrite Heq, sapp_nil_r. auto.
Qed.

Lemma parse_number_Z_to_string (n : Z) (rest : string) :
  delimited rest = true →
  parse_number (Z_to_string n +++ rest) = Some (n, rest).
Proof.
  intros Hrest.
  destruct (Z_to_string_spec n) as (c & d & Hall & Hzero & [(Hn & -> & Hv) | (Hn & -> & Hv)]).
  - rewrite parse_digits by assumption. now rewrite Hv.
  - rewrite parse_negative by assumption. rewrite Hv. f_equal. f_equal. lia.
Qed.

(** *** Values *)

(** Induction over values, with the hypothesis for every item of an
    array and every member of an object. *)
Section Induction.
Variable P : json → Prop.
Hypothesis Hnull : P JNull.
Hypothesis Hbool : ∀ b, P (JBool b).
Hypothesis Hnum : ∀ n, P (JNum n).
Hypothesis Hstr : ∀ s, P (JStr s).
Hypothesis Harr : ∀ items, Forall P items → P (JArr items).
Hypothesis Hobj : ∀ members, Forall (fun m => P (snd m)) members → P (JObj members).

Fixpoint json_induction (v : json) : P v :=
  match v with
  | JNull => Hnull
  | JBool b => Hbool b
  | JNum n => Hnum n
  | JStr s => Hstr s
  | JArr items =>
      Harr items
        ((fix all (l : list json) : Forall P l :=
            match l with
            | [] => @List.Forall_nil _ P
            | x :: l' => @List.Forall_cons _ P x l' (json_induction x) (all l')
            end) items)
  | JObj members =>
      Hobj members
        ((fix all (l : list (string * json)) : Forall (fun m => P (snd m)) l :=
            match l with
            | [] => @List.Forall_nil _ (fun m => P (snd m))
            | m :: l' => @List.Forall_cons _ (fun m => P (snd m)) m l' (json_induction (snd m)) (all l')
            end) members)
  end.

End Induction.

Lemma skip_ws_blank (indent x : string) :
  blank indent = true → skip_ws (indent +++ x) = skip_ws x.
Proof.
  induction indent as [| c indent IH]; [reflexivity |].
  cbn [blank]. intros H. apply andb_true_iff in H as [Hc Hi].
  change (String c indent +++ x) with (String c (indent +++ x)).
  cbn [skip_ws]. unfold is_json_ws. rewrite Hc. cbn [orb]. now apply IH.
Qed.

Lemma skip_ws_newline (indent x : string) :
  blank indent = true → skip_ws (NL +++ indent +++ x) = skip_ws x.
Proof. intros H. change (skip_ws (indent +++ x) = skip_ws x). now apply skip_ws_blank. Qed.

Lemma blank_gap (indent : string) : blank indent = true → blank (indent +++ GAP) = true.
Proof.
  induction indent as [| c indent IH]; [reflexivity |].
  cbn [blank]. intros H. apply andb_true_iff in H as [Hc Hi].
  change (blank (String c (indent +++ GAP)) = true). cbn [blank].
  rewrite Hc, (IH Hi). reflexivity.
Qed.

Lemma skip_ws_idem (s : string) : skip_ws (skip_ws s) = skip_ws s.
Proof.
  induction s as [| c s IH]; [reflexivity |].
  cbn [skip_ws]. destruct (is_json_ws c) eqn:Hc; [exact IH |].
  cbn [skip_ws]. rewrite Hc. reflexivity.
Qed.

Lemma parse_value_skip (fuel : nat) (s : string) :
  parse_value fuel s = parse_value fuel (skip_ws s).
Proof.
  destruct fuel; [reflexivity |].
  cbn [parse_value]. rewrite skip_ws_idem. reflexivity.
Qed.

(** A text that starts a value: its first byte is no white space and no
    closing bracket. *)
Definition opens (text : string) : Prop :=
  ∃ c r, text = String c r
         ∧ is_json_ws c = false
         ∧ c ≠ "]"%char ∧ c ≠ "}"%char.

Lemma opens_skip (text : string) : opens text → skip_ws text = text.
Proof.
  intros (c & r & -> & Hws & _). cbn [skip_ws]. rewrite Hws. reflexivity.
Qed.

Lemma stringify_opens (indent : string) (v : json) (rest : string) :
  opens (stringify indent v +++ rest).
Proof.
  destruct v as [| [] | n | s | [| i items] | [| m members]];
    try (eexists _, _; split; [reflexivity | repeat split; discriminate]).
  destruct (Z_to_string_spec n)
    as (c & d & Hall & _ & [(_ & Heq & _) | (_ & Heq & _)]).
  - cbn [stringify]. rewrite Heq. exists c, (d +++ rest).
    split; [reflexivity |].
    cbn [all_digits] in Hall. apply andb_true_iff in Hall as [Hc _].
    destruct c as [[] [] [] [] [] [] [] []]; try discriminate Hc;
      repeat split; discriminate.
  - cbn [stringify]. rewrite Heq. eexists _, _.
    split; [reflexivity | repeat split; discriminate].
Qed.

(** A value is read back from its text, whatever indentation it was
    written with and whatever delimited text follows. *)
Definition reads_back (v : json) : Prop :=
  well_formed v = true →
  ∀ indent rest fuel,
    blank indent = true → delimited rest = true → (size v <= fuel)%nat →
    parse_value fuel (stringify indent v +++ rest) = Some (v, rest).

Lemma join_cons (sep t : string) (ts : list string) :
  join sep (t :: ts)
  = match ts with
    | [] => t
    | _ => t +++ sep +++ join sep ts
    end.
Proof. destruct ts; reflexivity. Qed.

Lemma reads_back_after_blank (v : json) (indent' rest : string) (fuel : nat) :
  reads_back v → well_formed v = true →
  blank indent' = true → delimited rest = true → (size v <= fuel)%nat →
  parse_value fuel (NL +++ indent' +++ stringify indent' v +++ rest) = Some (v, rest).
Proof.
  intros Hv Hwf Hb Hd Hf.
  rewrite parse_value_skip, skip_ws_newline by assumption.
  rewrite (opens_skip _ (stringify_opens indent' v rest)).
  now apply Hv.
Qed.

Lemma parse_elements_items (items : list json) :
  ∀ (i : json) (indent' indent rest : string) (fuel : nat),
    Forall reads_back (i :: items) →
    forallb well_formed (i :: items) = true →
    blank indent' = true → blank indent = true →
    (list_sum (map (fun x => S (size x)) (i :: items)) <= fuel)%nat →
    parse_elements fuel
      (NL +++ indent'
          +++ join ("," +++ NL +++ indent') (map (stringify indent') (i :: items))
          +++ NL +++ indent +++ "]" +++ rest)
    = Some (i :: items, rest).
Proof.
  induction items as [| i' items IH]; intros i indent' indent rest fuel Hall Hwf Hb' Hb Hf.
  - apply Forall_cons in Hall as [Hi _].
    cbn [forallb] in Hwf. apply andb_true_iff in Hwf as [Hwi _].
    simpl list_sum in Hf.
    destruct fuel as [| fuel]; [lia |].
    cbn [parse_elements map join].
    rewrite (reads_back_after_blank i); [| assumption | assumption | assumption | reflexivity | lia].
    cbn [mbind option_bind].
    rewrite skip_ws_newline by assumption. reflexivity.
  - apply Forall_cons in Hall as [Hi Hall].
    cbn [forallb] in Hwf. apply andb_true_iff in Hwf as [Hwi Hwf].
    simpl list_sum in Hf.
    destruct fuel as [| fuel]; [lia |].
    cbn [parse_elements]. cbn [map]. rewrite join_cons.
    rewrite !sapp_assoc.
    rewrite (reads_back_after_blank i); [| assumption | assumption | assumption | reflexivity | lia].
    cbn [mbind option_bind].
    change (skip_ws ("," +++ ?x)) with (String ","%char x).
    cbv iota beta.
    specialize (IH i' indent' indent rest fuel Hall Hwf Hb' Hb).
    cbn [map] in IH. rewrite IH by (simpl list_sum; lia).
    reflexivity.
Qed.

Lemma parse_key (k rest : string) :
  parse_string (S (String.length (quote_body k +++ DQ +++ rest)))
    (quote_body k +++ DQ +++ rest)
  = Some (k, rest).
Proof.
  apply parse_quote_body.
  rewrite length_sapp. pose proof (length_quote_body k). lia.
Qed.

Lemma reads_back_after_space (v : json) (indent' rest : string) (fuel : nat) :
  reads_back v → well_formed v = true →
  blank indent' = true → delimited rest = true → (size v <= fuel)%nat →
  parse_value fuel (" " +++ stringify indent' v +++ rest) = Some (v, rest).
Proof.
  intros Hv Hwf Hb Hd Hf.
  rewrite parse_value_skip.
  change (skip_ws (" " +++ stringify indent' v +++ rest))
    with (skip_ws (stringify indent' v +++ rest)).
  rewrite (opens_skip _ (stringify_opens indent' v rest)).
  now apply Hv.
Qed.

Definition member_text (indent' : string) (m : string * json) : string :=
  quote (fst m) +++ ": " +++ stringify indent' (snd m).

Lemma member_text_unfold (indent' : string) (m : string * json) (tail : string) :
  member_text indent' m +++ tail
  = String (ascii_of_nat 34)
      (quote_body (fst m) +++ DQ +++ String ":" (" " +++ stringify indent' (snd m) +++ tail)).
Proof.
  unfold member_text, quote. rewrite !sapp_assoc. reflexivity.
Qed.

Lemma parse_members_items (members : list (string * json)) :
  ∀ (m : string * json) (indent' indent rest : string) (fuel : nat),
    Forall (fun x => reads_back (snd x)) (m :: members) →
    forallb (fun x => well_formed (snd x)) (m :: members) = true →
    blank indent' = true → blank indent = true →
    (list_sum (map (fun x => S (size (snd x))) (m :: members)) <= fuel)%nat →
    parse_members fuel
      (NL +++ indent'
          +++ join ("," +++ NL +++ indent') (map (member_text indent') (m :: members))
          +++ NL +++ indent +++ "}" +++ rest)
    = Some (m :: members, rest).
Proof.
  induction members as [| m' members IH];
    intros [k v] indent' indent rest fuel Hall Hwf Hb' Hb Hf.
  - apply Forall_cons in Hall as [Hv _]. cbn [snd] in Hv.
    cbn [forallb snd] in Hwf. apply andb_true_iff in Hwf as [Hwv _].
    simpl list_sum in Hf.
    destruct fuel as [| fuel]; [lia |].
    cbn [parse_members map join].
    rewrite skip_ws_newline by assumption.
    rewrite member_text_unfold. cbn [fst snd].
    change (skip_ws (String (ascii_of_nat 34) ?x)) with (String (ascii_of_nat 34) x).
    cbv iota beta.
    change (nat_of_ascii (ascii_of_nat 34) =? 34)%nat with true. cbv iota.
    rewrite parse_key. cbn [mbind option_bind].
    change (skip_ws (String ":" ?x)) with (String ":"%char x). cbv iota beta.
    rewrite (reads_back_after_space v); [| assumption | assumption | assumption | reflexivity | lia].
    cbn [mbind option_bind].
    rewrite skip_ws_newline by assumption. reflexivity.
  - apply Forall_cons in Hall as [Hv Hall]. cbn [snd] in Hv.
    cbn [forallb snd] in Hwf. apply andb_true_iff in Hwf as [Hwv Hwf].
    simpl list_sum in Hf.
    destruct fuel as [| fuel]; [lia |].
    cbn [parse_members]. cbn [map]. rewrite join_cons.
    rewrite skip_ws_newline by assumption.
    rewrite !sapp_assoc.
    rewrite member_text_unfold. cbn [fst snd].
    change (skip_ws (String (ascii_of_nat 34) ?x)) with (String (ascii_of_nat 34) x).
    cbv iota beta.
    change (nat_of_ascii (ascii_of_nat 34) =? 34)%nat with true. cbv iota.
    rewrite parse_key. cbn [mbind option_bind].
    change (skip_ws (String ":" ?x)) with (String ":"%char x). cbv iota beta.
    rewrite (reads_back_after_space v); [| assumption | assumption | assumption | reflexivity | lia].
    cbn [mbind option_bind].
    change (skip_ws ("," +++ ?x)) with (String ","%char x).
    cbv iota beta.
    specialize (IH m' indent' indent rest fuel Hall Hwf Hb' Hb).
    cbn [map] in IH. rewrite IH by (simpl list_sum; lia).
    reflexivity.
Qed.

(** *** Objects with distinct property names *)

Lemma set_fresh (o : object) (k : string) (v : json) :
  existsb (String.eqb k) (map fst o) = false → Js.set o k v = o ++ [(k, v)].
Proof.
  induction o as [| [k' v'] o IH]; [reflexivity |].
  cbn [map fst existsb]. intros H. apply orb_false_iff in H as [Hk Ho].
  cbn [Js.set]. rewrite String.eqb_sym, Hk. cbn [app]. now rewrite IH.
Qed.

Lemma distinct_middle (l1 l2 : list string) (k : string) :
  distinct (l1 ++ k :: l2) = true → existsb (String.eqb k) l1 = false.
Proof.
  induction l1 as [| x l1 IH]; [reflexivity |].
  cbn [app distinct existsb]. intros H. apply andb_true_iff in H as [Hx Hrest].
  apply negb_true_iff in Hx. rewrite existsb_app in Hx.
  apply orb_false_iff in Hx as [_ Hx]. cbn [existsb] in Hx.
  apply orb_false_iff in Hx as [Hxk _].
  rewrite String.eqb_sym, Hxk. cbn [orb]. now apply IH.
Qed.

Lemma object_of_fold (members acc : object) :
  distinct (map fst acc ++ map fst members) = true →
  fold_left (fun o m => Js.set o (fst m) (snd m)) members acc = acc ++ members.
Proof.
  revert acc. induction members as [| [k v] members IH]; intros acc Hd.
  - now rewrite app_nil_r.
  - cbn [fold_left fst snd map] in *.
    rewrite set_fresh by (eapply distinct_middle; exact Hd).
    rewrite IH.
    + now rewrite <- app_assoc.
    + rewrite map_app. cbn [map fst]. now rewrite <- app_assoc.
Qed.

Lemma object_of_distinct (members : object) :
  distinct (map fst members) = true → object_of members = members.
Proof. intros H. unfold object_of. now rewrite object_of_fold. Qed.

(** *** The round trip *)

Lemma parse_value_string (fuel : nat) (r : string) :
  parse_value (S fuel) (String (ascii_of_nat 34) r)
  = '(t, r') ← parse_string (S (String.length r)) r; Some (JStr t, r').
Proof. reflexivity. Qed.

Lemma parse_value_array (fuel : nat) (x : string) :
  parse_value (S fuel) (String "[" x)
  = match skip_ws x with
    | String "]" r' => Some (JArr [], r')
    | _ => '(items, r') ← parse_elements fuel x; Some (JArr items, r')
    end.
Proof. reflexivity. Qed.

Lemma parse_value_object (fuel : nat) (x : string) :
  parse_value (S fuel) (String "{" x)
  = match skip_ws x with
    | String "}" r' => Some (JObj [], r')
    | _ => '(members, r') ← parse_members fuel x; Some (JObj (object_of members), r')
    end.
Proof. reflexivity. Qed.

Lemma parse_value_number (fuel : nat) (c : ascii) (r : string) :
  byte_in 48 57 c = true ∨ c = "-"%char →
  parse_value (S fuel) (String c r)
  = '(z, r') ← parse_number (String c r); Some (JNum z, r').
Proof.
  destruct c as [[] [] [] [] [] [] [] []]; intros [H | H];
    try discriminate H; reflexivity.
Qed.

Lemma not_closing_bracket {A} (c : ascii) (r : string) (x y : A) :
  c ≠ "]"%char →
  match String c r with
  | String "]" r' => x
  | _ => y
  end = y.
Proof.
  destruct c as [[] [] [] [] [] [] [] []]; intros H; try reflexivity; congruence.
Qed.

Lemma not_closing_brace {A} (c : ascii) (r : string) (x y : A) :
  c ≠ "}"%char →
  match String c r with
  | String "}" r' => x
  | _ => y
  end = y.
Proof.
  destruct c as [[] [] [] [] [] [] [] []]; intros H; try reflexivity; congruence.
Qed.

Lemma items_open (sep indent' : string) (i : json) (items : list json) (tail : string) :
  ∃ c r,
    skip_ws (join sep (map (stringify indent') (i :: items)) +++ tail) = String c r
    ∧ c ≠ "]"%char.
Proof.
  cbn [map]. rewrite join_cons.
  destruct (map (stringify indent') items) as [| t ts].
  - destruct (stringify_opens indent' i tail) as (c & r & Heq & Hws & Hc & _).
    exists c, r. split; [| exact Hc].
    rewrite Heq. cbn [skip_ws]. now rewrite Hws.
  - rewrite !sapp_assoc.
    destruct (stringify_opens indent' i (sep +++ join sep (t :: ts) +++ tail))
      as (c & r & Heq & Hws & Hc & _).
    exists c, r. split; [| exact Hc].
    rewrite Heq. cbn [skip_ws]. now rewrite Hws.
Qed.

Lemma members_open (sep indent' : string) (m : string * json) (members : object)
    (tail : string) :
  ∃ c r,
    skip_ws (join sep (map (member_text indent') (m :: members)) +++ tail) = String c r
    ∧ c ≠ "}"%char.
Proof.
  cbn [map]. rewrite join_cons.
  destruct (map (member_text indent') members) as [| t ts].
  - rewrite member_text_unfold. eexists _, _. split; [reflexivity | discriminate].
  - rewrite !sapp_assoc, member_text_unfold.
    eexists _, _. split; [reflexivity | discriminate].
Qed.

Lemma every_value_reads_back (v : json) : reads_back v.
Proof.
  revert v.
  apply json_induction; [| intros b | intros n | intros s | intros items IH | intros members IH];
    intros Hwf indent rest fuel Hb Hd Hf;
    (destruct fuel as [| fuel]; [simpl in Hf; lia |]).
  - reflexivity.
  - destruct b; reflexivity.
  - cbn [stringify].
    destruct (Z_to_string_spec n)
      as (c & d & Hall & _ & [(_ & Heq & _) | (_ & Heq & _)]).
    + pose proof (parse_number_Z_to_string n rest Hd) as Hp.
      rewrite Heq in *.
      change (String c d +++ rest) with (String c (d +++ rest)) in *.
      rewrite parse_value_number, Hp; [reflexivity |].
      left. cbn [all_digits] in Hall. now apply andb_true_iff in Hall as [Hc _].
    + pose proof (parse_number_Z_to_string n rest Hd) as Hp.
      rewrite Heq in *.
      change (String "-" (String c d) +++ rest)
        with (String "-" (String c d +++ rest)) in *.
      rewrite parse_value_number, Hp; [reflexivity | now right].
  - cbn [stringify]. unfold quote. rewrite !sapp_assoc.
    change (DQ +++ ?x) with (String (ascii_of_nat 34) x).
    rewrite parse_value_string, parse_key. reflexivity.
  - destruct items as [| i items]; [reflexivity |].
    cbn [stringify].
    pose proof (blank_gap indent Hb) as Hb'.
    set (indent' := indent +++ GAP) in *.
    rewrite !sapp_assoc.
    change ("[" +++ ?x) with (String "["%char x).
    rewrite parse_value_array.
    cbn [well_formed] in Hwf. cbn [size] in Hf.
    rewrite skip_ws_newline by assumption.
    destruct (items_open ("," +++ NL +++ indent') indent' i items
                (NL +++ indent +++ "]" +++ rest)) as (c & r & Heq & Hc).
    rewrite Heq, (not_closing_bracket c r _ _ Hc).
    rewrite parse_elements_items; [reflexivity | assumption.. | lia].
  - destruct members as [| m members]; [reflexivity |].
    cbn [stringify].
    pose proof (blank_gap indent Hb) as Hb'.
    set (indent' := indent +++ GAP) in *.
    change (map (fun m0 => quote (fst m0) +++ ": " +++ stringify indent' (snd m0))
              (m :: members))
      with (map (member_text indent') (m :: members)).
    rewrite !sapp_assoc.
    change ("{" +++ ?x) with (String "{"%char x).
    rewrite parse_value_object.
    cbn [well_formed] in Hwf. apply andb_true_iff in Hwf as [Hdist Hwf].
    cbn [size] in Hf.
    rewrite skip_ws_newline by assumption.
    destruct (members_open ("," +++ NL +++ indent') indent' m members
                (NL +++ indent +++ "}" +++ rest)) as (c & r & Heq & Hc).
    rewrite Heq, (not_closing_brace c r _ _ Hc).
    rewrite parse_members_items; [| assumption.. | lia].
    cbn [mbind option_bind]. now rewrite object_of_distinct.
Qed.

(** *** Enough fuel *)

Lemma join_bound {A} (size_of : A → nat) (sep : string) (f : A → string) (l : list A) :
  (1 <= String.length sep)%nat →
  Forall (fun x => (size_of x <= String.length (f x))%nat) l →
  (list_sum (map (fun x => S (size_of x)) l) <= S (String.length (join sep (map f l))))%nat.
Proof.
  intros Hsep Hall. induction Hall as [| x l Hx Hl IH]; [simpl; lia |].
  cbn [map]. rewrite join_cons.
  change (list_sum (S (size_of x) :: ?t)) with (S (size_of x) + list_sum t)%nat.
  destruct l as [| y l].
  - simpl. lia.
  - remember (y :: l) as l' eqn:Hl'.
    replace (match map f l' with
             | [] => f x
             | _ :: _ => f x +++ sep +++ join sep (map f l')
             end) with (f x +++ sep +++ join sep (map f l'))
      by (subst l'; reflexivity).
    rewrite !length_sapp. lia.
Qed.

Lemma size_le_length (v : json) :
  ∀ indent, (size v <= String.length (stringify indent v))%nat.
Proof.
  revert v.
  apply (json_induction
           (fun v => ∀ indent, (size v <= String.length (stringify indent v))%nat));
    [| intros b | intros n | intros s | intros items IH | intros members IH];
    intros indent.
  - simpl. lia.
  - destruct b; simpl; lia.
  - cbn [stringify size].
    destruct (Z_to_string_spec n) as (c & d & _ & _ & [(_ & -> & _) | (_ & -> & _)]);
      simpl; lia.
  - cbn [stringify size]. unfold quote. rewrite length_sapp. simpl. lia.
  - destruct items as [| i items]; [simpl; lia |].
    cbn [stringify size]. set (indent' := indent +++ GAP).
    pose proof (join_bound size ("," +++ NL +++ indent') (stringify indent') (i :: items))
      as Hj.
    rewrite !length_sapp.
    assert (Hsep : (1 <= String.length ("," +++ NL +++ indent'))%nat) by (simpl; lia).
    specialize (Hj Hsep).
    assert (Hall : Forall (fun x => (size x <= String.length (stringify indent' x))%nat)
                     (i :: items)).
    { eapply Forall_impl; [exact IH |]. intros x Hx. apply Hx. }
    specialize (Hj Hall).
    change (String.length "[") with 1%nat. change (String.length NL) with 1%nat.
    lia.
  - destruct members as [| m members]; [simpl; lia |].
    cbn [stringify size]. set (indent' := indent +++ GAP).
    pose proof (join_bound (fun x => size (snd x)) ("," +++ NL +++ indent')
                  (fun x => quote (fst x) +++ ": " +++ stringify indent' (snd x))
                  (m :: members)) as Hj.
    rewrite !length_sapp.
    assert (Hsep : (1 <= String.length ("," +++ NL +++ indent'))%nat) by (simpl; lia).
    specialize (Hj Hsep).
    assert (Hall : Forall (fun x =>
                     (size (snd x)
                      <= String.length (quote (fst x) +++ ": " +++ stringify indent' (snd x)))%nat)
                     (m :: members)).
    { eapply Forall_impl; [exact IH |]. intros x Hx. cbn beta in Hx.
      rewrite !length_sapp. specialize (Hx indent'). lia. }
    specialize (Hj Hall).
    change (String.length "{") with 1%nat. change (String.length NL) with 1%nat.
    lia.
Qed.

(** [JSON.parse(JSON.stringify(v, null, 2))] is [v], for every value whose
    objects have distinct property names. *)
Lemma JSON_round_trip (v : json) :
  well_formed v = true → JSON_parse (JSON_stringify v) = Some v.
Proof.
  intros Hwf. unfold JSON_parse, JSON_stringify.
  pose proof (every_value_reads_back v Hwf EmptyString EmptyString
                (2 * String.length (stringify "" v) + 2)%nat eq_refl eq_refl) as H.
  rewrite sapp_nil_r in H. rewrite H.
  - reflexivity.
  - pose proof (size_le_length v ""). lia.
Qed.

End JsonProps.

(** ** The archive codec *)

Module CodecProps.
Import Effects Js BackupManager.

Local Open Scope list_scope.

Lemma split_at_all (n : nat) (s : string) :
  (String.length s <= n)%nat → split_at n s = (s, EmptyString).
Proof.
  revert n. induction s as [| c s IH]; intros n Hn.
  - destruct n; reflexivity.
  - destruct n as [| n]; simpl in *; [lia |].
    rewrite IH by lia. reflexivity.
Qed.

(** A text no longer than the chunk size arrives as one chunk. *)
Lemma chunks_single (n : nat) (s : string) :
  s ≠ EmptyString → (String.length s <= n)%nat →
  chunks (S (String.length s)) n s = [s].
Proof.
  intros Hs Hn. destruct s as [| c s]; [congruence |].
  cbn [chunks]. rewrite split_at_all by assumption.
  destruct (String.length (String c s)); reflexivity.
Qed.

Lemma stringify_array_nonempty (records : list json) :
  JSON_stringify (JArr records) ≠ EmptyString.
Proof. destruct records; discriminate. Qed.

Lemma createBackupZip_written (E : env) (appId : string) (records : list json)
    (zipFilePath : string) (w : world) :
  write_fails E zipFilePath = false →
  ∃ manifest,
    archives (createBackupZip E appId records zipFilePath w).1 !! zipFilePath
    = Some [("records.json", JSON_stringify (JArr records));
            ("backup_metadata.json", manifest)]
    ∧ (createBackupZip E appId records zipFilePath w).2
      = Ok (Z.of_nat (String.length (JSON_stringify (JArr records)))).
Proof.
  intros Hw. unfold createBackupZip. cbv zeta.
  rewrite BackupProps.bind_run.
  match goal with |- context [try_catch ?b ?h w] =>
    assert (Hok : ∃ w1 fp, try_catch b h w = (w1, Ok fp))
  end.
  { unfold try_catch.
    match goal with |- context [match ?x with _ => _ end] =>
      destruct x as [w1 [fp | e]] end; eauto. }
  destruct Hok as (w1 & fp & ->).
  unfold write_fails in Hw.
  destruct (archive_stream E zipFilePath); try discriminate. eexists. cbn [fst snd archives with_archives].
  split; [apply lookup_insert_eq | reflexivity].
Qed.

(** The part of the round trip that holds: records whose text fits one
    chunk and is well-formed UTF-8 come out of the archive as they went
    in, in the same order. *)
Lemma round_trip_within_one_chunk (E : env) (appId : string) (records : list json)
    (zipFilePath : string) (w : world) :
  write_fails E zipFilePath = false →
  forallb well_formed records = true →
  (String.length (JSON_stringify (JArr records)) <= chunk_size E)%nat →
  Buffer_toString (JSON_stringify (JArr records)) = JSON_stringify (JArr records) →
  (extractBackupZip E zipFilePath
     (createBackupZip E appId records zipFilePath w).1).2 = Ok records.
Proof.
  intros Hw Hwf Hfit Hutf.
  pose proof (JsonProps.JSON_round_trip (JArr records) Hwf) as Hparse.
  destruct (createBackupZip_written E appId records zipFilePath w Hw)
    as (manifest & Harch & _).
  unfold extractBackupZip. rewrite Harch.
  cbn [fold_left on_entry recordsJson extracted rejected].
  cbn [String.eqb Ascii.eqb Bool.eqb].
  unfold received.
  rewrite chunks_single by (auto using stringify_array_nonempty).
  cbn [fold_left]. rewrite Hutf.
  change (String.append "" (String.append "" (JSON_stringify (JArr records))))
    with (JSON_stringify (JArr records)).
  rewrite Hparse.
  reflexivity.
Qed.

(** C2 (the code on a records text longer than one chunk): the memo
    record is archived and read back with the 16384-byte chunks of the
    inflate stream; the kana that straddles the first chunk boundary
    comes back as three replacement characters, so the record read is not
    the record written. *)
Theorem round_trip_breaks_at_chunk_boundary :
  let E := Samples.env_where [] false false in
  let written := [Samples.memo_record Samples.long_text] in
  let archived := (createBackupZip E "10" written "archives/a.zip" Samples.fresh_world).1 in
  chunk_size E = Z.to_nat 16384
  ∧ String.length (JSON_stringify (JArr written)) = Z.to_nat 16399
  ∧ (extractBackupZip E "archives/a.zip" archived).2
    = Ok [Samples.memo_record Samples.long_text_read]
  ∧ Samples.text_tail Samples.long_text = "あ"
  ∧ Samples.text_tail Samples.long_text_read
    = String.append REPLACEMENT (String.append REPLACEMENT REPLACEMENT)
  ∧ [Samples.memo_record Samples.long_text_read] ≠ written.
Proof.
  cbv zeta.
  split; [reflexivity |].
  split; [vm_compute; reflexivity |].
  split; [vm_compute; reflexivity |].
  assert (H1 : Samples.text_tail Samples.long_text = "あ") by (vm_compute; reflexivity).
  assert (H2 : Samples.text_tail Samples.long_text_read
               = String.append REPLACEMENT (String.append REPLACEMENT REPLACEMENT))
    by (vm_compute; reflexivity).
  split; [exact H1 |]. split; [exact H2 |].
  intros H.
  apply (f_equal (fun l => Samples.text_tail (Samples.memo_text l))) in H.
  vm_compute in H. discriminate.
Qed.

(** The same record in a shorter text survives the round trip. *)
Example round_trip_short_text :
  let E := Samples.env_where [] false false in
  let written := [Samples.memo_record "あいう"; Samples.order_record] in
  (extractBackupZip E "archives/a.zip"
     (createBackupZip E "10" written "archives/a.zip" Samples.fresh_world).1).2
  = Ok written.
Proof.
  cbv zeta. apply round_trip_within_one_chunk.
  - reflexivity.
  - reflexivity.
  - apply Nat.leb_le. vm_compute. reflexivity.
  - vm_compute. reflexivity.
Qed.

End CodecProps.

(** ** Restore: cleaning, reconciliation, status *)

Module RestoreProps.
Import Effects Js BackupManager Runs.

Local Open Scope list_scope.

(** *** Cleaning *)

Lemma set_members (o : object) (k : string) (v : json) (m : string * json) :
  m ∈ Js.set o k v → m ∈ o ∨ m = (k, v).
Proof.
  induction o as [| [k' v'] o IH]; simpl.
  - intros H. apply list_elem_of_singleton in H. now right.
  - destruct (String.eqb k' k) eqn:Hk.
    + apply String.eqb_eq in Hk. subst k'.
      intros H. apply elem_of_cons in H as [-> | H].
      * now right.
      * left. apply elem_of_cons. now right.
    + intros H. apply elem_of_cons in H as [-> | H].
      * left. apply elem_of_cons. now left.
      * destruct (IH H) as [H' | H']; [left | now right].
        apply elem_of_cons. now right.
Qed.

Lemma clean_step_passes (acc : object) (entry : string * json) :
  Forall passes acc → Forall passes (clean_step acc entry).
Proof.
  intros Hacc. destruct entry as [code v]. unfold clean_step.
  case_bool_decide as Hsys; [assumption |].
  destruct (has_readonly_type v) eqn:Hro; [assumption |].
  apply Forall_forall. intros m Hm.
  apply set_members in Hm as [Hm | ->].
  - rewrite Forall_forall in Hacc. now apply Hacc.
  - split; assumption.
Qed.

Lemma clean_fold_passes (es acc : object) :
  Forall passes acc → Forall passes (fold_left clean_step es acc).
Proof.
  revert acc. induction es as [| e es IH]; simpl; intros acc Hacc.
  - assumption.
  - apply IH. now apply clean_step_passes.
Qed.

(** Cleaning only drops fields: what it keeps is a field of the record,
    with the value it had. *)
Lemma clean_step_kept (acc : object) (entry m : string * json) :
  m ∈ clean_step acc entry → m ∈ acc ∨ m = entry.
Proof.
  destruct entry as [code v]. unfold clean_step.
  case_bool_decide; [now left |].
  destruct (has_readonly_type v); [now left |].
  apply set_members.
Qed.

Lemma clean_fold_kept (es acc : object) (m : string * json) :
  m ∈ fold_left clean_step es acc → m ∈ acc ∨ m ∈ es.
Proof.
  revert acc. induction es as [| e es IH]; simpl; intros acc H.
  - now left.
  - destruct (IH _ H) as [H' | H'].
    + destruct (clean_step_kept _ _ _ H') as [H'' | ->].
      * now left.
      * right. apply elem_of_cons. now left.
    + right. apply elem_of_cons. now right.
Qed.

(** A field object tagged with a read-only type fails the second test. *)
Lemma readonly_tag_detected (v : json) (t : string) :
  Js.prop v "type" = Some (JStr t) → t ∈ READONLY_FIELD_TYPES →
  has_readonly_type v = true.
Proof.
  intros Hp Ht. unfold has_readonly_type.
  destruct v; simpl in Hp; try discriminate.
  simpl. simpl in Hp. rewrite Hp. simpl.
  rewrite bool_decide_true by assumption.
  destruct (String.eqb t "") eqn:E; [| reflexivity].
  apply String.eqb_eq in E. subst t.
  exfalso. revert Ht. unfold READONLY_FIELD_TYPES.
  rewrite !elem_of_cons, elem_of_nil. intros H.
  repeat (destruct H as [H | H]; [discriminate |]). exact H.
Qed.

Lemma passes_spec (m : string * json) :
  passes m →
  (m.1 ∉ SYSTEM_FIELDS)
  ∧ ∀ t, Js.prop (m.2) "type" = Some (JStr t) → t ∉ READONLY_FIELD_TYPES.
Proof.
  intros [Hs Hr]. split; [assumption |].
  intros t Hp Ht. rewrite (readonly_tag_detected _ _ Hp Ht) in Hr. discriminate.
Qed.

Lemma cleanRecord_passes (record cleaned : json) :
  cleanRecordForRestore record = Ok cleaned →
  ∃ es o, Js.entries record = Some es ∧ cleaned = JObj o
          ∧ Forall passes o ∧ ∀ m, m ∈ o → m ∈ es.
Proof.
  unfold cleanRecordForRestore.
  destruct (Js.entries record) as [es |]; [| discriminate].
  intros [= <-]. exists es. eexists. split; [reflexivity |].
  split; [reflexivity |]. split.
  - apply clean_fold_passes. constructor.
  - intros m Hm. destruct (clean_fold_kept _ _ _ Hm) as [H | H]; [| exact H].
    now apply elem_of_nil in H.
Qed.

Lemma map_result_elem {A B} (f : A → result B) (l : list A) (l' : list B) (y : B) :
  map_result f l = Ok l' → y ∈ l' → ∃ x, x ∈ l ∧ f x = Ok y.
Proof.
  revert l'. induction l as [| x l IH]; simpl; intros l'.
  - intros [= <-] H. now apply elem_of_nil in H.
  - destruct (f x) as [b |] eqn:Hf; [| discriminate].
    destruct (map_result f l) as [bs |]; [| discriminate].
    intros [= <-] H. apply elem_of_cons in H as [-> | H].
    + exists x. split; [apply elem_of_cons; now left | assumption].
    + destruct (IH bs eq_refl H) as (x' & Hx' & Hfx').
      exists x'. split; [apply elem_of_cons; now right | assumption].
Qed.

(** *** Reconciliation *)

Lemma partition_step_spec mapping (updates : list update_entry) (adds : list json)
    (x : json * option string) :
  partition_step mapping (updates, adds) x
  = (updates ++ option_list (as_update mapping x),
     adds ++ option_list (as_add mapping x)).
Proof.
  destruct x as [rec [n |]]; unfold partition_step, as_update, as_add, resolves_to; simpl.
  - destruct (mapping !! n) as [[i |] |]; simpl; rewrite ?app_nil_r; try reflexivity.
    destruct (String.eqb i ""); simpl; rewrite ?app_nil_r; reflexivity.
  - rewrite app_nil_r. reflexivity.
Qed.

Lemma partition_fold mapping (l : list (json * option string))
    (updates : list update_entry) (adds : list json) :
  fold_left (partition_step mapping) l (updates, adds)
  = (updates ++ omap (as_update mapping) l, adds ++ omap (as_add mapping) l).
Proof.
  revert updates adds. induction l as [| x l IH]; intros updates adds; cbn [fold_left omap list_omap].
  - now rewrite !app_nil_r.
  - rewrite partition_step_spec, IH.
    destruct (as_update mapping x), (as_add mapping x); simpl;
      rewrite <- ?app_assoc; reflexivity.
Qed.

Lemma one_partition_each mapping (x : json * option string) :
  (length (option_list (as_update mapping x))
   + length (option_list (as_add mapping x)) = 1)%nat.
Proof.
  unfold as_update, as_add. destruct (resolves_to mapping x.2); reflexivity.
Qed.

Lemma partition_lengths mapping (l : list (json * option string)) :
  (length (omap (as_update mapping) l) + length (omap (as_add mapping) l)
   = length l)%nat.
Proof.
  induction l as [| x l IH]; [reflexivity |].
  pose proof (one_partition_each mapping x) as H1.
  cbn [omap list_omap].
  destruct (as_update mapping x), (as_add mapping x);
    simpl in H1; cbn [length]; lia.
Qed.

(** The loop that splits the records: the update partition is, in
    order, the records whose business key resolves to a live identifier,
    each with that identifier; the add partition is, in order, the
    records whose key is missing, unmapped or mapped to [null]; every
    record is in exactly one of the two. *)
Theorem partition_by_resolution (mapping : gmap string (option string))
    (cleanedRecords : list json) (recordNumberList : list (option string)) :
  partition mapping cleanedRecords recordNumberList
  = (omap (as_update mapping) (zip cleanedRecords recordNumberList),
     omap (as_add mapping) (zip cleanedRecords recordNumberList))
  ∧ (length (partition mapping cleanedRecords recordNumberList).1
     + length (partition mapping cleanedRecords recordNumberList).2
     = length (zip cleanedRecords recordNumberList))%nat
  ∧ (∀ rec key i,
        (rec, key) ∈ zip cleanedRecords recordNumberList →
        resolves_to mapping key = Some i →
        {| id := i; record := rec |} ∈ (partition mapping cleanedRecords recordNumberList).1
        ∧ as_add mapping (rec, key) = None)
  ∧ (∀ rec key,
        (rec, key) ∈ zip cleanedRecords recordNumberList →
        resolves_to mapping key = None →
        rec ∈ (partition mapping cleanedRecords recordNumberList).2
        ∧ as_update mapping (rec, key) = None).
Proof.
  assert (Heq : partition mapping cleanedRecords recordNumberList
                = (omap (as_update mapping) (zip cleanedRecords recordNumberList),
                   omap (as_add mapping) (zip cleanedRecords recordNumberList))).
  { unfold partition. now rewrite partition_fold. }
  rewrite Heq. simpl.
  split; [reflexivity |].
  split; [apply partition_lengths |].
  split.
  - intros rec key i Hin Hres. split.
    + apply list_elem_of_omap. exists (rec, key). split; [assumption |].
      unfold as_update. simpl. now rewrite Hres.
    + unfold as_add. simpl. now rewrite Hres.
  - intros rec key Hin Hres. split.
    + apply list_elem_of_omap. exists (rec, key). split; [assumption |].
      unfold as_add. simpl. now rewrite Hres.
    + unfold as_update. simpl. now rewrite Hres.
Qed.

Lemma partition_payload mapping (cleaned : list json) (keys : list (option string))
    (rec : json) :
  rec ∈ (partition mapping cleaned keys).2
  ∨ rec ∈ map record (partition mapping cleaned keys).1 →
  rec ∈ cleaned.
Proof.
  unfold partition. rewrite partition_fold. simpl.
  intros [H | H].
  - apply list_elem_of_omap in H as ([r k] & Hin & Hx).
    unfold as_add in Hx. simpl in Hx.
    destruct (resolves_to mapping k); [discriminate |].
    injection Hx as <-. now apply elem_of_zip_l in Hin.
  - apply list_elem_of_In, in_map_iff in H as (u & <- & Hu).
    apply list_elem_of_In, list_elem_of_omap in Hu as ([r k] & Hin & Hx).
    unfold as_update in Hx. simpl in Hx.
    destruct (resolves_to mapping k); [| discriminate].
    injection Hx as <-. simpl. now apply elem_of_zip_l in Hin.
Qed.

(** Below the top level nothing is removed: the cleaned order record
    still holds the computed field of its table row. *)
Lemma cleaned_record_keeps_nested_computed_field :
  cleanRecordForRestore Samples.order_record = Ok Samples.order_cleaned
  ∧ ("小計", Samples.subtotal) ∈ deep_members Samples.order_cleaned
  ∧ Js.prop Samples.subtotal "type" = Some (JStr "CALC")
  ∧ "CALC" ∈ READONLY_FIELD_TYPES.
Proof.
  split; [vm_compute; reflexivity |].
  split; [| split; [reflexivity |]].
  - apply list_elem_of_In. vm_compute. tauto.
  - apply list_elem_of_In. vm_compute. tauto.
Qed.

(** At the top level the cleaning does what its comment says: every
    record of the two partitions is the cleaned form of an archived
    record; each of its top-level fields is a field of that archived
    record with its value unchanged, has no system field code and no type
    tag among the read-only types. *)
Theorem restore_payload_top_level_clean (records cleaned : list json)
    (mapping : gmap string (option string)) (keys : list (option string)) (rec : json) :
  map_result cleanRecordForRestore records = Ok cleaned →
  rec ∈ (partition mapping cleaned keys).2
  ∨ rec ∈ map record (partition mapping cleaned keys).1 →
  ∃ archived es o,
    archived ∈ records
    ∧ cleanRecordForRestore archived = Ok rec
    ∧ Js.entries archived = Some es
    ∧ rec = JObj o
    ∧ ∀ code v, (code, v) ∈ o →
        (code, v) ∈ es
        ∧ (code ∉ SYSTEM_FIELDS)
        ∧ ∀ t, Js.prop v "type" = Some (JStr t) → t ∉ READONLY_FIELD_TYPES.
Proof.
  intros Hclean Hrec.
  apply partition_payload in Hrec.
  destruct (map_result_elem _ _ _ _ Hclean Hrec) as (archived & Hin & Hc).
  destruct (cleanRecord_passes _ _ Hc) as (es & o & Hes & -> & Ho & Hkept).
  exists archived, es, o. repeat (split; [assumption || reflexivity |]).
  intros code v Hm. split; [now apply Hkept |].
  rewrite Forall_forall in Ho.
  exact (passes_spec (code, v) (Ho _ Hm)).
Qed.

Lemma restore_payload_witness :
  ∃ archived es o,
    archived ∈ [Samples.order_record]
    ∧ cleanRecordForRestore archived = Ok Samples.order_cleaned
    ∧ Js.entries archived = Some es
    ∧ Samples.order_cleaned = JObj o
    ∧ ∀ code v, (code, v) ∈ o →
        (code, v) ∈ es
        ∧ (code ∉ SYSTEM_FIELDS)
        ∧ ∀ t, Js.prop v "type" = Some (JStr t) → t ∉ READONLY_FIELD_TYPES.
Proof.
  apply (restore_payload_top_level_clean [Samples.order_record] [Samples.order_cleaned]
           Samples.one_resolved [Some "1"] Samples.order_cleaned).
  - vm_compute. reflexivity.
  - right. apply list_elem_of_In. vm_compute. left. reflexivity.
Defined.

(** *** The mapping the resolver builds *)

Lemma ensures_ret {A} (Q : A → Prop) (a : A) : Q a → ensures Q (mret a).
Proof. intros H w. exact H. Qed.

Lemma ensures_bind {A B} (Q' : A → Prop) (Q : B → Prop) (m : M A) (f : A → M B) :
  ensures Q' m → (∀ a, Q' a → ensures Q (f a)) → ensures Q (m ≫= f).
Proof.
  intros Hm Hf w. specialize (Hm w).
  change ((m ≫= f) w) with (match m w with
                            | (w', Ok a) => f a w'
                            | (w', Throw e) => (w', Throw e)
                            end).
  destruct (m w) as [w1 [a | e]]; simpl in *; [apply Hf, Hm | exact I].
Qed.

Lemma ensures_try_catch {A} (Q : A → Prop) (body : M A) (handler : error → M A) :
  ensures Q body → (∀ e, ensures Q (handler e)) → ensures Q (try_catch body handler).
Proof.
  intros Hb Hh w. unfold try_catch. specialize (Hb w).
  destruct (body w) as [w1 [a | e]]; simpl in *; [exact Hb | apply Hh].
Qed.

Lemma ensures_any {A} (m : M A) : ensures (fun _ => True) m.
Proof. intros w. destruct (m w).2; exact I. Qed.

Lemma Z_to_string_not_empty (n : Z) : Z_to_string n ≠ EmptyString.
Proof.
  destruct (JsonProps.Z_to_string_spec n)
    as (c & d & _ & _ & [(_ & -> & _) | (_ & -> & _)]); discriminate.
Qed.

(** [String(v)] of a truthy value that is no array is not empty. *)
Lemma to_String_not_empty (v : json) :
  truthy v = true → scalar (Some v) → to_String v ≠ EmptyString.
Proof.
  destruct v as [| [] | n | s | items | members]; simpl; intros Ht Hs;
    try discriminate; try contradiction.
  - apply Z_to_string_not_empty.
  - intros ->. discriminate.
Qed.

Lemma or_else_scalar (a b : option json) : scalar a → scalar b → scalar (or_else a b).
Proof. unfold or_else. destruct (truthy_opt a); auto. Qed.

Lemma insert_ids_not_empty (mapping : gmap string (option string)) (k : string)
    (v : option string) :
  ids_not_empty mapping → (∀ i, v = Some i → i ≠ EmptyString) →
  ids_not_empty (<[k := v]> mapping).
Proof.
  intros Hm Hv k' i. rewrite lookup_insert.
  case_decide as Hk; [intros [= ->]; now apply Hv | apply Hm].
Qed.

Lemma note_row_ids (fieldCode : string) (mapping : gmap string (option string))
    (rec : json) :
  ids_not_empty mapping → row_ids_scalar rec →
  ids_not_empty (KintoneClient.note_row fieldCode mapping rec).
Proof.
  intros Hm (H1 & H2 & H3). unfold KintoneClient.note_row. cbv zeta.
  set (rnValue := opt_prop (opt_prop (Some rec) fieldCode) "value").
  pose proof (or_else_scalar _ _ H1 (or_else_scalar _ _ H2 H3)) as Hs.
  set (idVal := or_else _ _) in *.
  destruct (negb (truthy_opt rnValue)); [exact Hm |].
  destruct rnValue as [rn |], idVal as [i |]; try exact Hm.
  destruct (truthy i) eqn:Ht; [| exact Hm].
  apply insert_ids_not_empty; [exact Hm |].
  intros j [= <-]. now apply to_String_not_empty.
Qed.

Lemma note_rows_ids (fieldCode : string) (rows : list json)
    (mapping : gmap string (option string)) :
  ids_not_empty mapping → Forall row_ids_scalar rows →
  ids_not_empty (fold_left (KintoneClient.note_row fieldCode) rows mapping).
Proof.
  revert mapping. induction rows as [| r rows IH]; intros mapping Hm Hrows; [exact Hm |].
  apply Forall_cons in Hrows as [Hr Hrows].
  cbn [fold_left]. apply IH; [now apply note_row_ids | exact Hrows].
Qed.

Section Resolver.
Context (E : env) (Hservice : service_ids_scalar E).

Lemma send_getRecords_rows (appId query : string) (fields : list string) :
  ensures (Forall row_ids_scalar)
    (KintoneClient.send (GetRecords appId query fields)
       (fun n => on_getRecords (remote E) n appId query fields)).
Proof.
  intros w. unfold KintoneClient.send.
  pose proof (Hservice (length (trace w)) appId query fields) as H.
  destruct (on_getRecords (remote E) (length (trace w)) appId query fields)
    as [retries [rows | e]]; simpl in *; [now apply H | exact I].
Qed.

Lemma resolve_loop_ids (appId fieldCode : string) (chunks : list (list string)) :
  ∀ mapping, ids_not_empty mapping →
    ensures ids_not_empty (KintoneClient.resolve_loop E appId fieldCode chunks mapping).
Proof.
  induction chunks as [| chunk chunks IH]; intros mapping Hm.
  - now apply ensures_ret.
  - cbn [KintoneClient.resolve_loop]. cbv zeta.
    eapply ensures_bind; [| intros m' Hm'; apply IH, Hm'].
    apply ensures_try_catch; [| intros e; now apply ensures_ret].
    eapply ensures_bind; [apply ensures_any |]. intros _ _.
    eapply ensures_bind; [apply send_getRecords_rows |]. intros rows Hrows.
    apply ensures_ret. now apply note_rows_ids.
Qed.

Lemma null_map_ids (recordNumbers : list string) (mapping : gmap string (option string)) :
  ids_not_empty mapping →
  ids_not_empty (fold_left (fun m rn => <[rn := None]> m) recordNumbers mapping).
Proof.
  revert mapping. induction recordNumbers as [| rn l IH]; intros mapping Hm; [exact Hm |].
  cbn [fold_left]. apply IH. apply insert_ids_not_empty; [exact Hm | discriminate].
Qed.

Lemma findRecordIds_ids (appId : string) (recordNumbers : list string) :
  ensures ids_not_empty (KintoneClient.findRecordIdsByRecordNumbers E appId recordNumbers).
Proof.
  unfold KintoneClient.findRecordIdsByRecordNumbers. cbv zeta.
  assert (H0 : ids_not_empty
                 (fold_left (fun m rn => <[rn := None]> m) recordNumbers ∅)).
  { apply null_map_ids. intros k i. rewrite lookup_empty. discriminate. }
  destruct recordNumbers as [| rn l]; [now apply ensures_ret |].
  eapply ensures_bind; [apply ensures_any |]. intros fieldCode _.
  destruct fieldCode as [code |]; [| now apply ensures_ret].
  destruct (KintoneClient.text_truthy (Some code)); [| now apply ensures_ret].
  now apply resolve_loop_ids.
Qed.

(** With a service that sends ids as text, the mapping a restore works
    with holds no empty id: a key resolves exactly when the mapping holds
    a non-null id for it. *)
Lemma resolve_keys_ids (appId : string) (uniqueRecordNumbers : list string) :
  ensures ids_not_empty (resolve_keys E appId uniqueRecordNumbers).
Proof.
  unfold resolve_keys.
  assert (H0 : ids_not_empty ∅) by (intros k i; rewrite lookup_empty; discriminate).
  destruct uniqueRecordNumbers; [now apply ensures_ret |].
  apply ensures_try_catch; [apply findRecordIds_ids | intros e; now apply ensures_ret].
Qed.

End Resolver.

Lemma resolves_to_non_null (mapping : gmap string (option string)) (key : option string)
    (i : string) :
  ids_not_empty mapping →
  (resolves_to mapping key = Some i ↔ ∃ n, key = Some n ∧ mapping !! n = Some (Some i)).
Proof.
  intros Hm. unfold resolves_to. split.
  - destruct key as [n |]; [| discriminate].
    destruct (mapping !! n) as [[j |] |] eqn:Hn; try discriminate.
    destruct (String.eqb j ""); [discriminate |].
    intros [= ->]. now exists n.
  - intros (n & -> & Hn). rewrite Hn.
    destruct (String.eqb i "") eqn:Hi; [| reflexivity].
    apply String.eqb_eq in Hi. now apply Hm in Hn.
Qed.

(** *** Status *)

(** The cases of the status rule. *)
Lemma restore_status_cases (added updated : Z) :
  restore_status false false added updated = Database.ST_SUCCESS
  ∧ (0 < added → restore_status true false added 0 = Database.ST_PARTIAL)
  ∧ (0 < updated → restore_status false true 0 updated = Database.ST_PARTIAL)
  ∧ restore_status true true 0 0 = Database.ST_FAILURE
  ∧ restore_status true false 0 0 = Database.ST_SUCCESS
  ∧ restore_status false true 0 0 = Database.ST_SUCCESS.
Proof.
  unfold restore_status. repeat split; try reflexivity.
  - intros H. simpl. destruct (added >? 0) eqn:E; [reflexivity | lia].
  - intros H. simpl. destruct (updated >? 0) eqn:E; [reflexivity | lia].
Qed.

(** C1 (the code where the only attempted partition fails): the archive
    holds one record, its key resolves to live record 101, so the update
    partition is the only one sent; the update call fails, no addition is
    attempted, and the restore ends with status success and
    [success = true]. *)
Theorem restore_only_partition_failed_is_success :
  let run := restoreBackup (Samples.env_where [Samples.live_row "1" "101"] true false)
               Samples.sample_config 1 Samples.restore_all
               (Samples.archived_world [Samples.customer "1" "山田"]) in
  run.2 = Ok {| success := true;
                restored_appId := "10";
                restored_appName := Some "顧客";
                recordCount := 1;
                addedCount := 0;
                updatedCount := 0;
                derived_status := Database.ST_SUCCESS |}
  ∧ List.filter is_write (trace run.1)
    = [UpdateRecords "10"
         [{| id := "101";
             record := JObj [("顧客名", JObj [("type", JStr "SINGLE_LINE_TEXT");
                                             ("value", JStr "山田")])] |}]]
  ∧ on_updateRecords (remote (Samples.env_where [Samples.live_row "1" "101"] true false))
      2 "10" [{| id := "101";
                 record := JObj [("顧客名", JObj [("type", JStr "SINGLE_LINE_TEXT");
                                                 ("value", JStr "山田")])] |}]
    = (5, Throw (Error "520")).
Proof.
  cbv zeta. split; [vm_compute; reflexivity |].
  split; [vm_compute; reflexivity | reflexivity].
Qed.

(** C3 (the code, below the top level).  The archive holds one order; a
    row of its table has a computed field.  No live record has the key of
    the order, so the restore sends the order as an addition, and reports
    success.  The record sent is the cleaned order: its identifier and
    its computed field at top level are gone, but the computed field of
    the table row is still in it, with its type [CALC], which is one of
    the read-only types that the restore is to leave out. *)
Theorem restore_sends_nested_computed_field :
  let run := restoreBackup (Samples.env_where [] false false)
               Samples.sample_config 1 Samples.restore_all
               (Samples.archived_world [Samples.order_record]) in
  List.filter is_write (trace run.1) = [AddRecords "10" [Samples.order_cleaned]]
  ∧ (success <$> match run.2 with Ok r => Some r | Throw _ => None end) = Some true
  ∧ Js.prop Samples.order_cleaned "$id" = None
  ∧ Js.prop Samples.order_cleaned "合計" = None
  ∧ ("小計", Samples.subtotal) ∈ deep_members Samples.order_cleaned
  ∧ Js.prop Samples.subtotal "type" = Some (JStr "CALC")
  ∧ "CALC" ∈ READONLY_FIELD_TYPES.
Proof.
  cbv zeta.
  split; [vm_compute; reflexivity |].
  split; [vm_compute; reflexivity |].
  split; [reflexivity |]. split; [reflexivity |].
  split; [apply list_elem_of_In; vm_compute; tauto |].
  split; [reflexivity |].
  apply list_elem_of_In. vm_compute. tauto.
Qed.

(** The scenarios of the specification: key 1 resolves to live record 101
    and key 2 to nothing; both partitions are sent. *)
Example restore_of_two_keys :
  let run := restoreBackup (Samples.env_where [Samples.live_row "1" "101"] false false)
               Samples.sample_config 1 Samples.restore_all
               (Samples.archived_world [Samples.customer "1" "山田"; Samples.customer "2" "田中"]) in
  List.filter is_write (trace run.1)
  = [UpdateRecords "10"
       [{| id := "101";
           record := JObj [("顧客名", JObj [("type", JStr "SINGLE_LINE_TEXT");
                                           ("value", JStr "山田")])] |}];
     AddRecords "10"
       [JObj [("顧客名", JObj [("type", JStr "SINGLE_LINE_TEXT"); ("value", JStr "田中")])]]]
  ∧ (derived_status <$> match run.2 with Ok r => Some r | Throw _ => None end)
    = Some Database.ST_SUCCESS.
Proof. cbv zeta. split; vm_compute; reflexivity. Qed.

(** The update partition fails and the add partition succeeds. *)
Example restore_with_failed_updates :
  let run := restoreBackup (Samples.env_where [Samples.live_row "1" "101"] true false)
               Samples.sample_config 1 Samples.restore_all
               (Samples.archived_world [Samples.customer "1" "山田"; Samples.customer "2" "田中"]) in
  run.2 = Ok {| success := true;
                restored_appId := "10";
                restored_appName := Some "顧客";
                recordCount := 2;
                addedCount := 1;
                updatedCount := 0;
                derived_status := Database.ST_PARTIAL |}.
Proof. cbv zeta. vm_compute. reflexivity. Qed.

(** Both partitions are sent and both fail. *)
Example restore_with_both_failed :
  let run := restoreBackup (Samples.env_where [Samples.live_row "1" "101"] true true)
               Samples.sample_config 1 Samples.restore_all
               (Samples.archived_world [Samples.customer "1" "山田"; Samples.customer "2" "田中"]) in
  run.2 = Ok {| success := false;
                restored_appId := "10";
                restored_appName := Some "顧客";
                recordCount := 2;
                addedCount := 0;
                updatedCount := 0;
                derived_status := Database.ST_FAILURE |}.
Proof. cbv zeta. vm_compute. reflexivity. Qed.

End RestoreProps.

(** ** The metadata store: identifiers, markers, baselines, queries *)

Module StoreQueries.
Import Database.

Local Open Scope list_scope.

(** *** Run identifiers *)

(** [insertBackup] issues an identifier above every identifier of the
    table, stores the row under it and leaves every other row, the apps
    and the markers as they are; the sequence stays above the table. *)
Theorem insertBackup_issues_fresh_id (d : db) (row : backup_row) :
  ids_bounded d →
  let d' := (insertBackup d row).1 in
  let id := (insertBackup d row).2 in
  backups d !! id = None
  ∧ (∀ j r, backups d !! j = Some r → j < id)
  ∧ getBackupById d' id = Some row
  ∧ (∀ j, j ≠ id → getBackupById d' j = getBackupById d j)
  ∧ apps d' = apps d
  ∧ record_index d' = record_index d
  ∧ ids_bounded d'.
Proof.
  intros Hb. cbv zeta. unfold insertBackup, getBackupById. simpl.
  assert (Hlt : ∀ j r, backups d !! j = Some r → j < backups_seq d + 1).
  { intros j r Hj. specialize (Hb j r Hj). lia. }
  split.
  { destruct (backups d !! (backups_seq d + 1)) as [r |] eqn:Hr; [| reflexivity].
    specialize (Hlt _ _ Hr). lia. }
  split; [exact Hlt |].
  split; [apply lookup_insert_eq |].
  split; [intros j Hj; now apply lookup_insert_ne |].
  split; [reflexivity |]. split; [reflexivity |].
  intros j r. simpl. rewrite lookup_insert.
  case_decide as Hj.
  - intros _. lia.
  - intros Hr. specialize (Hb j r Hr). lia.
Qed.

Lemma insertBackup_issues_fresh_id_witness :
  backups Samples.sample_db !! 2 = None
  ∧ (∀ j r, backups Samples.sample_db !! j = Some r → j < 2)
  ∧ getBackupById (insertBackup Samples.sample_db Samples.finished_run).1 2
    = Some Samples.finished_run
  ∧ (∀ j, j ≠ 2 →
       getBackupById (insertBackup Samples.sample_db Samples.finished_run).1 j
       = getBackupById Samples.sample_db j)
  ∧ apps (insertBackup Samples.sample_db Samples.finished_run).1 = apps Samples.sample_db
  ∧ record_index (insertBackup Samples.sample_db Samples.finished_run).1
    = record_index Samples.sample_db
  ∧ ids_bounded (insertBackup Samples.sample_db Samples.finished_run).1.
Proof.
  apply (insertBackup_issues_fresh_id Samples.sample_db Samples.finished_run).
  intros id row. unfold Samples.sample_db. simpl.
  rewrite lookup_singleton_Some. intros [<- _]. lia.
Defined.

Lemma ids_bounded_same_rows (d d' : db) :
  (∀ id, is_Some (backups d' !! id) → is_Some (backups d !! id)) →
  backups_seq d' = backups_seq d →
  ids_bounded d → ids_bounded d'.
Proof.
  intros Hsub Hseq Hb id row Hrow. rewrite Hseq.
  destruct (Hsub id (mk_is_Some _ _ Hrow)) as [r Hr]. exact (Hb id r Hr).
Qed.

(** What an operation other than [insertBackup] does to the runs: the
    sequence is not moved and no run is added. *)
Lemma perform_keeps_sequence (d : db) (op : operation) :
  (∀ r, op ≠ Insert_backup r) →
  backups_seq (perform d op) = backups_seq d
  ∧ ∀ j, backups d !! j = None → backups (perform d op) !! j = None.
Proof.
  intros Hop. destruct op as [r | backupId us | backupId fault | | |];
    cbn [perform].
  - now destruct (Hop r).
  - split; [reflexivity |]. intros j Hj. unfold updateBackup. simpl.
    now apply lookup_alter_None.
  - unfold deleteBackup_run. destruct fault as [[| [| n]] |]; simpl;
      (split; [reflexivity |]); intros j Hj; try exact Hj;
      apply lookup_delete_None; now right.
  - split; [reflexivity |]. intros j Hj. exact Hj.
  - split; [reflexivity |]. intros j Hj. exact Hj.
  - split; [reflexivity |]. intros j Hj. exact Hj.
Qed.

(** The sequence stays at or above the table and an identifier below it
    that names no run, whatever is done. *)
Lemma perform_keeps_free (id : Z) (d : db) (op : operation) :
  ids_bounded d → id <= backups_seq d → backups d !! id = None →
  ids_bounded (perform d op)
  ∧ backups_seq d <= backups_seq (perform d op)
  ∧ backups (perform d op) !! id = None.
Proof.
  intros Hb Hid Hfree.
  assert (Hop : (∃ r, op = Insert_backup r) ∨ (∀ r, op ≠ Insert_backup r)).
  { destruct op; try (right; discriminate). left. now eexists. }
  destruct Hop as [[r ->] | Hop].
  - cbn [perform]. unfold insertBackup. simpl. split; [| split; [lia |]].
    + intros j row. simpl. intros Hj.
      destruct (decide (j = backups_seq d + 1)) as [-> | Hne]; [lia |].
      rewrite lookup_insert_ne in Hj by congruence.
      specialize (Hb j row Hj). lia.
    + rewrite lookup_insert_ne by lia. exact Hfree.
  - destruct (perform_keeps_sequence d op Hop) as [Hseq Hnone].
    split; [| split; [lia | now apply Hnone]].
    intros j row Hj. rewrite Hseq.
    destruct (backups d !! j) as [r0 |] eqn:Hj0; [exact (Hb j r0 Hj0) |].
    rewrite (Hnone j Hj0) in Hj. discriminate.
Qed.

Lemma perform_all_keeps_free (id : Z) (ops : list operation) :
  ∀ d, ids_bounded d → id <= backups_seq d → backups d !! id = None →
       ids_bounded (perform_all d ops)
       ∧ backups_seq d <= backups_seq (perform_all d ops)
       ∧ backups (perform_all d ops) !! id = None.
Proof.
  induction ops as [| op ops IH]; intros d Hb Hid Hfree.
  - cbn. split; [exact Hb |]. split; [lia | exact Hfree].
  - destruct (perform_keeps_free id d op Hb Hid Hfree) as (Hb1 & Hs1 & Hf1).
    destruct (IH (perform d op) Hb1 ltac:(lia) Hf1) as (Hb2 & Hs2 & Hf2).
    change (perform_all d (op :: ops)) with (perform_all (perform d op) ops).
    split; [exact Hb2 |]. split; [lia | exact Hf2].
Qed.

(** Identifiers are not reused.  Of the operations of the store only
    [insertBackup] moves the sequence, upwards, and no other adds a run.
    So once [deleteBackup] has removed a run, whatever operations follow
    (inserts and failing deletes among them), the sequence is at or
    above the table and has not gone down, no run has the identifier of
    the removed run, and the next [insertBackup] issues a greater one. *)
Theorem deleted_id_is_not_reused (d : db) (id : Z) (old row : backup_row)
    (ops : list operation) :
  ids_bounded d → backups d !! id = Some old →
  (∀ d0 op, (∀ r, op ≠ Insert_backup r) →
     backups_seq (perform d0 op) = backups_seq d0
     ∧ ∀ j, backups d0 !! j = None → backups (perform d0 op) !! j = None)
  ∧ (∀ d0 r, backups_seq (insertBackup d0 r).1 = backups_seq d0 + 1
             ∧ (insertBackup d0 r).2 = backups_seq d0 + 1)
  ∧ let d' := perform_all (deleteBackup d id) ops in
    ids_bounded d'
    ∧ backups_seq d <= backups_seq d'
    ∧ getBackupById d' id = None
    ∧ id < (insertBackup d' row).2.
Proof.
  intros Hb Hold.
  split; [intros d0 op; apply perform_keeps_sequence |].
  split; [intros d0 r; split; reflexivity |].
  cbv zeta.
  assert (Hdel : ids_bounded (deleteBackup d id)).
  { intros j r. unfold deleteBackup. simpl. intros Hj.
    apply lookup_delete_Some in Hj as [_ Hj]. exact (Hb j r Hj). }
  assert (Hid : id <= backups_seq (deleteBackup d id)) by exact (Hb id old Hold).
  assert (Hfree : backups (deleteBackup d id) !! id = None).
  { unfold deleteBackup. simpl. apply lookup_delete_eq. }
  destruct (perform_all_keeps_free id ops _ Hdel Hid Hfree) as (Hb' & Hseq & Hnone).
  split; [exact Hb' |]. split; [exact Hseq |]. split; [exact Hnone |].
  unfold insertBackup. cbn [snd].
  change (backups_seq (deleteBackup d id)) with (backups_seq d) in *. lia.
Qed.

Lemma deleted_id_is_not_reused_witness :
  let ops := [Insert_backup Samples.finished_run; Delete_backup 2 (Some 1%nat);
              Upsert_record_index "10" "1" "5" 2; Delete_backup 2 None;
              Insert_backup Samples.finished_run] in
  (∀ d0 op, (∀ r, op ≠ Insert_backup r) →
     backups_seq (perform d0 op) = backups_seq d0
     ∧ ∀ j, backups d0 !! j = None → backups (perform d0 op) !! j = None)
  ∧ (∀ d0 r, backups_seq (insertBackup d0 r).1 = backups_seq d0 + 1
             ∧ (insertBackup d0 r).2 = backups_seq d0 + 1)
  ∧ let d' := perform_all (deleteBackup Samples.sample_db 1) ops in
    ids_bounded d'
    ∧ backups_seq Samples.sample_db <= backups_seq d'
    ∧ getBackupById d' 1 = None
    ∧ 1 < (insertBackup d' Samples.finished_run).2.
Proof.
  intros ops.
  apply (deleted_id_is_not_reused Samples.sample_db 1 Samples.finished_run
           Samples.finished_run ops).
  - intros id row. unfold Samples.sample_db. simpl.
    rewrite lookup_singleton_Some. intros [<- _]. lia.
  - reflexivity.
Defined.

(** *** Record markers *)

(** A record has one marker, which names the run that saved it last:
    [upsertRecordIndex] replaces the marker of the record and no other,
    and the marker then goes with that run, not with an earlier one, when
    a run is deleted. *)
Theorem marker_follows_latest_run (d : db) (appId recordId updatedTime : string)
    (earlier later : Z) :
  earlier ≠ later →
  let d' := upsertRecordIndex d appId recordId updatedTime later in
  let m := {| updated_time := updatedTime; last_backup_id := Some later |} in
  record_index d' !! (appId, recordId) = Some m
  ∧ (∀ k, k ≠ (appId, recordId) → record_index d' !! k = record_index d !! k)
  ∧ record_index (deleteBackup d' earlier) !! (appId, recordId) = Some m
  ∧ record_index (deleteBackup d' later) !! (appId, recordId) = None
  ∧ backups d' = backups d ∧ apps d' = apps d.
Proof.
  intros Hne. cbv zeta. unfold upsertRecordIndex, deleteBackup. simpl.
  split; [apply lookup_insert_eq |].
  split; [intros k Hk; now apply lookup_insert_ne |].
  split.
  { apply map_lookup_filter_Some. split; [apply lookup_insert_eq |].
    simpl. intros [= H]. now apply Hne. }
  split; [| split; reflexivity].
  destruct (filter _ _ !! (appId, recordId)) as [m |] eqn:Hm; [| reflexivity].
  apply map_lookup_filter_Some in Hm as [Hm Hkeep].
  rewrite lookup_insert_eq in Hm. injection Hm as <-.
  simpl in Hkeep. now contradiction Hkeep.
Qed.

Lemma marker_follows_latest_run_witness :
  let d' := upsertRecordIndex Samples.sample_db "10" "1" "6" 2 in
  let m := {| updated_time := "6"; last_backup_id := Some 2 |} in
  record_index d' !! ("10", "1") = Some m
  ∧ (∀ k, k ≠ ("10", "1") → record_index d' !! k = record_index Samples.sample_db !! k)
  ∧ record_index (deleteBackup d' 1) !! ("10", "1") = Some m
  ∧ record_index (deleteBackup d' 2) !! ("10", "1") = None
  ∧ backups d' = backups Samples.sample_db ∧ apps d' = apps Samples.sample_db.
Proof.
  apply (marker_follows_latest_run Samples.sample_db "10" "1" "6" 1 2). lia.
Defined.

(** *** Baselines *)

(** [updateAppLastBackup] is an UPDATE: for an app without a row it
    changes nothing, and the app still has no baseline; for an app with a
    row the time becomes its baseline, and also its full-backup time when
    the backup was a full one.  Other apps are not touched. *)
Theorem updateAppLastBackup_needs_a_row (d : db) (appId backupDatetime : string)
    (isFullBackup : bool) :
  let d' := updateAppLastBackup d appId backupDatetime isFullBackup in
  (apps d !! appId = None → d' = d ∧ getLastBackupDatetime d' appId = None)
  ∧ (∀ a, apps d !! appId = Some a →
       getLastBackupDatetime d' appId
       = Some (Some backupDatetime,
               if isFullBackup then Some backupDatetime
               else last_full_backup_datetime a))
  ∧ (∀ other, other ≠ appId →
       getLastBackupDatetime d' other = getLastBackupDatetime d other)
  ∧ backups d' = backups d ∧ record_index d' = record_index d.
Proof.
  cbv zeta. unfold updateAppLastBackup, getLastBackupDatetime. simpl.
  split; [| split; [| split; [| split; reflexivity]]].
  - intros Hnone. rewrite alter_id' by exact Hnone.
    split; [destruct d; reflexivity |]. now rewrite Hnone.
  - intros a Ha. rewrite lookup_alter_eq, Ha. reflexivity.
  - intros other Hne. rewrite lookup_alter_ne by congruence. reflexivity.
Qed.

(** [upsertApp] gives the app a row: a new row has no baseline, a row
    that was there keeps the baselines it had, and from then on the time
    of a backup is recorded for the app. *)
Theorem upsertApp_then_baseline_is_recorded (d : db) (appData : app_data)
    (backupDatetime : string) :
  let appId := d_app_id appData in
  let d' := upsertApp d appData in
  getLastBackupDatetime d' appId
  = Some (default (None, None) (getLastBackupDatetime d appId))
  ∧ getLastBackupDatetime (updateAppLastBackup d' appId backupDatetime true) appId
    = Some (Some backupDatetime, Some backupDatetime)
  ∧ (∀ other, other ≠ appId →
       getLastBackupDatetime d' other = getLastBackupDatetime d other)
  ∧ backups d' = backups d ∧ record_index d' = record_index d.
Proof.
  cbv zeta. unfold upsertApp, updateAppLastBackup, getLastBackupDatetime. simpl.
  split; [| split; [| split; [| split; reflexivity]]].
  - rewrite lookup_insert_eq. simpl.
    destruct (apps d !! d_app_id appData) as [a |]; reflexivity.
  - rewrite lookup_alter_eq, lookup_insert_eq. reflexivity.
  - intros other Hne. rewrite lookup_insert_ne by congruence. reflexivity.
Qed.

(** *** Queries *)

Lemma sorted_take {A} (R : A → A → Prop) (n : nat) (l : list A) :
  Sorted R l → Sorted R (take n l).
Proof.
  intros Hs. revert n. induction Hs as [| a l Hs IH Hhd]; intros [| n]; simpl;
    try constructor.
  - apply IH.
  - destruct Hhd as [| b l' Hab]; destruct n; simpl; constructor. exact Hab.
Qed.

Lemma apply_limit_sublist {A} (limit : option Z) (rows : list A) (x : A) :
  x ∈ apply_limit limit rows → x ∈ rows.
Proof.
  unfold apply_limit. destruct limit as [n |]; [| auto].
  destruct (n <=? 0); [auto |]. intros H.
  rewrite <- (take_drop (Z.to_nat n) rows). apply elem_of_app. now left.
Qed.

#[local] Instance newest_first_total : Total newest_first.
Proof. intros x y. unfold newest_first. apply String.leb_total. Qed.

#[local] Instance oldest_first_total : Total oldest_first.
Proof. intros x y. unfold oldest_first. apply String.leb_total. Qed.

#[local] Instance by_name_total : Total by_name.
Proof.
  intros x y. unfold by_name.
  destruct (a_app_name (snd x)) as [a |], (a_app_name (snd y)) as [b |]; auto.
  apply String.leb_total.
Qed.

Lemma NoDup_list_filter {A} (keep : A → bool) (l : list A) :
  NoDup l → NoDup (List.filter keep l).
Proof. rewrite !NoDup_ListNoDup. apply List.NoDup_filter. Qed.

(** The rows a query selects, before ordering. *)
Lemma elem_of_selected {K A} `{Countable K} (keep : K * A → bool) (m : gmap K A)
    (R : relation (K * A)) `{∀ x y, Decision (R x y)} (k : K) (a : A) :
  (k, a) ∈ merge_sort R (List.filter keep (map_to_list m))
  ↔ m !! k = Some a ∧ keep (k, a) = true.
Proof.
  rewrite merge_sort_Permutation, list_elem_of_In, filter_In, <- list_elem_of_In.
  now rewrite elem_of_map_to_list.
Qed.

Lemma NoDup_selected {K A} `{Countable K} (keep : K * A → bool) (m : gmap K A)
    (R : relation (K * A)) `{∀ x y, Decision (R x y)} :
  NoDup (merge_sort R (List.filter keep (map_to_list m))).
Proof.
  rewrite merge_sort_Permutation. apply NoDup_list_filter, NoDup_map_to_list.
Qed.

(** [getBackupHistory] answers with runs of the table that pass every
    filter given, each at most once, the newest first; with a limit it
    answers with the first rows of the answer without one, and without a
    limit (none, zero or negative) with every run that passes. *)
Theorem getBackupHistory_selects_and_orders (d : db) (filters : history_filters) :
  let unlimited :=
    {| f_app_id := f_app_id filters; f_backup_type := f_backup_type filters;
       f_status := f_status filters; f_start_date := f_start_date filters;
       f_end_date := f_end_date filters; f_limit := None |} in
  (∀ id row, (id, row) ∈ getBackupHistory d filters →
             getBackupById d id = Some row ∧ history_match filters row = true)
  ∧ Sorted newest_first (getBackupHistory d filters)
  ∧ NoDup (getBackupHistory d filters)
  ∧ (∀ id row, getBackupById d id = Some row → history_match filters row = true →
               (id, row) ∈ getBackupHistory d unlimited)
  ∧ (∀ n, f_limit filters = Some n → 0 < n →
          getBackupHistory d filters = take (Z.to_nat n) (getBackupHistory d unlimited))
  ∧ (∀ n, f_limit filters = Some n → n <= 0 →
          getBackupHistory d filters = getBackupHistory d unlimited)
  ∧ (f_limit filters = None →
     getBackupHistory d filters = getBackupHistory d unlimited).
Proof.
  cbv zeta. unfold getBackupHistory, getBackupById. simpl.
  set (keep := fun kv : Z * backup_row => history_match filters (snd kv)).
  change (fun kv : Z * backup_row =>
            history_match
              {| f_app_id := f_app_id filters; f_backup_type := f_backup_type filters;
                 f_status := f_status filters; f_start_date := f_start_date filters;
                 f_end_date := f_end_date filters; f_limit := None |} (snd kv))
    with keep.
  set (rows := merge_sort newest_first (List.filter keep (map_to_list (backups d)))).
  assert (Hsorted : Sorted newest_first rows)
    by (apply Sorted_merge_sort; apply _).
  assert (Hnodup : NoDup rows) by apply NoDup_selected.
  split; [| split; [| split; [| split; [| split; [| split]]]]].
  - intros id row Hin. apply apply_limit_sublist in Hin.
    apply elem_of_selected in Hin. exact Hin.
  - unfold apply_limit. destruct (f_limit filters) as [n |]; [| exact Hsorted].
    destruct (n <=? 0); [exact Hsorted | now apply sorted_take].
  - unfold apply_limit. destruct (f_limit filters) as [n |]; [| exact Hnodup].
    destruct (n <=? 0); [exact Hnodup |].
    rewrite <- (take_drop (Z.to_nat n) rows) in Hnodup.
    now apply NoDup_app in Hnodup as [Hnodup _].
  - intros id row Hrow Hmatch. apply elem_of_selected. now split.
  - intros n -> Hn. simpl. destruct (n <=? 0) eqn:E; [lia | reflexivity].
  - intros n -> Hn. simpl. destruct (n <=? 0) eqn:E; [reflexivity | lia].
  - intros ->. reflexivity.
Qed.

(** [getRecordsToBackup] lists a record of the app exactly when its
    marker carries a time after the given one, with that time, once, the
    oldest first. *)
Theorem getRecordsToBackup_lists_later_markers (d : db) (appId sinceDateTime : string) :
  (∀ recordId t,
     (recordId, t) ∈ getRecordsToBackup d appId sinceDateTime
     ↔ ∃ m, record_index d !! (appId, recordId) = Some m
            ∧ updated_time m = t
            ∧ String.ltb sinceDateTime t = true)
  ∧ Sorted oldest_first (getRecordsToBackup d appId sinceDateTime)
  ∧ NoDup (map fst (getRecordsToBackup d appId sinceDateTime)).
Proof.
  unfold getRecordsToBackup.
  set (keep := fun km : string * string * marker =>
                 String.eqb (fst (fst km)) appId
                 && String.ltb sinceDateTime (updated_time (snd km))).
  set (project := fun km : string * string * marker =>
                    (snd (fst km), updated_time (snd km))).
  assert (Hkeep : ∀ km, km ∈ List.filter keep (map_to_list (record_index d))
                  ↔ record_index d !! fst km = Some (snd km) ∧ keep km = true).
  { intros [k m]. rewrite list_elem_of_In, filter_In, <- list_elem_of_In.
    now rewrite elem_of_map_to_list. }
  split; [| split].
  - intros recordId t. rewrite merge_sort_Permutation.
    change (map project ?l) with (project <$> l). rewrite list_elem_of_fmap. split.
    + intros ([[a r] m] & Heq & Hin). apply Hkeep in Hin as [Hm Hk].
      unfold project in Heq. simpl in *. injection Heq as -> ->.
      unfold keep in Hk. simpl in Hk. apply andb_true_iff in Hk as [Ha Ht].
      apply String.eqb_eq in Ha. subst a. now exists m.
    + intros (m & Hm & <- & Ht). exists ((appId, recordId), m).
      split; [reflexivity |]. apply Hkeep. simpl. split; [exact Hm |].
      unfold keep. simpl. now rewrite String.eqb_refl, Ht.
  - apply Sorted_merge_sort. apply _.
  - rewrite merge_sort_Permutation.
    change (map fst (map project ?l)) with (fst <$> (project <$> l)).
    rewrite <- list_fmap_compose.
    apply NoDup_fmap_2_strong.
    + intros [[a r] m] [[a' r'] m'] Hin Hin' Heq.
      apply Hkeep in Hin as [Hm Hk]. apply Hkeep in Hin' as [Hm' Hk'].
      unfold keep in Hk, Hk'. simpl in *.
      apply andb_true_iff in Hk as [Ha _]. apply andb_true_iff in Hk' as [Ha' _].
      apply String.eqb_eq in Ha, Ha'. subst a a' r'.
      rewrite Hm in Hm'. now injection Hm' as ->.
    + apply NoDup_list_filter, NoDup_map_to_list.
Qed.

(** [getAllApps], when it answers: the rows are rows of the table with
    their columns, each app at most once, ordered by name with the
    nameless first; every app is listed, or every active app and no
    other when only the active ones are asked for. *)
Theorem getAllApps_lists_apps_by_name (d : db) (activeOnly : bool)
    (views : list app_view) :
  getAllApps d activeOnly = Some views →
  (∀ v, v ∈ views →
     ∃ a, apps d !! v_app_id v = Some a
          ∧ v_app_name v = a_app_name a
          ∧ v_is_active v = is_active a
          ∧ v_last_backup_datetime v = last_backup_datetime a
          ∧ v_last_full_backup_datetime v = last_full_backup_datetime a
          ∧ (activeOnly = true → is_active a = true))
  ∧ (∀ appId a, apps d !! appId = Some a → (activeOnly = true → is_active a = true) →
       ∃ v, v ∈ views ∧ v_app_id v = appId)
  ∧ NoDup (map v_app_id views)
  ∧ Sorted (fun v v' => match v_app_name v, v_app_name v' with
                        | None, _ => True
                        | Some _, None => False
                        | Some n, Some n' => String.leb n n' = true
                        end) views.
Proof.
  unfold getAllApps.
  set (keep := fun kv : string * app_row => negb activeOnly || is_active (snd kv)).
  set (rows := merge_sort by_name (List.filter keep (map_to_list (apps d)))).
  intros Hviews. apply mapM_Some_1 in Hviews.
  assert (Hrows : ∀ k a, (k, a) ∈ rows ↔ apps d !! k = Some a ∧ keep (k, a) = true)
    by (intros k a; apply elem_of_selected).
  assert (Hview : ∀ kv v, view_app kv = Some v →
            v_app_id v = fst kv ∧ v_app_name v = a_app_name (snd kv)
            ∧ v_is_active v = is_active (snd kv)
            ∧ v_last_backup_datetime v = last_backup_datetime (snd kv)
            ∧ v_last_full_backup_datetime v = last_full_backup_datetime (snd kv)).
  { intros kv v. unfold view_app.
    destruct (parse_field_info (field_info (snd kv))) as [info |]; [| discriminate].
    simpl. intros [= <-]. simpl. auto. }
  assert (Hkeep : ∀ a k, keep (k, a) = true ↔ (activeOnly = true → is_active a = true)).
  { intros a k. unfold keep. simpl. destruct activeOnly, (is_active a); simpl; intuition. }
  split; [| split; [| split]].
  - intros v Hv. apply list_elem_of_lookup_1 in Hv as [i Hvi].
    destruct (Forall2_lookup_r _ _ _ _ _ Hviews Hvi) as ([k a] & Hk & Hva).
    apply list_elem_of_lookup_2 in Hk. apply Hrows in Hk as [Ha Hact].
    destruct (Hview _ _ Hva) as (Hid & Hn & Hi & Hl & Hf). simpl in *.
    exists a. rewrite Hid. repeat (split; [assumption |]). now apply Hkeep with k.
  - intros appId a Ha Hact.
    assert (Hin : (appId, a) ∈ rows) by (apply Hrows; split; [exact Ha | now apply Hkeep]).
    apply list_elem_of_lookup_1 in Hin as [i Hri].
    destruct (Forall2_lookup_l _ _ _ _ _ Hviews Hri) as (v & Hv & Hva).
    exists v. split; [now apply list_elem_of_lookup_2 with i |].
    now destruct (Hview _ _ Hva) as (Hid & _).
  - assert (Hids : map v_app_id views = map fst rows).
    { clear Hrows. induction Hviews as [| kv v rows' views' Hva _ IH]; [reflexivity |].
      simpl. rewrite IH. now destruct (Hview _ _ Hva) as (-> & _). }
    rewrite Hids. unfold rows. rewrite merge_sort_Permutation.
    apply NoDup_fmap_2_strong; [| apply NoDup_list_filter, NoDup_map_to_list].
    intros [k a] [k' a'] Hin Hin' Heq. simpl in Heq. subst k'.
    rewrite list_elem_of_In, filter_In, <- list_elem_of_In, elem_of_map_to_list in Hin.
    rewrite list_elem_of_In, filter_In, <- list_elem_of_In, elem_of_map_to_list in Hin'.
    destruct Hin as [Hin _], Hin' as [Hin' _]. rewrite Hin in Hin'. now injection Hin' as ->.
  - assert (Hsorted : Sorted by_name rows) by (apply Sorted_merge_sort; apply _).
    clear Hrows. revert Hsorted.
    induction Hviews as [| kv v rows' views' Hva Hrest IH]; intros Hs; [constructor |].
    apply Sorted_inv in Hs as [Hs Hhd]. constructor; [now apply IH |].
    destruct Hrest as [| kv' v' rows'' views'' Hva' _]; constructor.
    apply HdRel_inv in Hhd. unfold by_name in Hhd.
    destruct (Hview _ _ Hva) as (_ & -> & _), (Hview _ _ Hva') as (_ & -> & _).
    exact Hhd.
Qed.

Lemma getAllApps_lists_apps_by_name_witness :
  (∀ v, v ∈ [Samples.scheduled_view] →
     ∃ a, apps Samples.scheduled_db !! v_app_id v = Some a
          ∧ v_app_name v = a_app_name a
          ∧ v_is_active v = is_active a
          ∧ v_last_backup_datetime v = last_backup_datetime a
          ∧ v_last_full_backup_datetime v = last_full_backup_datetime a
          ∧ (true = true → is_active a = true))
  ∧ (∀ appId a, apps Samples.scheduled_db !! appId = Some a →
       (true = true → is_active a = true) →
       ∃ v, v ∈ [Samples.scheduled_view] ∧ v_app_id v = appId)
  ∧ NoDup (map v_app_id [Samples.scheduled_view])
  ∧ Sorted (fun v v' => match v_app_name v, v_app_name v' with
                        | None, _ => True
                        | Some _, None => False
                        | Some n, Some n' => String.leb n n' = true
                        end) [Samples.scheduled_view].
Proof.
  apply (getAllApps_lists_apps_by_name Samples.scheduled_db true [Samples.scheduled_view]).
  vm_compute. reflexivity.
Defined.

End StoreQueries.

(** ** The client: retries, counters, batches, pages *)

Module ClientProps.
Import Effects KintoneClient Runs.

Local Open Scope list_scope.

(** *** Retries *)

Lemma retryCondition_counters (c : counters) (e : axios_error) :
  retryCount (retryCondition c e).1 = retryCount c + 1
  ∧ apiRequestCount (retryCondition c e).1 = apiRequestCount c.
Proof.
  unfold retryCondition. destruct (error_response e) as [r |]; [| split; reflexivity].
  destruct ((status r =? 429) && header_truthy (retry_after r)); split; reflexivity.
Qed.

(** [retryCondition] counts the failure it is asked about, and asks for a
    retry exactly when the error is a network or idempotent-request error
    or carries one of the retryable status codes: the branch for a 429
    with a [retry-after] header decides nothing that the status code
    does not decide already. *)
Theorem retryCondition_decides_by_status (c : counters) (e : axios_error) :
  retryCount (retryCondition c e).1 = retryCount c + 1
  ∧ apiRequestCount (retryCondition c e).1 = apiRequestCount c
  ∧ ((retryCondition c e).2 = true
     ↔ isNetworkOrIdempotentRequestError e = true
       ∨ ∃ r, error_response e = Some r
              ∧ status r ∈ [429; 500; 502; 503; 504]).
Proof.
  unfold retryCondition.
  destruct (error_response e) as [r |] eqn:Hr.
  - destruct ((status r =? 429) && header_truthy (retry_after r)) eqn:Hbranch; simpl.
    + split; [reflexivity |]. split; [reflexivity |].
      split; [| reflexivity]. intros _. right. exists r. split; [reflexivity |].
      apply andb_true_iff in Hbranch as [Hs _]. apply Z.eqb_eq in Hs. rewrite Hs.
      apply elem_of_cons. now left.
    + split; [reflexivity |]. split; [reflexivity |].
      rewrite orb_true_iff, bool_decide_eq_true. split.
      * intros [H | H]; [now left | right; now exists r].
      * intros [H | (r' & [= <-] & H)]; [now left | now right].
  - simpl. split; [reflexivity |]. split; [reflexivity |]. split.
    + intros H. now left.
    + intros [H | (r & Hn & _)]; [exact H | discriminate].
Qed.

Lemma draw_of_list (randoms : list Q) :
  Forall is_draw randoms → is_draw (hd 0%Q randoms) ∧ Forall is_draw (tl randoms).
Proof.
  intros H. destruct H as [| r rs Hr Hrs]; simpl.
  - split; [split; [apply Qle_refl | reflexivity] | constructor].
  - now split.
Qed.

Lemma retryDelay_bound (done : Z) (random : Q) :
  0 <= done → is_draw random →
  (0 <= retryDelay (done + 1) random
   ∧ retryDelay (done + 1) random <= inject_Z (1200 * 2 ^ done))%Q.
Proof.
  intros Hdone [H0 H1].
  assert (Hbase0 : (0 <= baseDelay (done + 1))%Q)
    by (apply RetryPolicy.baseDelay_nonneg; lia).
  assert (Hbase : (baseDelay (done + 1) <= inject_Z (1000 * 2 ^ done))%Q).
  { rewrite RetryPolicy.baseDelay_unfold.
    eapply Qle_trans; [apply Q.le_min_l |].
    rewrite RetryPolicy.uncapped_integer by lia.
    replace (done + 1 - 1) with done by lia. apply Qle_refl. }
  destruct (RetryPolicy.jitter_bounds _ _ Hbase0 H0 H1) as [Hlo Hhi].
  unfold retryDelay. cbv zeta. split.
  - eapply Qle_trans; [| exact Hlo]. nra.
  - eapply Qle_trans; [exact Hhi |].
    replace (1200 * 2 ^ done) with (12 * (100 * 2 ^ done)) by lia.
    rewrite inject_Z_mult.
    replace (1000 * 2 ^ done) with (10 * (100 * 2 ^ done)) in Hbase by lia.
    rewrite inject_Z_mult in Hbase.
    set (x := inject_Z (100 * 2 ^ done)) in *.
    change (inject_Z 12) with 12%Q. change (inject_Z 10) with 10%Q in Hbase. nra.
Qed.

Lemma run_request_from (outcomes : list (option axios_error)) :
  ∀ (c : counters) (done : Z) (randoms : list Q),
    0 <= done <= 5 → Forall is_draw randoms →
    let out := run_request c done outcomes randoms in
    Z.of_nat (length out.1.2) <= 5 - done
    ∧ (total_wait out.1.2 <= inject_Z (1200 * (32 - 2 ^ done)))%Q
    ∧ Forall (fun d => (0 <= d)%Q) out.1.2
    ∧ retryCount c + Z.of_nat (length out.1.2) <= retryCount out.1.1
    ∧ retryCount out.1.1 <= retryCount c + (5 - done)
    ∧ apiRequestCount out.1.1 = apiRequestCount c.
Proof.
  induction outcomes as [| [e |] rest IH]; intros c done randoms Hdone Hdraws; cbv zeta.
  - simpl. repeat split; try lia; [| constructor].
    unfold total_wait. simpl. rewrite <- (Zle_Qle 0).
    assert (2 ^ done <= 2 ^ 5) by (apply Z.pow_le_mono_r; lia).
    change (2 ^ 5) with 32 in *. lia.
  - cbn [run_request]. unfold wait_before_retry.
    destruct (done <? maxRetries RETRY_CONFIG) eqn:Hlt.
    + apply Z.ltb_lt in Hlt. change (maxRetries RETRY_CONFIG) with 5 in Hlt.
      destruct (retryCondition_counters c e) as (Hr & Ha).
      destruct (retryCondition c e) as [c' retry]. simpl in Hr, Ha.
      destruct (draw_of_list randoms Hdraws) as [Hdraw Hrest].
      destruct retry.
      * specialize (IH c' (done + 1) (tl randoms) ltac:(lia) Hrest). cbv zeta in IH.
        destruct (run_request c' (done + 1) rest (tl randoms)) as [[c'' ds] ok].
        simpl in IH. destruct IH as (Hlen & Hsum & Hpos & Hlo & Hhi & Hapi).
        destruct (retryDelay_bound done (hd 0%Q randoms) ltac:(lia) Hdraw) as [Hd0 Hd1].
        simpl. split; [lia |]. split; [| split; [| split; [| split]]].
        -- unfold total_wait in *. simpl.
           replace (1200 * (32 - 2 ^ done))
             with (1200 * 2 ^ done + 1200 * (32 - 2 ^ (done + 1)))
             by (rewrite Z.pow_add_r by lia; lia).
           rewrite inject_Z_plus. now apply Qplus_le_compat.
        -- now constructor.
        -- lia.
        -- lia.
        -- congruence.
      * simpl. repeat split; try lia; try congruence; [| constructor].
        unfold total_wait. simpl. rewrite <- (Zle_Qle 0).
        assert (2 ^ done <= 2 ^ 5) by (apply Z.pow_le_mono_r; lia).
        change (2 ^ 5) with 32 in *. lia.
    + simpl. repeat split; try lia; [| constructor].
      unfold total_wait. simpl. rewrite <- (Zle_Qle 0).
      assert (2 ^ done <= 2 ^ 5) by (apply Z.pow_le_mono_r; lia).
      change (2 ^ 5) with 32 in *. lia.
  - simpl. repeat split; try lia; [| constructor].
    unfold total_wait. simpl. rewrite <- (Zle_Qle 0).
    assert (2 ^ done <= 2 ^ 5) by (apply Z.pow_le_mono_r; lia).
    change (2 ^ 5) with 32 in *. lia.
Qed.

(** A request is retried at most five times whatever the errors are, the
    time slept over all its retries is at most 37.2 s, and the retry
    counter goes up by the number of retries made, plus one when a
    failure was examined and not retried; by five at most. *)
Theorem run_request_gives_up (c : counters) (outcomes : list (option axios_error))
    (randoms : list Q) :
  Forall is_draw randoms →
  let out := run_request c 0 outcomes randoms in
  (length out.1.2 <= 5)%nat
  ∧ (total_wait out.1.2 <= 37200)%Q
  ∧ Forall (fun d => (0 <= d)%Q) out.1.2
  ∧ retryCount c + Z.of_nat (length out.1.2) <= retryCount out.1.1
  ∧ retryCount out.1.1 <= retryCount c + 5
  ∧ apiRequestCount out.1.1 = apiRequestCount c.
Proof.
  intros Hdraws.
  destruct (run_request_from outcomes c 0 randoms ltac:(lia) Hdraws)
    as (Hlen & Hsum & Hpos & Hlo & Hhi & Hapi).
  cbv zeta. split; [lia |]. split; [exact Hsum |].
  split; [exact Hpos |]. split; [exact Hlo |]. split; [lia | exact Hapi].
Qed.

Lemma run_request_gives_up_witness :
  let out := run_request {| apiRequestCount := 1; retryCount := 0 |} 0
               (repeat (Some rate_limited_60) 6) (repeat (1 # 2)%Q 6) in
  (length out.1.2 <= 5)%nat
  ∧ (total_wait out.1.2 <= 37200)%Q
  ∧ Forall (fun d => (0 <= d)%Q) out.1.2
  ∧ 0 + Z.of_nat (length out.1.2) <= retryCount out.1.1
  ∧ retryCount out.1.1 <= 0 + 5
  ∧ apiRequestCount out.1.1 = 1.
Proof.
  apply (run_request_gives_up {| apiRequestCount := 1; retryCount := 0 |}
           (repeat (Some rate_limited_60) 6) (repeat (1 # 2)%Q 6)).
  simpl. repeat (constructor; [split; [unfold Qle | unfold Qlt]; simpl; lia |]).
  constructor.
Defined.

(** *** Counters *)

(** [getAllRecords] makes one call, with the fields and the condition
    given when they are not empty, and returns its answer or throws its
    error.  It counts [Math.ceil(records.length / 500)] requests for an
    answer, none for an empty one, and one for a failed call. *)
Theorem getAllRecords_counts_pages (E : env) (appId : string)
    (fields : option (list string)) (condition : option string) (w : world) :
  let params := {| q_app := appId; q_fields := nonempty_list fields;
                   q_condition := nonempty_text condition |} in
  let answer := on_getAllRecords (remote E) (length (trace w)) params in
  let out := getAllRecords E appId fields condition w in
  out.2 = answer.2
  ∧ trace out.1 = trace w ++ [GetAllRecords params]
  ∧ retryCount (stats out.1) = retryCount (stats w) + answer.1
  ∧ (∀ records, answer.2 = Ok records →
       ∃ pages, apiRequestCount (stats out.1) = apiRequestCount (stats w) + pages
                ∧ 500 * (pages - 1) < Z.of_nat (length records) <= 500 * pages)
  ∧ (∀ e, answer.2 = Throw e →
       apiRequestCount (stats out.1) = apiRequestCount (stats w) + 1)
  ∧ store out.1 = store w ∧ archives out.1 = archives w
  ∧ attachments out.1 = attachments w.
Proof.
  cbv [getAllRecords mbind M_bind count_request send mret M_ret].
  cbn [trace with_trace with_stats stats].
  destruct (on_getAllRecords _ _ _) as [retries [records | e]];
    cbn [fst snd trace with_trace with_stats stats store archives attachments
         apiRequestCount retryCount].
  - repeat (split; [reflexivity |]). split; [| split; [| repeat split]].
    + intros rs [= <-]. exists ((Z.of_nat (length records) + 499) / 500).
      split; [lia |].
      pose proof (Z.div_mod (Z.of_nat (length records) + 499) 500 ltac:(lia)).
      pose proof (Z.mod_pos_bound (Z.of_nat (length records) + 499) 500 ltac:(lia)).
      lia.
    + intros e [=].
  - repeat (split; [reflexivity |]). split; [| split; [| repeat split]].
    + intros rs [=].
    + intros e' _. reflexivity.
Qed.

(** *** Batches *)

Lemma batches_spec {A} (n : nat) :
  (0 < n)%nat →
  ∀ (fuel : nat) (l : list A),
    (length l <= fuel)%nat →
    concat (batches fuel n l) = l
    ∧ Forall (fun b => (0 < length b <= n)%nat) (batches fuel n l)
    ∧ (n * (length (batches fuel n l) - 1) < length l ∨ l = [])%nat
    ∧ (length l <= n * length (batches fuel n l))%nat.
Proof.
  intros Hn. induction fuel as [| fuel IH]; intros l Hl.
  - destruct l; [| simpl in Hl; lia]. simpl. repeat split; auto; lia.
  - destruct l as [| x l]; [simpl; repeat split; auto; lia |].
    cbn [batches].
    assert (Hdrop : (length (drop n (x :: l)) <= fuel)%nat).
    { rewrite length_drop. simpl in *. lia. }
    destruct (IH _ Hdrop) as (Hc & Hf & Hlo & Hhi).
    assert (Htake : (length (take n (x :: l)) = Nat.min n (length (x :: l)))%nat)
      by apply length_take.
    split; [| split; [| split]].
    + cbn [concat]. rewrite Hc. apply take_drop.
    + constructor; [| exact Hf]. rewrite Htake. simpl. lia.
    + left. cbn [length]. rewrite length_drop in Hlo, Hhi.
      destruct Hlo as [Hlo | Hnil].
      * cbn [length] in *. nia.
      * rewrite Hnil in *. cbn [batches length] in *.
        destruct fuel; simpl; lia.
    + cbn [length]. rewrite length_drop in Hhi. cbn [length] in *. nia.
Qed.

Lemma send_run {A} (c : call) (answer : nat → reply A) (w : world) :
  send c answer w
  = (with_trace
       (with_stats w {| apiRequestCount := apiRequestCount (stats w);
                        retryCount := retryCount (stats w) + (answer (length (trace w))).1 |})
       (trace w ++ [c]), (answer (length (trace w))).2).
Proof. unfold send. destruct (answer (length (trace w))). reflexivity. Qed.

Lemma count_then {A} (n : Z) (f : unit → M A) (w : world) :
  (count_request n ≫= f) w
  = f tt (with_stats w {| apiRequestCount := apiRequestCount (stats w) + n;
                          retryCount := retryCount (stats w) |}).
Proof. reflexivity. Qed.

Lemma has_next_count {A} (rest : list A) : has_next rest = Z.min 1 (Z.of_nat (length rest)).
Proof. destruct rest; simpl; lia. Qed.

Lemma updateRecords_loop_spec (E : env) (appId : string) (bs : list (list update_entry)) :
  ∀ w,
    let out := updateRecords_loop E appId bs w in
    ∃ sent, sent `prefix_of` bs
      ∧ trace out.1 = trace w ++ map (UpdateRecords appId) sent
      ∧ (out.2 = Ok tt → sent = bs
         ∧ apiRequestCount (stats out.1)
           = apiRequestCount (stats w) + Z.max 0 (Z.of_nat (length bs) - 1))
      ∧ (∀ e, out.2 = Throw e → sent ≠ [])
      ∧ store out.1 = store w ∧ archives out.1 = archives w
      ∧ attachments out.1 = attachments w.
Proof.
  induction bs as [| batch rest IH]; intros w; cbv zeta.
  - exists []. simpl. rewrite app_nil_r. repeat split; try easy. lia.
  - cbn [updateRecords_loop]. rewrite !BackupProps.bind_run, send_run.
    destruct (on_updateRecords (remote E) (length (trace w)) appId batch)
      as [retries [[] | e]]; cbn [fst snd].
    + rewrite count_then.
      match goal with |- context [updateRecords_loop E appId rest ?w1] =>
        destruct (IH w1) as (sent & Hpre & Htr & Hok & Hthrow & Hs & Ha & Hat) end.
      exists (batch :: sent). split; [now apply prefix_cons |].
      split; [| split; [| split; [| split; [| split]]]].
      * rewrite Htr. cbn [trace with_trace with_stats map]. now rewrite <- app_assoc.
      * intros Hr. destruct (Hok Hr) as [-> Hcount]. split; [reflexivity |].
        rewrite Hcount. cbn [stats with_stats with_trace apiRequestCount length].
        rewrite has_next_count. lia.
      * intros e He. discriminate.
      * rewrite Hs. reflexivity.
      * rewrite Ha. reflexivity.
      * rewrite Hat. reflexivity.
    + exists [batch]. split; [apply prefix_cons, prefix_nil |].
      cbn [trace with_trace with_stats map store archives attachments].
      repeat split; try easy.
Qed.

Lemma addRecords_loop_spec (E : env) (appId : string) (bs : list (list Js.json)) :
  ∀ w results,
    let out := addRecords_loop E appId bs results w in
    ∃ sent, sent `prefix_of` bs
      ∧ trace out.1 = trace w ++ map (AddRecords appId) sent
      ∧ (∀ ids, out.2 = Ok ids → sent = bs
         ∧ apiRequestCount (stats out.1)
           = apiRequestCount (stats w) + Z.max 0 (Z.of_nat (length bs) - 1))
      ∧ (∀ e, out.2 = Throw e → sent ≠ [])
      ∧ store out.1 = store w ∧ archives out.1 = archives w
      ∧ attachments out.1 = attachments w.
Proof.
  induction bs as [| batch rest IH]; intros w results; cbv zeta.
  - exists []. simpl. rewrite app_nil_r. repeat split; try easy. lia.
  - cbn [addRecords_loop]. rewrite !BackupProps.bind_run, send_run.
    destruct (on_addRecords (remote E) (length (trace w)) appId batch)
      as [retries [ids | e]]; cbn [fst snd].
    + rewrite count_then.
      match goal with |- context [addRecords_loop E appId rest ?r1 ?w1] =>
        destruct (IH w1 r1) as (sent & Hpre & Htr & Hok & Hthrow & Hs & Ha & Hat) end.
      exists (batch :: sent). split; [now apply prefix_cons |].
      split; [| split; [| split; [| split; [| split]]]].
      * rewrite Htr. cbn [trace with_trace with_stats map]. now rewrite <- app_assoc.
      * intros all Hr. destruct (Hok all Hr) as [-> Hcount]. split; [reflexivity |].
        rewrite Hcount. cbn [stats with_stats with_trace apiRequestCount length].
        rewrite has_next_count. lia.
      * intros e He. discriminate.
      * rewrite Hs. reflexivity.
      * rewrite Ha. reflexivity.
      * rewrite Hat. reflexivity.
    + exists [batch]. split; [apply prefix_cons, prefix_nil |].
      cbn [trace with_trace with_stats map store archives attachments].
      repeat split; try easy.
Qed.

(** [updateRecords] and [addRecords] cut the records into batches of at
    most 100, none empty, that together are the records in their order,
    and send the batches in that order, one call each, stopping at the
    first call that fails: the batches before it stay written.  When all
    calls succeed the request counter has gone up by the number of
    batches, and by one when there was no record. *)
Theorem records_are_sent_in_batches (E : env) (appId : string)
    (updates : list update_entry) (adds : list Js.json) (w : world) :
  let ubs := batches (length updates) 100 updates in
  let abs := batches (length adds) 100 adds in
  let uout := updateRecords E appId updates w in
  let aout := addRecords E appId adds w in
  (concat ubs = updates ∧ Forall (fun b => (0 < length b <= 100)%nat) ubs
   ∧ (100 * (length ubs - 1) < length updates ∨ updates = [])%nat)
  ∧ (concat abs = adds ∧ Forall (fun b => (0 < length b <= 100)%nat) abs
     ∧ (100 * (length abs - 1) < length adds ∨ adds = [])%nat)
  ∧ (∃ sent, sent `prefix_of` ubs
       ∧ trace uout.1 = trace w ++ map (UpdateRecords appId) sent
       ∧ (∀ r, uout.2 = Ok r → sent = ubs
          ∧ apiRequestCount (stats uout.1)
            = apiRequestCount (stats w) + Z.max 1 (Z.of_nat (length ubs)))
       ∧ (∀ e, uout.2 = Throw e → sent ≠ []))
  ∧ (∃ sent, sent `prefix_of` abs
       ∧ trace aout.1 = trace w ++ map (AddRecords appId) sent
       ∧ (∀ ids, aout.2 = Ok ids → sent = abs
          ∧ apiRequestCount (stats aout.1)
            = apiRequestCount (stats w) + Z.max 1 (Z.of_nat (length abs)))
       ∧ (∀ e, aout.2 = Throw e → sent ≠ [])).
Proof.
  cbv zeta.
  destruct (batches_spec (A := update_entry) 100 ltac:(lia) (length updates) updates
              ltac:(lia)) as (Huc & Huf & Huh & _).
  destruct (batches_spec (A := Js.json) 100 ltac:(lia) (length adds) adds
              ltac:(lia)) as (Hac & Haf & Hah & _).
  split; [auto |]. split; [auto |]. split.
  - unfold updateRecords. rewrite count_then, BackupProps.bind_run.
    match goal with |- context [updateRecords_loop E appId ?bs ?w1] =>
      destruct (updateRecords_loop_spec E appId bs w1)
        as (sent & Hpre & Htr & Hok & Hthrow & _);
      destruct (updateRecords_loop E appId bs w1) as [w2 [[] | e]] end;
      cbn [fst snd] in *; exists sent; (split; [exact Hpre |]);
      (split; [exact Htr |]); split.
    + intros r _. destruct (Hok eq_refl) as [-> Hcount]. split; [reflexivity |].
      cbn [mret M_ret fst]. rewrite Hcount. cbn [stats with_stats apiRequestCount]. lia.
    + intros e [=].
    + intros r [=].
    + intros e' _. now apply (Hthrow e).
  - unfold addRecords. rewrite count_then.
    match goal with |- context [addRecords_loop E appId ?bs ?r1 ?w1] =>
      destruct (addRecords_loop_spec E appId bs w1 r1)
        as (sent & Hpre & Htr & Hok & Hthrow & _);
      destruct (addRecords_loop E appId bs r1 w1) as [w2 [ids | e]] end;
      cbn [fst snd] in *; exists sent; (split; [exact Hpre |]);
      (split; [exact Htr |]); split.
    + intros all _. destruct (Hok ids eq_refl) as [-> Hcount]. split; [reflexivity |].
      rewrite Hcount. cbn [stats with_stats apiRequestCount]. lia.
    + intros e [=].
    + intros r [=].
    + intros e' _. now apply (Hthrow e).
Qed.

(** *** Pages *)

Lemma getAllApps_loop_pages {A} (all : list A) (fuel : nat) :
  ∀ (n : nat) (w : world),
    (100 * n <= length all)%nat → (length all < 100 * (n + fuel))%nat →
    getAllApps_loop (pages all) fuel n (Z.of_nat (100 * n)) (take (100 * n) all) w
    = (with_stats w
         {| apiRequestCount :=
              apiRequestCount (stats w) + (Z.of_nat (length all) / 100 + 1 - Z.of_nat n);
            retryCount := retryCount (stats w) |},
       Ok (Some all)).
Proof.
  induction fuel as [| fuel IH]; intros n w Hlo Hhi; [lia |].
  cbn [getAllApps_loop]. rewrite count_then, BackupProps.bind_run.
  unfold pages at 1, lift. cbn [fst snd].
  rewrite Nat2Z.id. change (Z.to_nat 100) with 100%nat.
  set (page := take 100 (drop (100 * n) all)).
  assert (Hpage : length page = Nat.min 100 (length all - 100 * n)).
  { unfold page. rewrite length_take, length_drop. reflexivity. }
  destruct (Z.of_nat (length page) <? 100) eqn:Hshort.
  - apply Z.ltb_lt in Hshort.
    assert (Hall : take (100 * n) all ++ page = all).
    { unfold page. rewrite (take_ge (drop (100 * n) all)) by (rewrite length_drop; lia).
      apply take_drop. }
    assert (Hq : Z.of_nat (length all) / 100 = Z.of_nat n).
    { symmetry. apply Z.div_unique with (Z.of_nat (length all) - 100 * Z.of_nat n); lia. }
    rewrite Hall, Hq.
    replace (Z.of_nat n + 1 - Z.of_nat n) with 1 by lia. reflexivity.
  - apply Z.ltb_ge in Hshort.
    assert (Hnext : take (100 * n) all ++ page = take (100 * S n) all).
    { unfold page. rewrite take_take_drop. f_equal. lia. }
    rewrite Hnext.
    replace (Z.of_nat (100 * n) + 100) with (Z.of_nat (100 * S n)) by lia.
    rewrite IH by lia.
    cbn [stats with_stats apiRequestCount retryCount store trace archives
         attachments recordNumberFieldCache].
    replace (apiRequestCount (stats w) + 1
             + (Z.of_nat (length all) / 100 + 1 - Z.of_nat (S n)))
      with (apiRequestCount (stats w)
            + (Z.of_nat (length all) / 100 + 1 - Z.of_nat n)) by lia.
    reflexivity.
Qed.

(** [getAllApps] fetches the apps page by page: against a service that
    holds a list of apps and serves it by [limit] and [offset], the loop
    ends, returns the whole list in the order of the service, and has
    made one request per hundred apps begun (one more when the count is
    a multiple of 100), however many more requests it was allowed. *)
Theorem getAllApps_collects_every_page {A} (all : list A) (fuel : nat) (w : world) :
  (length all / 100 < fuel)%nat →
  getAllApps (pages all) fuel w
  = (with_stats w
       {| apiRequestCount :=
            apiRequestCount (stats w) + (Z.of_nat (length all) / 100 + 1);
          retryCount := retryCount (stats w) |},
     Ok (Some all)).
Proof.
  intros Hfuel. unfold getAllApps.
  pose proof (getAllApps_loop_pages all fuel 0 w) as H.
  change (Z.of_nat (100 * 0)) with 0 in H.
  change (take (100 * 0) all) with (@nil A) in H.
  rewrite H.
  - f_equal. f_equal. f_equal. lia.
  - lia.
  - pose proof (Nat.div_mod_eq (length all) 100).
    pose proof (Nat.mod_upper_bound (length all) 100). lia.
Qed.

Lemma getAllApps_collects_every_page_witness :
  getAllApps (pages (repeat "app" 250)) 3 Samples.fresh_world
  = (with_stats Samples.fresh_world
       {| apiRequestCount :=
            apiRequestCount (stats Samples.fresh_world)
            + (Z.of_nat (length (repeat "app" 250)) / 100 + 1);
          retryCount := retryCount (stats Samples.fresh_world) |},
     Ok (Some (repeat "app" 250))).
Proof.
  apply (getAllApps_collects_every_page (repeat "app" 250) 3 Samples.fresh_world).
  apply Nat.ltb_lt. vm_compute. reflexivity.
Defined.

End ClientProps.

(** ** What the operations change *)

Module Footprints.
Import Effects Js BackupManager Runs BackupProps.

Local Open Scope list_scope.

#[local] Instance touches_refl F : Reflexive (touches F).
Proof. intros w. constructor. Qed.

#[local] Instance touches_trans F : Transitive (touches F).
Proof.
  intros a b c Hab Hbc. induction Hbc; [assumption | constructor; assumption ..].
Qed.

(** A wider footprint allows what a narrower one does. *)
Lemma touches_wider (F G : footprint) (w w' : world) :
  (∀ c, may_call F c → may_call G c) →
  (∀ d d', may_store F d d' → may_store G d d') →
  (∀ p, may_archive F p → may_archive G p) →
  (∀ p, may_attach F p → may_attach G p) →
  touches F w w' → touches G w w'.
Proof.
  intros Hc Hs Ha Ht H. induction H; [constructor | constructor; auto ..].
Qed.

Lemma respects_wider (F G : footprint) {A} (m : M A) :
  (∀ c, may_call F c → may_call G c) →
  (∀ d d', may_store F d d' → may_store G d d') →
  (∀ p, may_archive F p → may_archive G p) →
  (∀ p, may_attach F p → may_attach G p) →
  respects (touches F) m → respects (touches G) m.
Proof. intros Hc Hs Ha Ht H w. now apply (touches_wider F G). Qed.

(** What a footprint allows, read off the two worlds. *)
Lemma touches_summary (F : footprint) (w w' : world) :
  touches F w w' →
  (∃ calls, trace w' = trace w ++ calls ∧ Forall (may_call F) calls)
  ∧ rtc (may_store F) (store w) (store w')
  ∧ (∀ p, ¬ may_archive F p → archives w' !! p = archives w !! p)
  ∧ (∀ p, ¬ may_attach F p → attachments w' !! p = attachments w !! p).
Proof.
  induction 1 as [| w' c H IH | w' c H IH | w' c H IH Hc | w' d H IH Hd
                  | w' p content H IH Hp | w' p content H IH Hp].
  - split; [exists []; split; [now rewrite app_nil_r | constructor] |].
    split; [constructor |]. split; reflexivity.
  - exact IH.
  - exact IH.
  - destruct IH as ((calls & Htr & Hcalls) & Hrest). split; [| exact Hrest].
    exists (calls ++ [c]). simpl. rewrite Htr, app_assoc. split; [reflexivity |].
    apply Forall_app. split; [exact Hcalls | now constructor].
  - destruct IH as (Hcalls & Hst & Hrest). split; [exact Hcalls |].
    split; [| exact Hrest]. simpl. eapply rtc_r; eassumption.
  - destruct IH as (Hcalls & Hst & Har & Hat). split; [exact Hcalls |].
    split; [exact Hst |]. split; [| exact Hat].
    intros q Hq. simpl. rewrite lookup_insert_ne; [now apply Har |].
    intros ->. contradiction.
  - destruct IH as (Hcalls & Hst & Har & Hat). split; [exact Hcalls |].
    split; [exact Hst |]. split; [exact Har |].
    intros q Hq. simpl. rewrite lookup_insert_ne; [now apply Hat |].
    intros ->. contradiction.
Qed.

(** A footprint without statements and files leaves the local state. *)
Lemma touches_calls_only (F : footprint) (w w' : world) :
  (∀ d d', ¬ may_store F d d') → (∀ p, ¬ may_archive F p) → (∀ p, ¬ may_attach F p) →
  touches F w w' →
  store w' = store w ∧ archives w' = archives w ∧ attachments w' = attachments w.
Proof.
  intros Hs Ha Ht. induction 1; simpl; try assumption.
  - repeat split.
  - now contradiction (Hs (store w') d).
  - now contradiction (Ha p).
  - now contradiction (Ht p).
Qed.

(** *** The steps of the client *)

Section Client.
Context (E : env) (F : footprint).

Lemma count_request_touches (n : Z) :
  respects (touches F) (KintoneClient.count_request n).
Proof. intros w. apply touches_stats, touches_none. Qed.

Lemma send_touches {A} (c : call) (answer : nat → reply A) :
  may_call F c → respects (touches F) (KintoneClient.send c answer).
Proof.
  intros Hc w. rewrite ClientProps.send_run. cbn [fst].
  match goal with |- touches F w (with_trace ?w1 _) =>
    apply (touches_call F w w1 c); [apply touches_stats, touches_none | exact Hc] end.
Qed.

Lemma getApp_touches (appId : string) :
  may_call F (GetApp appId) → respects (touches F) (KintoneClient.getApp E appId).
Proof.
  intros Hc. rbind; [apply count_request_touches |]. intros _. now apply send_touches.
Qed.

Lemma getFormFields_touches (appId : string) :
  may_call F (GetFormFields appId) →
  respects (touches F) (KintoneClient.getFormFields E appId).
Proof.
  intros Hc. rbind; [apply count_request_touches |]. intros _. now apply send_touches.
Qed.

Lemma getAllRecords_touches (appId : string) fields condition :
  (∀ q, q_app q = appId → may_call F (GetAllRecords q)) →
  respects (touches F) (KintoneClient.getAllRecords E appId fields condition).
Proof.
  intros Hc.
  rbind; [apply count_request_touches |]. intros _.
  rbind; [apply send_touches, Hc; reflexivity |]. intros records.
  rbind; [apply count_request_touches |]. intros _. rret.
Qed.

Lemma downloadFile_touches (fileKey : string) :
  may_call F (DownloadFile fileKey) →
  respects (touches F) (KintoneClient.downloadFile E fileKey).
Proof.
  intros Hc. rbind; [apply count_request_touches |]. intros _. now apply send_touches.
Qed.

Lemma logToBackupApp_touches (app : string) (logData : audit_entry) :
  may_call F (AddRecord app logData) →
  respects (touches F) (KintoneClient.logToBackupApp E app logData).
Proof.
  intros Hc. unfold KintoneClient.logToBackupApp.
  rtry; [| intros ?; rret].
  rbind; [apply count_request_touches |]. intros _.
  rbind; [now apply send_touches |]. intros ?. rret.
Qed.

Lemma updateRecords_touches (appId : string) (records : list update_entry) :
  (∀ batch, may_call F (UpdateRecords appId batch)) →
  respects (touches F) (KintoneClient.updateRecords E appId records).
Proof.
  intros Hc. unfold KintoneClient.updateRecords.
  rbind; [apply count_request_touches |]. intros _.
  rbind; [| intros ?; rret].
  generalize (KintoneClient.batches (length records) 100 records).
  induction l as [| batch rest IH]; [rret |]. cbn [KintoneClient.updateRecords_loop].
  rbind; [apply send_touches, Hc |]. intros _.
  rbind; [apply count_request_touches |]. intros _. exact IH.
Qed.

Lemma addRecords_touches (appId : string) (records : list json) :
  (∀ batch, may_call F (AddRecords appId batch)) →
  respects (touches F) (KintoneClient.addRecords E appId records).
Proof.
  intros Hc. unfold KintoneClient.addRecords.
  rbind; [apply count_request_touches |]. intros _.
  generalize (@nil string).
  generalize (KintoneClient.batches (length records) 100 records).
  induction l as [| batch rest IH]; intros results; [rret |].
  cbn [KintoneClient.addRecords_loop].
  rbind; [apply send_touches, Hc |]. intros ids.
  rbind; [apply count_request_touches |]. intros _. apply IH.
Qed.

Lemma getRecordNumberFieldCode_touches (appId : string) :
  may_call F (GetFormFields appId) →
  respects (touches F) (KintoneClient.getRecordNumberFieldCode E appId).
Proof.
  intros Hc. unfold KintoneClient.getRecordNumberFieldCode.
  assert (Hd : respects (touches F) (KintoneClient.determine_field_code E appId)).
  { unfold KintoneClient.determine_field_code.
    rbind; [now apply getFormFields_touches |]. intros properties.
    rbind; [rlift |]. intros found.
    intros w. apply touches_cache, touches_none. }
  rtry; [| intros ?; rret].
  intros w. destruct (recordNumberFieldCache w !! appId) as [[code |] |]; try apply Hd.
  destruct (KintoneClient.text_truthy (Some code)); [apply touches_none | apply Hd].
Qed.

Lemma findRecordIds_touches (appId : string) (recordNumbers : list string) :
  may_call F (GetFormFields appId) →
  (∀ query fields, may_call F (GetRecords appId query fields)) →
  respects (touches F) (KintoneClient.findRecordIdsByRecordNumbers E appId recordNumbers).
Proof.
  intros Hf Hr. unfold KintoneClient.findRecordIdsByRecordNumbers.
  destruct recordNumbers as [| n ns]; [rret |].
  rbind; [now apply getRecordNumberFieldCode_touches |]. intros [code |]; [| rret].
  destruct (KintoneClient.text_truthy (Some code)); [| rret].
  generalize (fold_left (fun m rn => <[rn := None]> m) (n :: ns)
                (∅ : gmap string (option string))).
  generalize (KintoneClient.batches (length (n :: ns)) 50 (n :: ns)).
  induction l as [| chunk rest IH]; intros resultMap; [rret |].
  cbn [KintoneClient.resolve_loop].
  rbind; [| intros ?; apply IH].
  rtry; [| intros ?; rret].
  rbind; [apply count_request_touches |]. intros _.
  rbind; [apply send_touches, Hr |]. intros ?. rret.
Qed.

End Client.

(** *** The steps of a backup

    The steps are within every footprint that allows the calls, the
    files and the statements of a run; the last statement of a run that
    saved records, which records the time for the app, needs more. *)

Section Backup.
Context (E : env) (C : config) (appId : string) (options : backup_options)
  (backupId : Z) (F : footprint).
Context (F_calls : ∀ c, backup_call C appId c → may_call F c).
Context (F_store : ∀ d d', run_statement appId backupId d d' → may_store F d d').
Context (F_archive :
           may_archive F
             (path_join (archivesDir C) (archive_name E appId (backupType options)))).
Context (F_attach : ∀ recordId name,
           may_attach F
             (path_join_all [attachmentsDir C; appId; recordId; run_timestamp E; name])).

Lemma on_store_touches (f : Database.db → Database.db) :
  (∀ d, may_store F d (f d)) → respects (touches F) (on_store f).
Proof.
  intros Hf w. unfold on_store. cbn [fst].
  apply (touches_store F w w); [apply touches_none | apply Hf].
Qed.

Lemma updateBackup_touches (updateData : list Database.assignment) :
  respects (touches F)
    (on_store (fun d => Database.updateBackup d backupId updateData)).
Proof.
  apply on_store_touches. intros d. apply F_store. left. now exists updateData.
Qed.

Lemma fetchRecords_touches (backupType : string) :
  respects (touches F) (fetchRecords E appId backupType).
Proof.
  assert (Hall : ∀ fields condition,
            respects (touches F) (KintoneClient.getAllRecords E appId fields condition)).
  { intros fields condition. apply getAllRecords_touches. intros q Hq.
    apply F_calls. exact Hq. }
  unfold fetchRecords, KintoneClient.getDifferentialRecords.
  destruct (String.eqb backupType "differential").
  - rbind; [intros w; apply touches_none |]. intros d.
    destruct (Database.getLastBackupDatetime d appId) as [[[last |] ?] |].
    + destruct (negb (String.eqb last "")); (rbind; [apply Hall |]); intros ?; rret.
    + rbind; [apply Hall |]. intros ?. rret.
    + rbind; [apply Hall |]. intros ?. rret.
  - rbind; [apply Hall |]. intros ?. rret.
Qed.

Lemma logToKintoneBackupApp_touches (logData : audit_entry) :
  respects (touches F) (logToKintoneBackupApp E C logData).
Proof.
  unfold logToKintoneBackupApp.
  rtry; [| intros ?; rret].
  destruct (backupAppId C) as [app |] eqn:Happ; [| rret].
  destruct (String.eqb app ""); [rret |].
  rbind; [| intros ?; rret].
  apply logToBackupApp_touches, F_calls. exact Happ.
Qed.

Lemma createBackupZip_touches (records : list json) :
  respects (touches F)
    (createBackupZip E appId records
       (path_join (archivesDir C) (archive_name E appId (backupType options)))).
Proof.
  unfold createBackupZip.
  rbind.
  - rtry; [| intros ?; rret].
    rbind; [apply getFormFields_touches, F_calls; reflexivity |]. intros ?. rret.
  - intros fp.
    destruct (archive_stream E _) as [| [c |] | e [c |]]; intros w; cbn [fst left_at];
      try (apply (touches_archive F w w); [apply touches_none | apply F_archive]);
      destruct w; apply touches_none.
Qed.

Lemma download_one_touches recordId file :
  respects (touches F) (download_one E C appId recordId (run_timestamp E) file).
Proof.
  unfold download_one.
  rtry; [| intros ?; rret].
  rbind; [rlift |]. intros ?.
  rbind; [apply downloadFile_touches, F_calls; exact I |]. intros ?.
  rbind; [rlift |]. intros ?.
  rbind; [rlift |]. intros rid.
  rbind; [rlift |]. intros name.
  intros w. cbn [fst].
  apply (touches_attachment F w w); [apply touches_none | apply F_attach].
Qed.

Lemma download_field_touches recordId record fieldCode :
  respects (touches F)
    (download_field E C appId recordId (run_timestamp E) record fieldCode).
Proof.
  unfold download_field.
  destruct (Js.prop record fieldCode) as [field |]; [| rret].
  destruct (Js.truthy field); [| rret].
  destruct (Js.prop field "value") as [[ | | | | |] |];
    try rret; try rthrow;
    try (reach; intros ?; apply download_one_touches).
  - destruct (Js.truthy _); [rthrow | rret].
  - destruct (Js.truthy _); [rthrow | rret].
Qed.

Lemma downloadAttachments_touches records :
  respects (touches F) (downloadAttachments E C appId records (run_timestamp E)).
Proof.
  unfold downloadAttachments.
  rbind; [rlift |]. intros fields.
  destruct fields; [rret |].
  reach. intros record.
  rbind; [rlift |]. intros ?.
  rbind; [rlift |]. intros ?.
  reach. intros ?. apply download_field_touches.
Qed.

Lemma stat_size_touches zipFilePath : respects (touches F) (stat_size E zipFilePath).
Proof.
  intros w. unfold stat_size. destruct (archives w !! zipFilePath); apply touches_none.
Qed.

Lemma index_record_touches startTime record :
  respects (touches F) (index_record appId startTime backupId record).
Proof.
  unfold index_record.
  repeat (rbind; [rlift |]; intros ?).
  apply on_store_touches. intros d. apply F_store. right. eauto.
Qed.

Lemma getStats_touches : respects (touches F) KintoneClient.getStats.
Proof. intros w. apply touches_none. Qed.

Lemma backupApp_failed_touches (err : error) :
  respects (touches F) (backupApp_failed E backupId err).
Proof.
  unfold backupApp_failed.
  rbind; [apply getStats_touches |]. intros st.
  rbind; [apply updateBackup_touches |]. intros _. rthrow.
Qed.

(** The body of a run that has recorded the time for the app can only
    return. *)
Lemma backupApp_body_shape (w : world) :
  let out := backupApp_body E C appId options backupId w in
  let file := archive_name E appId (backupType options) in
  match out.2 with
  | Throw _ => touches F w out.1
  | Ok res =>
      (r_filePath res = None ∧ r_recordCount res = 0 ∧ touches F w out.1)
      ∨ (∃ w1,
           r_filePath res = Some (path_join (archivesDir C) file)
           ∧ 0 < r_recordCount res
           ∧ touches F w w1
           ∧ (∀ row, Database.backups (store w1) !! backupId = Some row →
                     Database.file_path row = Some file)
           ∧ touches F
               (with_store w1
                  (Database.updateAppLastBackup (store w1) appId (now_iso E AtEnd)
                     (String.eqb (backupType options) "full")))
               out.1)
  end.
Proof.
  cbv zeta. unfold backupApp_body. cbv zeta.
  rewrite bind_run.
  destruct (KintoneClient.getApp E appId w) as [w1 [appName | e]] eqn:H1;
    pose proof (respects_run _ _ _ _ _
                  (getApp_touches E F appId (F_calls (GetApp appId) eq_refl)) H1) as T1;
    [| exact T1].
  rewrite bind_run, on_store_run.
  set (w2 := with_store w1 _).
  assert (T2 : touches F w w2).
  { exact (touches_trans F _ _ _ T1 (updateBackup_touches _ w1)). }
  clearbody w2. clear T1 H1.
  rewrite bind_run.
  destruct (fetchRecords E appId (backupType options) w2)
    as [w3 [[records diffBase] | e]] eqn:H3;
    pose proof (respects_run _ _ _ _ _ (fetchRecords_touches _) H3) as T3;
    [| exact (touches_trans F _ _ _ T2 T3)].
  assert (T3' : touches F w w3) by exact (touches_trans F _ _ _ T2 T3).
  clear T2 T3 H3.
  destruct records as [| r rs].
  - rewrite bind_run, getStats_run, bind_run, on_store_run.
    cbn [mret M_ret fst snd]. left. split; [reflexivity |]. split; [reflexivity |].
    exact (touches_trans F _ _ _ T3' (updateBackup_touches _ w3)).
  - set (records := r :: rs) in *.
    rewrite bind_run.
    match goal with |- context [createBackupZip E appId records (path_join _ ?n) w3] =>
      change n with (archive_name E appId (backupType options))
    end.
    set (file := archive_name E appId (backupType options)).
    destruct (createBackupZip E appId records (path_join (archivesDir C) file) w3)
      as [w4 [originalSize | e]] eqn:H4;
      pose proof (respects_run _ _ _ _ _ (createBackupZip_touches records) H4) as T4;
      [| exact (touches_trans F _ _ _ T3' T4)].
    rewrite bind_run.
    change (archive_timestamp (now_iso E AtArchiveName)) with (run_timestamp E).
    destruct (downloadAttachments E C appId records (run_timestamp E) w4)
      as [w5 [[] | e]] eqn:H5;
      pose proof (respects_run _ _ _ _ _ (downloadAttachments_touches records) H5) as T5;
      [| exact (touches_trans F _ _ _ T3' (touches_trans F _ _ _ T4 T5))].
    rewrite bind_run.
    match goal with |- context [stat_size E ?p w5] =>
      destruct (stat_size E p w5) as [w6 [compressedSize | e]] eqn:H6;
      pose proof (respects_run _ _ _ _ _ (stat_size_touches p) H6) as T6
    end;
      [| exact (touches_trans F _ _ _ T3'
                  (touches_trans F _ _ _ T4 (touches_trans F _ _ _ T5 T6)))].
    cbv zeta. rewrite bind_run.
    match goal with |- context [for_each records ?b w6] =>
      destruct (for_each records b w6) as [w7 [[] | e]] eqn:H7;
      pose proof (respects_run _ _ _ _ _
                    (respects_for_each (touches F) records b
                       (index_record_touches _)) H7) as T7
    end;
      assert (T7' : touches F w w7)
        by exact (touches_trans F _ _ _ T3'
                    (touches_trans F _ _ _ T4
                       (touches_trans F _ _ _ T5 (touches_trans F _ _ _ T6 T7))));
      [| exact T7'].
    clear T3' T4 T5 T6 T7 H4 H5 H6 H7.
    rewrite bind_run, getStats_run, bind_run, on_store_run.
    set (w8 := with_store w7 _).
    rewrite bind_run, on_store_run.
    rewrite bind_run, getStats_run, bind_run.
    match goal with |- context [logToKintoneBackupApp E C ?entry ?w9] =>
      pose proof (logToKintoneBackupApp_total E C entry w9) as Hlog;
      pose proof (logToKintoneBackupApp_touches entry w9) as Tlog;
      destruct (logToKintoneBackupApp E C entry w9) as [w10 rlog]
    end.
    simpl in Hlog. subst rlog. cbn [mret M_ret fst snd] in *.
    right. exists w8.
    split; [reflexivity |]. split; [unfold records; simpl; lia |].
    split; [exact (touches_trans F _ _ _ T7' (updateBackup_touches _ w7)) |].
    split; [| exact Tlog].
    intros row. unfold w8. cbn [store with_store]. unfold Database.updateBackup.
    cbn [Database.backups]. rewrite lookup_alter_eq.
    destruct (Database.backups (store w7) !! backupId) as [row7 |]; [| discriminate].
    intros [= <-]. reflexivity.
Qed.

End Backup.

(** *** The steps of a restore *)

Section Restore.
Context (E : env) (C : config) (appId : string).

Let F := restore_footprint C appId.

Lemma extractBackupZip_same (zipFilePath : string) (w : world) :
  (extractBackupZip E zipFilePath w).1 = w.
Proof.
  unfold extractBackupZip. destruct (archives w !! zipFilePath) as [entries |];
    [| reflexivity].
  destruct (rejected _); reflexivity.
Qed.

Lemma resolve_keys_touches (uniqueRecordNumbers : list string) :
  respects (touches F) (resolve_keys E appId uniqueRecordNumbers).
Proof.
  unfold resolve_keys. destruct uniqueRecordNumbers; [rret |].
  rtry; [| intros ?; rret].
  apply findRecordIds_touches; [reflexivity | intros; reflexivity].
Qed.

Lemma apply_updates_touches (updates : list update_entry) :
  respects (touches F) (apply_updates E appId updates).
Proof.
  unfold apply_updates, KintoneClient.updateAllRecords. destruct updates; [rret |].
  rtry; [| intros ?; rret].
  rbind; [| intros ?; rret].
  apply updateRecords_touches. intros batch. reflexivity.
Qed.

Lemma apply_adds_touches (adds : list json) :
  respects (touches F) (apply_adds E appId adds).
Proof.
  unfold apply_adds, KintoneClient.addAllRecords. destruct adds; [rret |].
  rtry; [| intros ?; rret].
  rbind; [| intros ?; rret].
  apply addRecords_touches. intros batch. reflexivity.
Qed.

Lemma restore_log_touches (logData : audit_entry) :
  respects (touches F) (logToKintoneBackupApp E C logData).
Proof.
  unfold logToKintoneBackupApp.
  rtry; [| intros ?; rret].
  destruct (backupAppId C) as [app |] eqn:Happ; [| rret].
  destruct (String.eqb app ""); [rret |].
  rbind; [| intros ?; rret].
  apply logToBackupApp_touches. exact Happ.
Qed.

Lemma restoreBackup_body_touches (backupId : Z) (backup : Database.backup_row)
    (options : restore_options) :
  Database.app_id backup = appId →
  respects (touches F) (restoreBackup_body E C backupId backup options).
Proof.
  intros Happ. unfold restoreBackup_body. cbv zeta. rewrite Happ.
  rbind; [rlift |]. intros file.
  rbind; [intros w; rewrite extractBackupZip_same; apply touches_none |]. intros records.
  rbind; [rlift |]. intros recordsToRestore.
  destruct recordsToRestore as [| r rs]; [rthrow |].
  rbind; [rlift |]. intros cleanedRecords.
  rbind; [rlift |]. intros recordNumberList.
  rbind; [apply resolve_keys_touches |]. intros mapping.
  destruct (partition mapping cleanedRecords recordNumberList) as [updates adds].
  rbind; [apply apply_updates_touches |]. intros [updatedCount updateFailed].
  rbind; [apply apply_adds_touches |]. intros [addedCount addFailed].
  rbind; [intros w; apply touches_none |]. intros st.
  rbind; [apply restore_log_touches |]. intros _. rret.
Qed.

End Restore.

End Footprints.

(** ** Backup runs: what a run changes and what it leaves *)

Module RunProps.
Import Effects Js BackupManager Runs BackupProps Footprints.

Local Open Scope list_scope.


(** How a run of [backupApp] goes: it fails or finds no record, within
    the statements of a run; or it saves records, and then records the
    time for the app between statements of a run. *)
Lemma backupApp_shape (E : env) (C : config) (appId : string) (options : backup_options)
    (w : world) :
  let inserted := Database.insertBackup (store w) (running_row E appId options) in
  let backupId := inserted.2 in
  let w0 := with_store w inserted.1 in
  let F := run_footprint E C appId (backupType options) backupId in
  let out := backupApp E C appId options w in
  out.2.1 = backupId
  ∧ match out.2.2 with
    | Throw _ =>
        ∃ w1, touches F w0 w1 ∧ out.1 = KintoneClient.resetCounters w1
    | Ok res =>
        (r_filePath res = None ∧ r_recordCount res = 0
         ∧ ∃ w1, touches F w0 w1 ∧ out.1 = KintoneClient.resetCounters w1)
        ∨ (∃ w1 w2,
             r_filePath res
             = Some (path_join (archivesDir C)
                       (archive_name E appId (backupType options)))
             ∧ 0 < r_recordCount res
             ∧ touches F w0 w1
             ∧ (∀ row, Database.backups (store w1) !! backupId = Some row →
                       Database.file_path row
                       = Some (archive_name E appId (backupType options)))
             ∧ touches F
                 (with_store w1
                    (Database.updateAppLastBackup (store w1) appId (now_iso E AtEnd)
                       (String.eqb (backupType options) "full")))
                 w2
             ∧ out.1 = KintoneClient.resetCounters w2)
    end.
Proof.
  cbv zeta. unfold backupApp.
  destruct (Database.insertBackup (store w) (running_row E appId options))
    as [d id] eqn:Hins. cbn [fst snd].
  unfold finally, try_catch.
  pose proof (backupApp_body_shape E C appId options id
                (run_footprint E C appId (backupType options) id)
                (fun c H => H) (fun d d' H => H) eq_refl
                (fun r name => ex_intro _ r (ex_intro _ name eq_refl))
                (with_store w d)) as Hbody.
  cbv zeta in Hbody.
  destruct (backupApp_body E C appId options id (with_store w d)) as [w1 [res | e]];
    cbn [fst snd] in *.
  - split; [reflexivity |].
    destruct Hbody as [(Hf & Hc & T) | (w' & Hf & Hc & T & Hrow & T')].
    + left. split; [exact Hf |]. split; [exact Hc |]. now exists w1.
    + right. exists w', w1. repeat (split; [assumption |]). reflexivity.
  - pose proof (backupApp_failed_touches E appId id
                  (run_footprint E C appId (backupType options) id)
                  (fun d d' H => H) e w1) as Tf.
    destruct (backupApp_failed E id e w1) as [w2 r2] eqn:Hfail.
    assert (Hthrow : ∃ e2, r2 = Throw e2).
    { unfold backupApp_failed in Hfail.
      rewrite bind_run, getStats_run, bind_run, on_store_run in Hfail.
      injection Hfail as _ <-. now exists e. }
    destruct Hthrow as [e2 ->]. cbn [fst snd] in *.
    split; [reflexivity |]. exists w2. split; [| reflexivity].
    exact (touches_trans _ _ _ _ Hbody Tf).
Qed.

(** The statements of a backup keep the sequence, the rows of the other
    runs, the rows of the other apps (and add no app), and the markers
    they do not write. *)
Lemma backup_statements_frame (appId : string) (backupId : Z) (d d' : Database.db) :
  rtc (backup_statement appId backupId) d d' →
  Database.backups_seq d' = Database.backups_seq d
  ∧ (∀ j, j ≠ backupId → Database.backups d' !! j = Database.backups d !! j)
  ∧ (∀ other, other ≠ appId → Database.apps d' !! other = Database.apps d !! other)
  ∧ (Database.apps d' !! appId = None ↔ Database.apps d !! appId = None)
  ∧ (∀ k m, Database.record_index d' !! k = Some m →
       Database.record_index d !! k = Some m
       ∨ (k.1 = appId ∧ Database.last_backup_id m = Some backupId)).
Proof.
  revert d'. apply rtc_ind_r.
  - repeat split; auto.
  - intros d1 d' _ Hstep (Hq & Hb & Ha & Hn & Hm).
    destruct Hstep as [(us & ->) | [(r & t & ->) | (t & full & ->)]]; simpl.
    + split; [exact Hq |]. split; [| auto].
      intros j Hj. rewrite lookup_alter_ne by congruence. now apply Hb.
    + split; [exact Hq |]. split; [exact Hb |]. split; [exact Ha |].
      split; [exact Hn |].
      intros k m. rewrite lookup_insert. case_decide as Hk.
      * intros [= <-]. right. subst k. split; reflexivity.
      * apply Hm.
    + split; [exact Hq |]. split; [exact Hb |]. split; [| split; [| exact Hm]].
      * intros other Hne. rewrite lookup_alter_ne by congruence. now apply Ha.
      * rewrite lookup_alter_None. exact Hn.
Qed.

(** Every marker is, after the statements of a backup, the marker it
    was, or a marker of the app that names the run. *)
Lemma backup_statements_markers (appId : string) (backupId : Z) (d d' : Database.db) :
  rtc (backup_statement appId backupId) d d' →
  ∀ k, Database.record_index d' !! k = Database.record_index d !! k
       ∨ (k.1 = appId
          ∧ ∃ m, Database.record_index d' !! k = Some m
                 ∧ Database.last_backup_id m = Some backupId).
Proof.
  intros Hrtc. pattern d'. revert d' Hrtc. apply rtc_ind_r.
  - intros k. now left.
  - intros d1 d' _ Hstep IH k.
    destruct Hstep as [(us & ->) | [(r & t & ->) | (t & full & ->)]]; simpl.
    + apply IH.
    + rewrite lookup_insert. case_decide as Hk.
      * right. subst k. split; [reflexivity |]. eexists. split; reflexivity.
      * apply IH.
    + apply IH.
Qed.

Lemma run_within_backup (E : env) (C : config) (appId : string)
    (options : backup_options) (backupId : Z) (w w' : world) :
  touches (run_footprint E C appId (backupType options) backupId) w w' →
  touches (backup_footprint E C appId (backupType options) backupId) w w'.
Proof.
  apply touches_wider; try (intros; assumption).
  intros d d' [H | H]; [now left | right; now left].
Qed.

(** A run of [backupApp] stays within the footprint of a backup after
    the row of the run is inserted, and resets the counters. *)
Lemma backupApp_within_footprint (E : env) (C : config) (appId : string)
    (options : backup_options) (w : world) :
  let inserted := Database.insertBackup (store w) (running_row E appId options) in
  let out := backupApp E C appId options w in
  out.2.1 = inserted.2
  ∧ ∃ w', touches (backup_footprint E C appId (backupType options) inserted.2)
            (with_store w inserted.1) w'
          ∧ out.1 = KintoneClient.resetCounters w'.
Proof.
  cbv zeta.
  destruct (backupApp_shape E C appId options w) as [Hid Hshape].
  split; [exact Hid |].
  destruct ((backupApp E C appId options w).2.2) as [res | e].
  - destruct Hshape as [(_ & _ & w1 & T & Hout)
                       | (w1 & w2 & _ & _ & T & _ & T' & Hout)].
    + exists w1. split; [now apply run_within_backup | exact Hout].
    + exists w2. split; [| exact Hout].
      apply run_within_backup in T. apply run_within_backup in T'.
      eapply touches_trans; [| exact T'].
      apply touches_store; [exact T |]. right. right. eauto.
  - destruct Hshape as (w1 & T & Hout). exists w1.
    split; [now apply run_within_backup | exact Hout].
Qed.

(** In the store, [backupApp] inserts the row of its run under the next
    identifier and changes nothing but that row, the row of its app, and
    markers of records of its app, which then name the run: every other
    run and app is as it was, no app is added or removed, and every
    marker is as it was (there or not) unless it is a marker of the app
    that names the run. *)
Theorem backupApp_changes_its_own_rows (E : env) (C : config) (appId : string)
    (options : backup_options) (w : world) :
  let out := backupApp E C appId options w in
  let id := out.2.1 in
  id = Database.backups_seq (store w) + 1
  ∧ Database.backups_seq (store out.1) = id
  ∧ (∀ j, j ≠ id →
       Database.backups (store out.1) !! j = Database.backups (store w) !! j)
  ∧ (∀ other, other ≠ appId →
       Database.apps (store out.1) !! other = Database.apps (store w) !! other)
  ∧ (Database.apps (store out.1) !! appId = None
     ↔ Database.apps (store w) !! appId = None)
  ∧ (∀ k, Database.record_index (store out.1) !! k
          = Database.record_index (store w) !! k
          ∨ (k.1 = appId
             ∧ ∃ m, Database.record_index (store out.1) !! k = Some m
                    ∧ Database.last_backup_id m = Some id)).
Proof.
  cbv zeta.
  destruct (backupApp_within_footprint E C appId options w) as (Hid & w' & T & Hout).
  rewrite Hid, Hout.
  change (store (KintoneClient.resetCounters w')) with (store w').
  apply touches_summary in T as (_ & Hst & _).
  pose proof (backup_statements_markers _ _ _ _ Hst) as Hm.
  apply backup_statements_frame in Hst as (Hq & Hb & Ha & Hn & _).
  unfold Database.insertBackup in *. cbn [fst snd store with_store] in *.
  cbn [Database.backups Database.backups_seq Database.apps Database.record_index] in *.
  split; [reflexivity |]. split; [exact Hq |]. split; [| auto].
  intros j Hj. rewrite Hb by exact Hj. now apply lookup_insert_ne.
Qed.

Lemma backup_call_no_write (C : config) (appId : string) (calls : list call) :
  Forall (backup_call C appId) calls → List.filter is_write calls = [].
Proof.
  induction 1 as [| c calls Hc _ IH]; [reflexivity |].
  simpl. rewrite IH. destruct c; simpl in *; try reflexivity; contradiction.
Qed.


(** A file name with [..] in it: the attachment is written outside the
    directory of the attachments; a plain name stays under the directory
    of the record. *)
Example attachment_name_leads_out :
  let run name := backupApp (Samples.env_with_file name) Samples.sample_config "10"
                    default_backup_options Samples.fresh_world in
  attachments (run "../../../../escaped.txt").1 = {[ "escaped.txt" := "contents" ]}
  ∧ attachments (run "a.txt").1
    = {[ "attachments/10/1/2024-01-02_03-04-05/a.txt" := "contents" ]}.
Proof. cbv zeta. split; vm_compute; reflexivity. Qed.


(** *** Scheduled backups *)

Lemma backupApp_body_result (E : env) (C : config) (appId : string)
    (options : backup_options) (backupId : Z) :
  ensures (fun res => r_appId res = appId ∧ r_success res = true)
    (backupApp_body E C appId options backupId).
Proof.
  unfold backupApp_body. cbv zeta.
  apply (RestoreProps.ensures_bind (fun _ => True)); [apply RestoreProps.ensures_any |].
  intros appName _.
  apply (RestoreProps.ensures_bind (fun _ => True)); [apply RestoreProps.ensures_any |].
  intros _ _.
  apply (RestoreProps.ensures_bind (fun _ => True)); [apply RestoreProps.ensures_any |].
  intros [records diffBase] _.
  destruct records as [| r rs];
    repeat (apply (RestoreProps.ensures_bind (fun _ => True));
            [apply RestoreProps.ensures_any | intros ? _]);
    apply RestoreProps.ensures_ret; split; reflexivity.
Qed.

Lemma backupApp_result (E : env) (C : config) (appId : string)
    (options : backup_options) (w : world) (res : backup_result) :
  (backupApp E C appId options w).2.2 = Ok res →
  r_appId res = appId ∧ r_success res = true.
Proof.
  unfold backupApp.
  destruct (Database.insertBackup (store w) (running_row E appId options)) as [d id].
  unfold finally, try_catch.
  pose proof (backupApp_body_result E C appId options id (with_store w d)) as Hbody.
  destruct (backupApp_body E C appId options id (with_store w d)) as [w1 [r | e]];
    cbn [fst snd] in *.
  - intros [= <-]. exact Hbody.
  - unfold backupApp_failed.
    rewrite bind_run, getStats_run, bind_run, on_store_run. cbn [fst snd throw].
    discriminate.
Qed.

Lemma scheduled_turn_spec (E : env) (C : config) (app : Database.app_view) (w : world) :
  let out := scheduled_turn E C app w in
  ∃ r, out.2 = Ok r ∧ result_of app r
    ∧ Database.backups_seq (store out.1) = Database.backups_seq (store w) + 1
    ∧ List.filter is_write (trace out.1) = List.filter is_write (trace w)
    ∧ (∀ appId, Database.apps (store out.1) !! appId = None
                ↔ Database.apps (store w) !! appId = None).
Proof.
  cbv zeta. unfold scheduled_turn.
  pose proof (backupApp_within_footprint E C (Database.v_app_id app)
                scheduled_options w) as (_ & w' & T & Hout).
  pose proof (backupApp_result E C (Database.v_app_id app) scheduled_options w) as Hres.
  destruct (backupApp E C (Database.v_app_id app) scheduled_options w)
    as [w1 [id r]]. cbn [fst snd] in *. subst w1.
  apply touches_summary in T as ((calls & Htr & Hcalls) & Hst & _).
  apply backup_statements_frame in Hst as (Hq & _ & Ha & Hn & _).
  eexists. split; [reflexivity |]. split; [| split; [| split]].
  - destruct r as [res | e]; [now apply Hres | split; reflexivity].
  - exact Hq.
  - change (trace (KintoneClient.resetCounters w')) with (trace w').
    rewrite Htr. cbn [trace with_store].
    rewrite List.filter_app, (backup_call_no_write _ _ calls Hcalls). apply app_nil_r.
  - intros appId. change (store (KintoneClient.resetCounters w')) with (store w').
    destruct (decide (appId = Database.v_app_id app)) as [-> | Hne].
    + exact Hn.
    + now rewrite (Ha appId Hne).
Qed.

Lemma scheduled_loop_spec (E : env) (C : config) (apps : list Database.app_view) :
  ∀ (results : list scheduled_result) (w : world),
    let out := scheduled_loop E C apps results w in
    ∃ more, out.2 = Ok (results ++ more)
      ∧ Forall2 result_of apps more
      ∧ Database.backups_seq (store out.1)
        = Database.backups_seq (store w) + Z.of_nat (length apps)
      ∧ List.filter is_write (trace out.1) = List.filter is_write (trace w)
      ∧ (∀ appId, Database.apps (store out.1) !! appId = None
                  ↔ Database.apps (store w) !! appId = None).
Proof.
  induction apps as [| app rest IH]; intros results w; cbv zeta.
  - exists []. simpl. rewrite app_nil_r. repeat split; auto. lia.
  - cbn [scheduled_loop]. rewrite bind_run.
    destruct (scheduled_turn_spec E C app w) as (r & Hr & Hof & Hq & Htr & Ha).
    destruct (scheduled_turn E C app w) as [w1 r1]. cbn [fst snd] in *. subst r1.
    destruct (IH (results ++ [r]) w1) as (more & Hres & Hall & Hq' & Htr' & Ha').
    exists (r :: more). split; [| split; [| split; [| split]]].
    + rewrite Hres, <- app_assoc. reflexivity.
    + now constructor.
    + rewrite Hq', Hq. cbn [length]. lia.
    + congruence.
    + intros appId. rewrite Ha', Ha. reflexivity.
Qed.

(** [runScheduledBackup] attempts a backup of every active app, in the
    order of the list, whatever happens to the apps before: it does not
    throw, and answers with one entry per app, the result of the backup
    or the app with the error.  Every attempt takes a run identifier, no
    attempt sends records to an app, and no app row is added. *)
Theorem runScheduledBackup_attempts_every_app (E : env) (C : config) (w : world)
    (apps : list Database.app_view) :
  Database.getAllApps (store w) true = Some apps →
  let out := runScheduledBackup E C w in
  ∃ results,
    out.2 = Ok results
    ∧ Forall2 result_of apps results
    ∧ Database.backups_seq (store out.1)
      = Database.backups_seq (store w) + Z.of_nat (length apps)
    ∧ List.filter is_write (trace out.1) = List.filter is_write (trace w)
    ∧ (∀ appId, Database.apps (store out.1) !! appId = None
                ↔ Database.apps (store w) !! appId = None).
Proof.
  intros Happs. cbv zeta. unfold runScheduledBackup. rewrite Happs.
  destruct (scheduled_loop_spec E C apps [] w) as (more & Hres & Hrest).
  exists more. split; [exact Hres | exact Hrest].
Qed.

Lemma runScheduledBackup_attempts_every_app_witness :
  let out := runScheduledBackup (Samples.env_where [] false false) Samples.sample_config
               Samples.scheduled_world in
  ∃ results,
    out.2 = Ok results
    ∧ Forall2 result_of [Samples.scheduled_view] results
    ∧ Database.backups_seq (store out.1)
      = Database.backups_seq (store Samples.scheduled_world)
        + Z.of_nat (length [Samples.scheduled_view])
    ∧ List.filter is_write (trace out.1)
      = List.filter is_write (trace Samples.scheduled_world)
    ∧ (∀ appId, Database.apps (store out.1) !! appId = None
                ↔ Database.apps (store Samples.scheduled_world) !! appId = None).
Proof.
  apply (runScheduledBackup_attempts_every_app (Samples.env_where [] false false)
           Samples.sample_config Samples.scheduled_world [Samples.scheduled_view]).
  vm_compute. reflexivity.
Defined.

End RunProps.

(** ** Restore, preview and deletion of a run *)

Module RestoreRuns.
Import Effects Js BackupManager Runs BackupProps Footprints.

Local Open Scope list_scope.

(** The records a restore works on: all of the archive, or the selected
    ones when a selection that is not empty is given. *)
Lemma restoreBackup_run (E : env) (C : config) (backupId : Z) (options : restore_options)
    (w : world) (backup : Database.backup_row) :
  Database.getBackupById (store w) backupId = Some backup →
  restoreBackup E C backupId options w
  = ((KintoneClient.resetCounters (restoreBackup_body E C backupId backup options w).1),
     (restoreBackup_body E C backupId backup options w).2).
Proof.
  intros Hrow. unfold restoreBackup. rewrite Hrow. unfold finally, try_catch.
  destruct (restoreBackup_body E C backupId backup options w) as [w1 [res | e]];
    reflexivity.
Qed.

(** [restoreBackup] gives up before it calls the service when there is
    nothing to restore from: a run that is not in the store (then
    nothing changes at all), a run that names no archive, an archive on
    disk whose records cannot be read, and an archive or a selection
    without records end in an error, with no call made and the counters
    reset. *)
Theorem restoreBackup_gives_up_before_calling (E : env) (C : config) (backupId : Z)
    (options : restore_options) (w : world) :
  (Database.getBackupById (store w) backupId = None →
   restoreBackup E C backupId options w
   = (w, Throw (Error "バックアップが見つかりません")))
  ∧ (∀ backup,
       Database.getBackupById (store w) backupId = Some backup →
       Database.file_path backup = None →
       restoreBackup E C backupId options w
       = (KintoneClient.resetCounters w, Throw TypeError))
  ∧ (∀ backup file entries e,
       Database.getBackupById (store w) backupId = Some backup →
       Database.file_path backup = Some file →
       archives w !! path_join (archivesDir C) file = Some entries →
       (extractBackupZip E (path_join (archivesDir C) file) w).2 = Throw e →
       restoreBackup E C backupId options w
       = (KintoneClient.resetCounters w, Throw e))
  ∧ (∀ backup file records,
       Database.getBackupById (store w) backupId = Some backup →
       Database.file_path backup = Some file →
       (extractBackupZip E (path_join (archivesDir C) file) w).2 = Ok records →
       match selectedRecordIds options with
       | Some (i :: ids) => select_records (i :: ids) records
       | _ => Ok records
       end = Ok [] →
       restoreBackup E C backupId options w
       = (KintoneClient.resetCounters w, Throw (Error "復元するレコードがありません"))).
Proof.
  split; [| split; [| split]].
  - intros Hrow. unfold restoreBackup. now rewrite Hrow.
  - intros backup Hrow Hfile.
    assert (Hbody : restoreBackup_body E C backupId backup options w = (w, Throw TypeError)).
    { unfold restoreBackup_body. cbv zeta. rewrite Hfile. reflexivity. }
    rewrite (restoreBackup_run _ _ _ _ _ _ Hrow), Hbody. reflexivity.
  - intros backup file entries e Hrow Hfile Harch Hextract.
    assert (Hbody : restoreBackup_body E C backupId backup options w = (w, Throw e)).
    { unfold restoreBackup_body. cbv zeta. rewrite Hfile.
      rewrite bind_run. unfold lift at 1. cbv beta iota. rewrite bind_run.
      pose proof (extractBackupZip_same E (path_join (archivesDir C) file) w) as Hsame.
      destruct (extractBackupZip E (path_join (archivesDir C) file) w) as [w1 r].
      cbn [fst snd] in *. subst w1 r. reflexivity. }
    rewrite (restoreBackup_run _ _ _ _ _ _ Hrow), Hbody. reflexivity.
  - intros backup file records Hrow Hfile Hextract Hselect.
    assert (Hbody : restoreBackup_body E C backupId backup options w
                    = (w, Throw (Error "復元するレコードがありません"))).
    { unfold restoreBackup_body. cbv zeta. rewrite Hfile.
      rewrite bind_run. unfold lift at 1. cbv beta iota. rewrite bind_run.
      pose proof (extractBackupZip_same E (path_join (archivesDir C) file) w) as Hsame.
      destruct (extractBackupZip E (path_join (archivesDir C) file) w) as [w1 r].
      cbn [fst snd] in *. subst w1 r.
      rewrite bind_run. unfold lift at 1. rewrite Hselect. reflexivity. }
    rewrite (restoreBackup_run _ _ _ _ _ _ Hrow), Hbody. reflexivity.
Qed.

(** [restoreBackup] works on the service only: the store, the archives
    and the attachments are as before (so a restore leaves no row in the
    history), and every call it makes is a look-up or a write of records
    in the app the backup was taken from, or the record added to the
    audit app. *)
Theorem restoreBackup_leaves_local_state (E : env) (C : config) (backupId : Z)
    (options : restore_options) (w : world) :
  let out := restoreBackup E C backupId options w in
  store out.1 = store w
  ∧ archives out.1 = archives w
  ∧ attachments out.1 = attachments w
  ∧ (Database.getBackupById (store w) backupId = None → trace out.1 = trace w)
  ∧ (∀ backup, Database.getBackupById (store w) backupId = Some backup →
       ∃ calls, trace out.1 = trace w ++ calls
                ∧ Forall (restore_call C (Database.app_id backup)) calls).
Proof.
  cbv zeta.
  destruct (Database.getBackupById (store w) backupId) as [backup |] eqn:Hrow.
  - rewrite (restoreBackup_run _ _ _ _ _ _ Hrow). cbn [fst].
    pose proof (restoreBackup_body_touches E C (Database.app_id backup) backupId backup
                  options eq_refl w) as T.
    destruct (touches_calls_only (restore_footprint C (Database.app_id backup)) _ _
                (fun d d' (H : False) => H) (fun p (H : False) => H)
                (fun p (H : False) => H) T) as (Hs & Ha & Ht).
    apply touches_summary in T as (Hcalls & _).
    change (store (KintoneClient.resetCounters ?x)) with (store x).
    change (archives (KintoneClient.resetCounters ?x)) with (archives x).
    change (attachments (KintoneClient.resetCounters ?x)) with (attachments x).
    change (trace (KintoneClient.resetCounters ?x)) with (trace x).
    split; [exact Hs |]. split; [exact Ha |]. split; [exact Ht |].
    split; [discriminate |]. intros b [= <-]. exact Hcalls.
  - unfold restoreBackup. rewrite Hrow. cbn [fst].
    repeat (split; [reflexivity |]). discriminate.
Qed.

(** *** Deleting a run *)


(** The row of a run that threw. *)
Lemma failed_run_row (E : env) (C : config) (appId : string) (options : backup_options)
    (w : world) (e : error) :
  (backupApp E C appId options w).2.2 = Throw e →
  ∃ row,
    Database.getBackupById (store (backupApp E C appId options w).1)
      (backupApp E C appId options w).2.1 = Some row
    ∧ Database.file_path row = None
    ∧ Database.status row = Database.ST_FAILURE.
Proof.
  unfold backupApp.
  destruct (Database.insertBackup (store w) (running_row E appId options))
    as [d backupId] eqn:Hins.
  set (w0 := with_store w d).
  assert (Hrow0 : run_row backupId w0 = Some (running_row E appId options)).
  { unfold Database.insertBackup in Hins. injection Hins as <- <-.
    unfold run_row, w0. simpl. apply lookup_insert_eq. }
  pose proof (try_closed E C backupId appId options w0 _ Hrow0
                (running_row_pending E appId options)) as Hclosed.
  unfold finally.
  destruct (try_catch (backupApp_body E C appId options backupId)
              (backupApp_failed E backupId) w0) as [w1 r].
  cbn [fst snd] in *. intros ->.
  inversion Hclosed as [| | e' row Hr Hc Hf Hs]; subst.
  exists row. split; [exact Hr |]. split; [exact Hf | exact Hs].
Qed.

(** A run that failed stays in the history: its row names no archive, so
    the delete request for it throws and removes nothing, the preview of
    it throws, and a restore from it throws without a call to the
    service. *)
Theorem failed_run_cannot_be_deleted (E : env) (C : config) (appId : string)
    (options : backup_options) (restore : restore_options) (w : world) (e : error) :
  let out := backupApp E C appId options w in
  out.2.2 = Throw e →
  Main.delete_backup C out.2.1 out.1 = (out.1, Throw TypeError)
  ∧ getRecordsFromBackup E C out.2.1 out.1 = (out.1, Throw TypeError)
  ∧ restoreBackup E C out.2.1 restore out.1
    = (KintoneClient.resetCounters out.1, Throw TypeError).
Proof.
  cbv zeta. intros Hthrow.
  destruct (failed_run_row E C appId options w e Hthrow) as (row & Hrow & Hfile & _).
  split; [| split].
  - unfold Main.delete_backup. rewrite Hrow, Hfile. reflexivity.
  - unfold getRecordsFromBackup. rewrite Hrow, Hfile. reflexivity.
  - assert (Hbody : restoreBackup_body E C (backupApp E C appId options w).2.1 row restore
                      (backupApp E C appId options w).1
                    = ((backupApp E C appId options w).1, Throw TypeError)).
    { unfold restoreBackup_body. cbv zeta. rewrite Hfile. reflexivity. }
    rewrite (restoreBackup_run _ _ _ _ _ _ Hrow), Hbody. reflexivity.
Qed.

Lemma failed_run_cannot_be_deleted_witness :
  let out := backupApp Samples.env_down Samples.sample_config "10"
               default_backup_options Samples.fresh_world in
  Main.delete_backup Samples.sample_config out.2.1 out.1 = (out.1, Throw TypeError)
  ∧ getRecordsFromBackup Samples.env_down Samples.sample_config out.2.1 out.1
    = (out.1, Throw TypeError)
  ∧ restoreBackup Samples.env_down Samples.sample_config out.2.1 Samples.restore_all out.1
    = (KintoneClient.resetCounters out.1, Throw TypeError).
Proof.
  apply (failed_run_cannot_be_deleted Samples.env_down Samples.sample_config "10"
           default_backup_options Samples.restore_all Samples.fresh_world (Error "520")).
  vm_compute. reflexivity.
Defined.

End RestoreRuns.

(** ** The look-up of live records *)

Module LookupProps.
Import Effects Js KintoneClient Runs BackupProps Footprints.

Local Open Scope list_scope.

(** The code in the cache that a call answers with. *)
Lemma cached_code_run (E : env) (appId code : string) (w : world) :
  recordNumberFieldCache w !! appId = Some (Some code) → code ≠ EmptyString →
  getRecordNumberFieldCode E appId w = (w, Ok (Some code)).
Proof.
  intros Hc Hne. unfold getRecordNumberFieldCode, try_catch. rewrite Hc.
  unfold text_truthy. destruct (String.eqb code "") eqn:Heq; [| reflexivity].
  apply String.eqb_eq in Heq. contradiction.
Qed.

(** Fetching the form: the outcomes, with the cache and the trace. *)
Lemma determine_field_code_run (E : env) (appId : string) (w : world) :
  let out := determine_field_code E appId w in
  trace out.1 = trace w ++ [GetFormFields appId]
  ∧ match out.2 with
    | Ok found => recordNumberFieldCache out.1 !! appId = Some found
    | Throw _ => recordNumberFieldCache out.1 = recordNumberFieldCache w
    end.
Proof.
  cbv zeta. unfold determine_field_code.
  rewrite bind_run. unfold getFormFields.
  rewrite ClientProps.count_then, ClientProps.send_run. cbn [fst snd].
  destruct (on_getFormFields (remote E) _ appId) as [retries [properties | e]];
    cbn [fst snd]; [| split; reflexivity].
  unfold lift at 1.
  destruct (find_record_number_field properties) as [found | e]; cbn [fst snd].
  - split; [reflexivity |]. simpl. apply lookup_insert_eq.
  - split; reflexivity.
Qed.

(** [getRecordNumberFieldCode] does not throw.  A code it has found is
    answered from the cache from then on, without a call; when it
    answers [null], because the app has no record-number field or
    because the form could not be fetched, the next call fetches the
    form again. *)
Theorem getRecordNumberFieldCode_caches_found_codes (E : env) (appId : string)
    (w : world) :
  let out := getRecordNumberFieldCode E appId w in
  (∃ answer, out.2 = Ok answer)
  ∧ (∀ code, out.2 = Ok (Some code) → code ≠ EmptyString →
       getRecordNumberFieldCode E appId out.1 = (out.1, Ok (Some code)))
  ∧ (out.2 = Ok None →
       trace (getRecordNumberFieldCode E appId out.1).1
       = trace out.1 ++ [GetFormFields appId]).
Proof.
  cbv zeta.
  assert (Hmiss : ∀ w0,
            (∀ code, recordNumberFieldCache w0 !! appId = Some (Some code) →
                     code = EmptyString) →
            getRecordNumberFieldCode E appId w0
            = try_catch (determine_field_code E appId) (fun _ => mret None) w0).
  { intros w0 Hnone. unfold getRecordNumberFieldCode, try_catch.
    destruct (recordNumberFieldCache w0 !! appId) as [[code |] |] eqn:Hc; try reflexivity.
    rewrite (Hnone code eq_refl). reflexivity. }
  assert (Hagain : ∀ w0,
            (∀ code, recordNumberFieldCache w0 !! appId = Some (Some code) →
                     code = EmptyString) →
            trace (getRecordNumberFieldCode E appId w0).1
            = trace w0 ++ [GetFormFields appId]).
  { intros w0 Hnone. rewrite (Hmiss w0 Hnone). unfold try_catch.
    destruct (determine_field_code_run E appId w0) as [Htr _].
    destruct (determine_field_code E appId w0) as [w1 [found | e]]; exact Htr. }
  destruct (recordNumberFieldCache w !! appId) as [[code |] |] eqn:Hc.
  - destruct (String.eqb code "") eqn:Heq.
    + apply String.eqb_eq in Heq. subst code.
      assert (Hnone : ∀ code, recordNumberFieldCache w !! appId = Some (Some code) →
                              code = EmptyString) by (intros c; rewrite Hc; congruence).
      rewrite (Hmiss w Hnone). unfold try_catch.
      destruct (determine_field_code_run E appId w) as [Htr Hcache].
      destruct (determine_field_code E appId w) as [w1 [found | e]];
      cbn [mret M_ret fst snd] in *.
      * split; [now eexists |]. split.
        -- intros c [= ->] Hne. now apply cached_code_run.
        -- intros [= ->]. apply Hagain. intros c. rewrite Hcache. congruence.
      * split; [now eexists |]. split; [intros c [=] |].
        intros _. apply Hagain. intros c. rewrite Hcache. exact (Hnone c).
    + assert (Hne : code ≠ EmptyString).
      { intros ->. discriminate. }
      rewrite (cached_code_run E appId code w Hc Hne). cbn [fst snd].
      split; [now eexists |]. split; [| discriminate].
      intros c [= <-] _. now apply cached_code_run.
  - rewrite (Hmiss w); [| intros c; rewrite Hc; congruence]. unfold try_catch.
    destruct (determine_field_code_run E appId w) as [Htr Hcache].
    destruct (determine_field_code E appId w) as [w1 [found | e]];
      cbn [mret M_ret fst snd] in *.
    + split; [now eexists |]. split.
      * intros c [= ->] Hne. now apply cached_code_run.
      * intros [= ->]. apply Hagain. intros c. rewrite Hcache. congruence.
    + split; [now eexists |]. split; [intros c [=] |].
      intros _. apply Hagain. intros c. rewrite Hcache, Hc. congruence.
  - rewrite (Hmiss w); [| intros c; rewrite Hc; congruence]. unfold try_catch.
    destruct (determine_field_code_run E appId w) as [Htr Hcache].
    destruct (determine_field_code E appId w) as [w1 [found | e]];
      cbn [mret M_ret fst snd] in *.
    + split; [now eexists |]. split.
      * intros c [= ->] Hne. now apply cached_code_run.
      * intros [= ->]. apply Hagain. intros c. rewrite Hcache. congruence.
    + split; [now eexists |]. split; [intros c [=] |].
      intros _. apply Hagain. intros c. rewrite Hcache, Hc. congruence.
Qed.

Lemma try_catch_returns {A} (body : M A) (handler : error → M A) :
  (∀ e, returns (handler e)) → returns (try_catch body handler).
Proof.
  intros Hh w. unfold try_catch.
  destruct (body w) as [w1 [a | e]]; [now exists a | apply Hh].
Qed.

Lemma getRecordNumberFieldCode_returns (E : env) (appId : string) :
  returns (getRecordNumberFieldCode E appId).
Proof.
  apply try_catch_returns. intros e w. now exists None.
Qed.

Lemma null_map_keys (numbers : list string) :
  ∀ (m : gmap string (option string)),
    (∀ n, n ∈ numbers ∨ is_Some (m !! n) →
          is_Some (fold_left (fun m rn => <[rn := None]> m) numbers m !! n))
    ∧ ((∀ k v, m !! k = Some v → v = None) →
       ∀ k v, fold_left (fun m rn => <[rn := None]> m) numbers m !! k = Some v → v = None).
Proof.
  induction numbers as [| x rest IH]; intros m; simpl.
  - split; [intros n [H | H]; [now apply elem_of_nil in H | exact H] | auto].
  - destruct (IH (<[x := None]> m)) as [IH1 IH2]. split.
    + intros n Hn. apply IH1. destruct Hn as [Hn | Hn].
      * apply elem_of_cons in Hn as [-> | Hn]; [right | now left].
        rewrite lookup_insert_eq. now eexists.
      * right. rewrite lookup_insert. case_decide; [now eexists | exact Hn].
    + intros Hm. apply IH2. intros k v. rewrite lookup_insert.
      case_decide; [congruence | apply Hm].
Qed.

Lemma note_row_keys (fieldCode : string) (m : gmap string (option string)) (rec : json)
    (k : string) :
  is_Some (m !! k) → is_Some (note_row fieldCode m rec !! k).
Proof.
  intros Hk. unfold note_row.
  destruct (negb (truthy_opt _)); [exact Hk |].
  destruct (opt_prop (opt_prop (Some rec) fieldCode) "value") as [rn |]; [| exact Hk].
  destruct (or_else _ _) as [i |]; [| exact Hk].
  destruct (truthy i); [| exact Hk].
  rewrite lookup_insert. case_decide; [now eexists | exact Hk].
Qed.

Lemma note_rows_keys (fieldCode : string) (rows : list json) :
  ∀ (m : gmap string (option string)) (k : string),
    is_Some (m !! k) → is_Some (fold_left (note_row fieldCode) rows m !! k).
Proof.
  induction rows as [| r rows IH]; intros m k Hk; simpl; [exact Hk |].
  apply IH. now apply note_row_keys.
Qed.

Lemma resolve_loop_keys (E : env) (appId fieldCode : string) (chunks : list (list string)) :
  ∀ (m : gmap string (option string)) (w : world),
    ∃ m', (resolve_loop E appId fieldCode chunks m w).2 = Ok m'
          ∧ ∀ k, is_Some (m !! k) → is_Some (m' !! k).
Proof.
  induction chunks as [| chunk rest IH]; intros m w.
  - exists m. split; [reflexivity | auto].
  - cbn [resolve_loop]. rewrite bind_run. unfold try_catch.
    rewrite ClientProps.count_then, bind_run, ClientProps.send_run. cbn [fst snd].
    destruct (on_getRecords (remote E) _ appId _ _) as [retries [rows | e]];
      cbn [fst snd mret M_ret].
    + match goal with |- context [resolve_loop E appId fieldCode rest ?m1 ?w1] =>
        destruct (IH m1 w1) as (m' & Hm' & Hkeys) end.
      exists m'. split; [exact Hm' |].
      intros k Hk. apply Hkeys. now apply note_rows_keys.
    + match goal with |- context [resolve_loop E appId fieldCode rest ?m1 ?w1] =>
        destruct (IH m1 w1) as (m' & Hm' & Hkeys) end.
      exists m'. split; [exact Hm' | exact Hkeys].
Qed.

(** [findRecordIdsByRecordNumbers] does not throw, whatever the service
    answers, and its answer has an entry for every number asked for.
    When the app has no record-number field, or its form cannot be
    fetched, every entry is [null].  Nothing is asked for without a call;
    the calls fetch the form and query records of the app, and the store
    and the files are not touched. *)
Theorem findRecordIds_answers_every_number (E : env) (appId : string)
    (numbers : list string) (w : world) :
  let out := findRecordIdsByRecordNumbers E appId numbers w in
  ∃ mapping,
    out.2 = Ok mapping
    ∧ (∀ n, n ∈ numbers → is_Some (mapping !! n))
    ∧ ((getRecordNumberFieldCode E appId w).2 = Ok None →
       ∀ k v, mapping !! k = Some v → v = None)
    ∧ (numbers = [] → out.1 = w ∧ mapping = ∅)
    ∧ store out.1 = store w
    ∧ archives out.1 = archives w
    ∧ attachments out.1 = attachments w
    ∧ ∃ calls, trace out.1 = trace w ++ calls ∧ Forall (lookup_call appId) calls.
Proof.
  cbv zeta.
  pose proof (findRecordIds_touches E (lookup_footprint appId) appId numbers
                eq_refl (fun _ _ => eq_refl) w) as T.
  destruct (touches_calls_only (lookup_footprint appId) _ _
              (fun d d' (H : False) => H) (fun p (H : False) => H)
              (fun p (H : False) => H) T) as (Hs & Ha & Ht).
  apply touches_summary in T as (Hcalls & _).
  assert (Hvalue : ∃ mapping,
            (findRecordIdsByRecordNumbers E appId numbers w).2 = Ok mapping
            ∧ (∀ n, n ∈ numbers → is_Some (mapping !! n))
            ∧ ((getRecordNumberFieldCode E appId w).2 = Ok None →
               ∀ k v, mapping !! k = Some v → v = None)
            ∧ (numbers = [] →
               (findRecordIdsByRecordNumbers E appId numbers w).1 = w ∧ mapping = ∅)).
  { unfold findRecordIdsByRecordNumbers.
    destruct (null_map_keys numbers ∅) as [Hkeys Hnull].
    set (nulls := fold_left (fun m rn => <[rn := None]> m) numbers ∅) in *.
    assert (Hnull' : ∀ k v, nulls !! k = Some v → v = None).
    { apply Hnull. intros k v. rewrite lookup_empty. discriminate. }
    destruct numbers as [| n ns].
    - exists nulls. split; [reflexivity |]. split; [intros x Hx; apply Hkeys; now left |].
      split; [intros _; exact Hnull' |]. intros _. split; reflexivity.
    - rewrite bind_run.
      destruct (getRecordNumberFieldCode_returns E appId w) as [answer Hcode].
      destruct (getRecordNumberFieldCode E appId w) as [w1 [[code |] | e]]; cbn [fst snd] in *.
      + destruct (text_truthy (Some code)).
        * match goal with |- context [resolve_loop E appId code ?cs nulls w1] =>
            destruct (resolve_loop_keys E appId code cs nulls w1) as (m' & Hm' & Hk) end.
          exists m'. split; [exact Hm' |].
          split; [intros x Hx; apply Hk, Hkeys; now left |].
          split; [discriminate | discriminate].
        * exists nulls. split; [reflexivity |].
          split; [intros x Hx; apply Hkeys; now left |].
          split; [discriminate | discriminate].
      + exists nulls. split; [reflexivity |].
        split; [intros x Hx; apply Hkeys; now left |].
        split; [intros _; exact Hnull' | discriminate].
      + exfalso. clear - Hcode. discriminate. }
  destruct Hvalue as (mapping & Hm & Hk & Hn & He).
  exists mapping. repeat (split; [assumption |]). exact Hcalls.
Qed.

End LookupProps.

(** ** Cleaning and keys *)

Module CleanProps.
Import Effects Js BackupManager Runs.

Local Open Scope list_scope.

Lemma distinct_without_middle (l1 l2 : list string) (k : string) :
  distinct (l1 ++ k :: l2) = true → distinct (l1 ++ l2) = true.
Proof.
  induction l1 as [| x l1 IH]; cbn [app distinct].
  - intros H. now apply andb_true_iff in H as [_ H].
  - intros H. apply andb_true_iff in H as [Hx Hrest].
    apply andb_true_iff. split; [| now apply IH].
    apply negb_true_iff in Hx. apply negb_true_iff.
    rewrite existsb_app in *. apply orb_false_iff in Hx as [H1 H2].
    cbn [existsb] in H2. apply orb_false_iff in H2 as [_ H2].
    now rewrite H1, H2.
Qed.

Lemma clean_fold_filter (es : object) :
  ∀ acc, distinct (map fst acc ++ map fst es) = true →
         fold_left clean_step es acc = acc ++ List.filter keeps es.
Proof.
  induction es as [| [k v] es IH]; intros acc Hd.
  - simpl. now rewrite app_nil_r.
  - cbn [fold_left List.filter clean_step map fst] in *. unfold keeps at 1. cbn [fst snd].
    destruct (bool_decide (k ∈ SYSTEM_FIELDS)); cbn [negb andb].
    + apply IH. now apply distinct_without_middle with k.
    + destruct (has_readonly_type v); cbn [negb].
      * apply IH. now apply distinct_without_middle with k.
      * rewrite JsonProps.set_fresh by (eapply JsonProps.distinct_middle; exact Hd).
        rewrite IH.
        -- now rewrite <- app_assoc.
        -- rewrite map_app. cbn [map fst]. now rewrite <- app_assoc.
Qed.

(** For a record whose field codes are distinct, the cleaned record is
    the record without the fields that have a system field code or a
    read-only type: the fields kept are all the others, with their
    values, in the order of the record. *)
Theorem cleanRecordForRestore_drops_in_place (record : json) (es : object) :
  Js.entries record = Some es →
  distinct (map fst es) = true →
  cleanRecordForRestore record = Ok (JObj (List.filter keeps es)).
Proof.
  intros Hes Hd. unfold cleanRecordForRestore. rewrite Hes.
  rewrite (clean_fold_filter es []); [reflexivity | exact Hd].
Qed.

Lemma cleanRecordForRestore_drops_in_place_witness :
  cleanRecordForRestore Samples.order_record
  = Ok (JObj (List.filter keeps
                [("$id", JObj [("type", JStr "__ID__"); ("value", JStr "1")]);
                 ("顧客名", JObj [("type", JStr "SINGLE_LINE_TEXT"); ("value", JStr "山田")]);
                 ("合計", JObj [("type", JStr "CALC"); ("value", JStr "100")]);
                 ("明細", JObj [("type", JStr "SUBTABLE");
                                ("value", JArr [JObj [("id", JStr "7");
                                   ("value", JObj [("単価", JObj [("type", JStr "NUMBER");
                                                                  ("value", JStr "100")]);
                                                   ("小計", Samples.subtotal)])]])])])).
Proof.
  apply (cleanRecordForRestore_drops_in_place Samples.order_record).
  - reflexivity.
  - vm_compute. reflexivity.
Defined.

Lemma set_keys (o : object) (k : string) (v : json) (x : string) :
  existsb (String.eqb x) (map fst (Js.set o k v))
  = existsb (String.eqb x) (map fst o) || String.eqb x k.
Proof.
  induction o as [| [k' v'] o IH]; cbn [Js.set map fst existsb].
  - now rewrite orb_false_r.
  - destruct (String.eqb k' k) eqn:Hk; cbn [map fst existsb].
    + apply String.eqb_eq in Hk. subst k'.
      destruct (String.eqb x k); [reflexivity |]. cbn [orb]. now rewrite orb_false_r.
    + rewrite IH. now rewrite orb_assoc.
Qed.

Lemma set_distinct (o : object) (k : string) (v : json) :
  distinct (map fst o) = true → distinct (map fst (Js.set o k v)) = true.
Proof.
  induction o as [| [k' v'] o IH]; cbn [Js.set map fst distinct]; [reflexivity |].
  intros H. apply andb_true_iff in H as [Hk' Ho].
  destruct (String.eqb k' k) eqn:Hk; cbn [map fst distinct].
  - now rewrite Hk', Ho.
  - rewrite set_keys, Hk, orb_false_r, Hk'. cbn [andb]. now apply IH.
Qed.

Lemma clean_fold_distinct (es : object) :
  ∀ acc, distinct (map fst acc) = true →
         distinct (map fst (fold_left clean_step es acc)) = true.
Proof.
  induction es as [| [k v] es IH]; intros acc Hd; [exact Hd |].
  cbn [fold_left clean_step]. apply IH.
  destruct (bool_decide (k ∈ SYSTEM_FIELDS)); [exact Hd |].
  destruct (has_readonly_type v); [exact Hd | now apply set_distinct].
Qed.

Lemma filter_all_kept (o : object) : Forall passes o → List.filter keeps o = o.
Proof.
  induction 1 as [| m o [Hs Hr] _ IH]; [reflexivity |].
  cbn [List.filter]. unfold keeps at 1.
  rewrite bool_decide_false by exact Hs. rewrite Hr. cbn [negb andb]. now rewrite IH.
Qed.

(** Cleaning is idempotent: the cleaned form of a cleaned record is that
    record, whatever the record was; and the field codes of a cleaned
    record are distinct. *)
Theorem cleanRecordForRestore_idempotent (record cleaned : json) :
  cleanRecordForRestore record = Ok cleaned →
  cleanRecordForRestore cleaned = Ok cleaned
  ∧ ∃ o, cleaned = JObj o ∧ distinct (map fst o) = true.
Proof.
  unfold cleanRecordForRestore at 1.
  destruct (Js.entries record) as [es |]; [| discriminate].
  intros [= <-].
  assert (Hd : distinct (map fst (fold_left clean_step es [])) = true)
    by now apply clean_fold_distinct.
  assert (Hp : Forall passes (fold_left clean_step es []))
    by (apply RestoreProps.clean_fold_passes; constructor).
  split; [| eexists; split; [reflexivity | exact Hd]].
  unfold cleanRecordForRestore. cbn [Js.entries].
  rewrite (clean_fold_filter _ []) by exact Hd.
  now rewrite filter_all_kept.
Qed.

Lemma cleanRecordForRestore_idempotent_witness :
  cleanRecordForRestore Samples.order_cleaned = Ok Samples.order_cleaned
  ∧ ∃ o, Samples.order_cleaned = JObj o ∧ distinct (map fst o) = true.
Proof.
  apply (cleanRecordForRestore_idempotent Samples.order_record Samples.order_cleaned).
  vm_compute. reflexivity.
Defined.

(** *** The keys looked up *)

Lemma unique_keys_fold (keys : list (option string)) :
  ∀ seen,
    NoDup seen →
    let result :=
      fold_left (fun seen k =>
                   match k with
                   | Some s => if bool_decide (s ∈ seen) then seen else seen ++ [s]
                   | None => seen
                   end) keys seen in
    NoDup result
    ∧ (∀ s, s ∈ result ↔ s ∈ seen ∨ Some s ∈ keys)
    ∧ ∃ more, result = seen ++ more ∧ more `sublist_of` omap (fun k => k) keys.
Proof.
  induction keys as [| [s |] keys IH]; intros seen Hnd; cbv zeta; cbn [fold_left].
  - split; [exact Hnd |]. split.
    + intros s. split; [now left | intros [H | H]; [exact H | now apply elem_of_nil in H]].
    + exists []. split; [now rewrite app_nil_r | constructor].
  - case_bool_decide as Hin.
    + destruct (IH seen Hnd) as (Hn & Hm & more & Hres & Hsub). cbv zeta in *.
      split; [exact Hn |]. split.
      * intros x. rewrite Hm, elem_of_cons. split; [tauto |].
        intros [H | [[= ->] | H]]; tauto.
      * exists more. split; [exact Hres |]. cbn [omap list_omap]. now apply sublist_cons.
    + assert (Hnd' : NoDup (seen ++ [s])).
      { apply NoDup_app. split; [exact Hnd |]. split; [| apply NoDup_singleton].
        intros x Hx Hxs. apply list_elem_of_singleton in Hxs. subst x. contradiction. }
      destruct (IH (seen ++ [s]) Hnd') as (Hn & Hm & more & Hres & Hsub). cbv zeta in *.
      split; [exact Hn |]. split.
      * intros x. rewrite Hm, elem_of_app, list_elem_of_singleton, elem_of_cons.
        split; [intros [[H | ->] | H]; auto | intros [H | [[= ->] | H]]; auto].
      * exists (s :: more). split; [now rewrite Hres, <- app_assoc |].
        cbn [omap list_omap]. now apply sublist_skip.
  - destruct (IH seen Hnd) as (Hn & Hm & more & Hres & Hsub). cbv zeta in *.
    split; [exact Hn |]. split.
    + intros x. rewrite Hm, elem_of_cons. split; [tauto |].
      intros [H | [[=] | H]]; tauto.
    + exists more. split; [exact Hres | exact Hsub].
Qed.

(** The keys a restore looks up are the keys of the records, each once,
    in the order of the records: records without a key contribute none,
    and a key that several records share is looked up once. *)
Theorem unique_keys_holds_each_key_once (keys : list (option string)) :
  NoDup (unique_keys keys)
  ∧ (∀ s, s ∈ unique_keys keys ↔ Some s ∈ keys)
  ∧ unique_keys keys `sublist_of` omap (fun k => k) keys.
Proof.
  destruct (unique_keys_fold keys [] (NoDup_nil_2 (A := string))) as (Hn & Hm & more & Hres & Hsub).
  cbv zeta in *. fold (unique_keys keys) in *.
  split; [exact Hn |]. split.
  - intros s. rewrite Hm. split; [intros [H | H]; [now apply elem_of_nil in H | exact H] |].
    now right.
  - rewrite Hres. exact Hsub.
Qed.

End CleanProps.

(** ** The archive codec on ASCII records *)

Module AsciiProps.
Import Effects Js BackupManager Runs.

Local Open Scope list_scope.
Local Infix "+++" := String.append (at level 60, right associativity).

Lemma ascii_app (a b : string) : ascii_text (a +++ b) = ascii_text a && ascii_text b.
Proof.
  induction a as [| c a IH]; [reflexivity |].
  change (String c a +++ b) with (String c (a +++ b)).
  cbn [ascii_text]. now rewrite IH, andb_assoc.
Qed.

Lemma Buffer_toString_ascii (s : string) : ascii_text s = true → Buffer_toString s = s.
Proof.
  induction s as [| c s IH]; [reflexivity |].
  cbn [ascii_text]. intros H. apply andb_true_iff in H as [Hc Hs].
  cbn [Buffer_toString]. rewrite Hc. now rewrite IH.
Qed.

Lemma quote_char_ascii (c : ascii) :
  byte_in 0 127 c = true → ascii_text (quote_char c) = true.
Proof.
  destruct c as [[] [] [] [] [] [] [] []]; intros H;
    first [discriminate H | vm_compute; reflexivity].
Qed.

Lemma quote_ascii (s : string) : ascii_text s = true → ascii_text (quote s) = true.
Proof.
  intros Hs. unfold quote. rewrite !ascii_app.
  assert (Hbody : ascii_text (quote_body s) = true).
  { induction s as [| c s IH]; [reflexivity |].
    cbn [ascii_text] in Hs. apply andb_true_iff in Hs as [Hc Hs].
    cbn [quote_body]. rewrite ascii_app, quote_char_ascii by exact Hc. now apply IH. }
  now rewrite Hbody.
Qed.

Lemma digits_ascii (s : string) : all_digits s = true → ascii_text s = true.
Proof.
  induction s as [| c s IH]; [reflexivity |].
  cbn [all_digits ascii_text]. intros H. apply andb_true_iff in H as [Hc Hs].
  rewrite IH by exact Hs. rewrite andb_true_r.
  unfold byte_in in *. apply andb_true_iff in Hc as [_ Hhi].
  apply Nat.leb_le in Hhi. apply andb_true_iff. split; apply Nat.leb_le; lia.
Qed.

Lemma Z_to_string_ascii (n : Z) : ascii_text (Z_to_string n) = true.
Proof.
  destruct (JsonProps.Z_to_string_spec n)
    as (c & d & Hall & _ & [(_ & -> & _) | (_ & -> & _)]).
  - now apply digits_ascii.
  - change (ascii_text (String "-" (String c d)))
      with (byte_in 0 127 "-" && ascii_text (String c d)).
    rewrite (digits_ascii _ Hall). reflexivity.
Qed.

Lemma join_ascii (sep : string) (texts : list string) :
  ascii_text sep = true → Forall (fun t => ascii_text t = true) texts →
  ascii_text (join sep texts) = true.
Proof.
  intros Hsep. induction 1 as [| t texts Ht Hrest IH]; [reflexivity |].
  destruct texts as [| t' texts]; [exact Ht |].
  change (join sep (t :: t' :: texts)) with (t +++ sep +++ join sep (t' :: texts)).
  now rewrite !ascii_app, Ht, Hsep, IH.
Qed.

Lemma blank_ascii (indent : string) : blank indent = true → ascii_text indent = true.
Proof.
  induction indent as [| c s IH]; [reflexivity |].
  cbn [blank ascii_text]. intros H. apply andb_true_iff in H as [Hc Hs].
  rewrite IH by exact Hs. rewrite andb_true_r. apply Nat.eqb_eq in Hc.
  unfold byte_in. rewrite Hc. reflexivity.
Qed.

(** The text of a value of ASCII texts is an ASCII text. *)
Lemma stringify_ascii (v : json) :
  ∀ indent, ascii_value v = true → ascii_text indent = true →
            ascii_text (stringify indent v) = true.
Proof.
  revert v.
  apply (JsonProps.json_induction
           (fun v => ∀ indent, ascii_value v = true → ascii_text indent = true →
                               ascii_text (stringify indent v) = true)).
  - reflexivity.
  - intros [] ? ? ?; reflexivity.
  - intros n ? ? ?. apply Z_to_string_ascii.
  - intros s indent Hs _. now apply quote_ascii.
  - intros items IH indent Hv Hi. destruct items as [| i items]; [reflexivity |].
    cbn [stringify]. cbv zeta.
    assert (Hi' : ascii_text (indent +++ GAP) = true) by now rewrite ascii_app, Hi.
    set (indent' := indent +++ GAP) in *.
    rewrite !ascii_app, Hi, Hi'. cbn [ascii_text NL byte_in andb]. rewrite !andb_true_r.
    apply andb_true_iff. split; [reflexivity |].
    apply join_ascii; [now rewrite !ascii_app, Hi' |].
    cbn [ascii_value] in Hv. pose proof (proj1 (List.forallb_forall _ _) Hv) as Hall.
    clear Hv. rename Hall into Hv.
    apply Forall_forall. intros t Ht. apply list_elem_of_In, in_map_iff in Ht
      as (x & <- & Hx).
    rewrite Forall_forall in IH. apply IH; [now apply list_elem_of_In | now apply Hv | exact Hi'].
  - intros members IH indent Hv Hi. destruct members as [| m members]; [reflexivity |].
    cbn [stringify]. cbv zeta.
    assert (Hi' : ascii_text (indent +++ GAP) = true) by now rewrite ascii_app, Hi.
    set (indent' := indent +++ GAP) in *.
    rewrite !ascii_app, Hi, Hi'. cbn [ascii_text NL byte_in andb]. rewrite !andb_true_r.
    apply andb_true_iff. split; [reflexivity |].
    apply join_ascii; [now rewrite !ascii_app, Hi' |].
    cbn [ascii_value] in Hv. pose proof (proj1 (List.forallb_forall _ _) Hv) as Hall.
    clear Hv. rename Hall into Hv.
    apply Forall_forall. intros t Ht. apply list_elem_of_In, in_map_iff in Ht
      as (x & <- & Hx).
    specialize (Hv x Hx). apply andb_true_iff in Hv as [Hk Hx'].
    rewrite !ascii_app, (quote_ascii _ Hk). cbn [ascii_text byte_in andb].
    rewrite Forall_forall in IH. apply IH; [now apply list_elem_of_In | exact Hx' | exact Hi'].
Qed.

Lemma split_at_parts (n : nat) (s : string) :
  (split_at n s).1 +++ (split_at n s).2 = s
  ∧ (String.length (split_at n s).2 = String.length s - n)%nat.
Proof.
  revert s. induction n as [| n IH]; intros s.
  - destruct s; simpl; split; reflexivity || lia.
  - destruct s as [| c s]; [split; reflexivity |].
    cbn [split_at]. destruct (IH s) as [Happ Hlen].
    destruct (split_at n s) as [a b]. cbn [fst snd] in *.
    split; [| exact Hlen].
    change (String c a +++ b) with (String c (a +++ b)). now rewrite Happ.
Qed.

(** An ASCII text arrives as it was written, whatever the size of the
    chunks. *)
Lemma chunks_ascii (n : nat) :
  (0 < n)%nat →
  ∀ (fuel : nat) (s acc : string),
    (String.length s <= fuel)%nat → ascii_text s = true →
    fold_left (fun acc chunk => acc +++ Buffer_toString chunk) (chunks (S fuel) n s) acc
    = acc +++ s.
Proof.
  intros Hn. induction fuel as [| fuel IH]; intros s acc Hlen Hs.
  - destruct s; [| simpl in Hlen; lia]. simpl. now rewrite JsonProps.sapp_nil_r.
  - destruct s as [| c s]; [simpl; now rewrite JsonProps.sapp_nil_r |].
    change (chunks (S (S fuel)) n (String c s))
      with (let '(a, b) := split_at n (String c s) in a :: chunks (S fuel) n b).
    destruct (split_at_parts n (String c s)) as [Happ Hrest].
    destruct (split_at n (String c s)) as [a b]. cbn [fst snd] in *.
    rewrite <- Happ in Hs. rewrite ascii_app in Hs. apply andb_true_iff in Hs as [Ha Hb].
    cbn [fold_left]. rewrite (Buffer_toString_ascii a Ha).
    rewrite IH; [| cbn [String.length] in *; lia | exact Hb].
    now rewrite JsonProps.sapp_assoc, Happ.
Qed.

(** The round trip of the archive holds for records of ASCII texts,
    whatever the size of the chunks the archive is read in: the records
    read are the records written, in their order. *)
Theorem round_trip_of_ascii_records (E : env) (appId : string) (records : list json)
    (zipFilePath : string) (w : world) :
  write_fails E zipFilePath = false →
  forallb well_formed records = true →
  forallb ascii_value records = true →
  (0 < chunk_size E)%nat →
  (extractBackupZip E zipFilePath
     (createBackupZip E appId records zipFilePath w).1).2 = Ok records.
Proof.
  intros Hw Hwf Hascii Hchunk.
  pose proof (JsonProps.JSON_round_trip (JArr records) Hwf) as Hparse.
  assert (Htext : ascii_text (JSON_stringify (JArr records)) = true)
    by (apply stringify_ascii; [exact Hascii | reflexivity]).
  destruct (CodecProps.createBackupZip_written E appId records zipFilePath w Hw)
    as (manifest & Harch & _).
  unfold extractBackupZip. rewrite Harch.
  cbn [fold_left on_entry recordsJson extracted rejected].
  cbn [String.eqb Ascii.eqb Bool.eqb].
  unfold received.
  rewrite (chunks_ascii (chunk_size E) Hchunk) by (exact Htext || lia).
  change ("" +++ "" +++ JSON_stringify (JArr records))
    with (JSON_stringify (JArr records)).
  rewrite Hparse. reflexivity.
Qed.

Lemma round_trip_of_ascii_records_witness :
  (extractBackupZip (Samples.env_where [] false false) "archives/a.zip"
     (createBackupZip (Samples.env_where [] false false) "10"
        [JObj [("memo", JObj [("type", JStr "MULTI_LINE_TEXT");
                                 ("value", JStr (Samples.letters 40))])]] "archives/a.zip"
        Samples.fresh_world).1).2
  = Ok [JObj [("memo", JObj [("type", JStr "MULTI_LINE_TEXT");
                                 ("value", JStr (Samples.letters 40))])]].
Proof.
  apply (round_trip_of_ascii_records (Samples.env_where [] false false) "10"
           [JObj [("memo", JObj [("type", JStr "MULTI_LINE_TEXT");
                                 ("value", JStr (Samples.letters 40))])]] "archives/a.zip"
           Samples.fresh_world).
  - reflexivity.
  - vm_compute. reflexivity.
  - vm_compute. reflexivity.
  - apply Nat.ltb_lt. vm_compute. reflexivity.
Defined.

End AsciiProps.

(** ** Steps of a backup: the archive and the record markers *)

Module StepProps.
Import Effects Js BackupManager Runs BackupProps.

Local Open Scope list_scope.

(** [JSON.parse] reads back what [JSON.stringify] wrote with an indent of
    two, for every value whose objects have distinct property names; so
    two such values with the same text are the same value. *)
Theorem JSON_parse_inverts_stringify (v : json) :
  well_formed v = true →
  JSON_parse (JSON_stringify v) = Some v
  ∧ (∀ v', well_formed v' = true → JSON_stringify v' = JSON_stringify v → v' = v).
Proof.
  intros Hwf. pose proof (JsonProps.JSON_round_trip v Hwf) as Hv.
  split; [exact Hv |].
  intros v' Hwf' Htext.
  pose proof (JsonProps.JSON_round_trip v' Hwf') as Hv'.
  rewrite Htext, Hv in Hv'. now injection Hv'.
Qed.

Lemma JSON_parse_inverts_stringify_witness :
  JSON_parse (JSON_stringify (JArr [Samples.order_record; Samples.customer "2" "鈴木"]))
  = Some (JArr [Samples.order_record; Samples.customer "2" "鈴木"])
  ∧ (∀ v', well_formed v' = true →
       JSON_stringify v'
       = JSON_stringify (JArr [Samples.order_record; Samples.customer "2" "鈴木"]) →
       v' = JArr [Samples.order_record; Samples.customer "2" "鈴木"]).
Proof.
  apply (JSON_parse_inverts_stringify
           (JArr [Samples.order_record; Samples.customer "2" "鈴木"])).
  vm_compute. reflexivity.
Defined.

(** [createBackupZip] asks for the form of the app once, whether or not
    the form arrives, and touches neither the store nor the attachments.
    When the archive is written it holds the records as one JSON text and
    a manifest with the app, the number of records and the form ([null]
    when it could not be fetched).  The byte length of the records text
    is returned whenever the output file closes: also when the file could
    not be written, so that a caller is not told of the failure.  Only an
    error of the archiver makes it throw. *)
Theorem createBackupZip_writes_records_and_manifest (E : env) (appId : string)
    (records : list json) (zipFilePath : string) (w : world) :
  let out := createBackupZip E appId records zipFilePath w in
  let form := (on_getFormFields (remote E) (length (trace w)) appId).2 in
  let size := Z.of_nat (String.length (JSON_stringify (JArr records))) in
  trace out.1 = trace w ++ [GetFormFields appId]
  ∧ store out.1 = store w
  ∧ attachments out.1 = attachments w
  ∧ (∀ p, p ≠ zipFilePath → archives out.1 !! p = archives w !! p)
  ∧ match archive_stream E zipFilePath with
    | Written =>
        out.2 = Ok size
        ∧ ∃ manifest,
            archives out.1 !! zipFilePath
            = Some [("records.json", JSON_stringify (JArr records));
                    ("backup_metadata.json", JSON_stringify manifest)]
            ∧ Js.prop manifest "appId" = Some (JStr appId)
            ∧ Js.prop manifest "recordCount"
              = Some (JNum (Z.of_nat (length records)))
            ∧ Js.prop manifest "fieldProperties"
              = Some match form with
                     | Ok properties => JObj properties
                     | Throw _ => JNull
                     end
    | Output_error remains =>
        out.2 = Ok size
        ∧ archives out.1 !! zipFilePath
          = match remains with
            | Some c => Some c
            | None => archives w !! zipFilePath
            end
    | Archiver_error e remains =>
        out.2 = Throw e
        ∧ archives out.1 !! zipFilePath
          = match remains with
            | Some c => Some c
            | None => archives w !! zipFilePath
            end
    end.
Proof.
  cbv zeta. unfold createBackupZip. cbv zeta.
  rewrite bind_run. unfold try_catch. rewrite bind_run.
  unfold KintoneClient.getFormFields.
  rewrite ClientProps.count_then, ClientProps.send_run.
  change (trace (with_stats w _)) with (trace w).
  assert (Hleft : ∀ remains (files : gmap string container) p,
            p ≠ zipFilePath → left_at zipFilePath remains files !! p = files !! p).
  { intros [c |] files p Hp; cbn [left_at]; [now apply lookup_insert_ne | reflexivity]. }
  assert (Hat : ∀ remains (files : gmap string container),
            left_at zipFilePath remains files !! zipFilePath
            = match remains with Some c => Some c | None => files !! zipFilePath end).
  { intros [c |] files; cbn [left_at]; [apply lookup_insert_eq | reflexivity]. }
  destruct (on_getFormFields (remote E) (length (trace w)) appId)
    as [retries [properties | e]]; cbn [fst snd mret M_ret];
    destruct (archive_stream E zipFilePath) as [| remains | e' remains];
    cbn [fst snd trace store archives attachments with_trace with_stats with_archives];
    (split; [reflexivity |]); (split; [reflexivity |]); (split; [reflexivity |]);
    (split; [intros p Hp; first [now apply lookup_insert_ne | now apply Hleft] |]);
    try (split; [reflexivity | apply Hat]).
  - split; [reflexivity |]. eexists. split; [apply lookup_insert_eq |]. repeat split.
  - split; [reflexivity |]. eexists. split; [apply lookup_insert_eq |]. repeat split.
Qed.

Lemma lift_then {A B} (r : result A) (f : A → M B) (w : world) :
  (lift r ≫= f) w = match r with Ok a => f a w | Throw e => (w, Throw e) end.
Proof. destruct r; reflexivity. Qed.

Lemma index_record_run (appId startTime : string) (backupId : Z) (fields : object)
    (w : world) :
  let record := JObj fields in
  let value_of code := Js.opt_prop (Js.prop record code) "value" in
  let updatedTime :=
    or_else (value_of "$revision")
      (or_else (value_of "更新日時") (Some (JStr startTime))) in
  index_record appId startTime backupId record w
  = match member (Js.prop record "$id") "value" with
    | Throw e => (w, Throw e)
    | Ok recordId =>
        match bind_value recordId, bind_value updatedTime with
        | Throw e, _ => (w, Throw e)
        | Ok _, Throw e => (w, Throw e)
        | Ok rid, Ok ut =>
            match not_null "record_index.record_id" rid,
                  not_null "record_index.updated_time" ut with
            | Throw e, _ => (w, Throw e)
            | Ok _, Throw e => (w, Throw e)
            | Ok i, Ok t =>
                (with_store w (Database.upsertRecordIndex (store w) appId i t backupId),
                 Ok tt)
            end
        end
    end.
Proof.
  cbv zeta. unfold index_record.
  do 3 (rewrite lift_then; cbn [member]; cbv beta iota).
  rewrite lift_then.
  destruct (member (Js.prop (JObj fields) "$id") "value") as [recordId | e];
    [| reflexivity].
  rewrite lift_then. destruct (bind_value recordId) as [rid | e]; [| reflexivity].
  rewrite lift_then. destruct (bind_value _) as [ut | e]; [| reflexivity].
  rewrite lift_then. destruct (not_null _ rid) as [i | e]; [| reflexivity].
  rewrite lift_then. destruct (not_null _ ut) as [t | e]; reflexivity.
Qed.

(** The time [backupApp] stores in the marker of a record is the value
    of [$revision] when the record has one, else the value of the
    update-time field, else the start time of the run; the marker is
    stored under the value of [$id] and names the run.  A record without
    [$id] makes the step throw a [TypeError]; for a record whose [$id]
    has no value the value is bound as NULL, which the column refuses (or
    the time cannot be bound, a [TypeError]); in both cases no marker is
    stored. *)
Theorem marker_time_is_the_revision (appId startTime : string) (backupId : Z)
    (fields : object) (w : world) :
  let record := JObj fields in
  let value_of code := Js.opt_prop (Js.prop record code) "value" in
  let stored i t :=
    (with_store w (Database.upsertRecordIndex (store w) appId i t backupId), Ok tt) in
  (∀ i rev, value_of "$id" = Some (JStr i) → value_of "$revision" = Some (JStr rev) →
     rev ≠ EmptyString →
     index_record appId startTime backupId record w = stored i rev)
  ∧ (∀ i t, value_of "$id" = Some (JStr i) → Js.truthy_opt (value_of "$revision") = false →
       value_of "更新日時" = Some (JStr t) → t ≠ EmptyString →
       index_record appId startTime backupId record w = stored i t)
  ∧ (∀ i, value_of "$id" = Some (JStr i) → Js.truthy_opt (value_of "$revision") = false →
       Js.truthy_opt (value_of "更新日時") = false →
       index_record appId startTime backupId record w = stored i startTime)
  ∧ (Js.prop record "$id" = None ∨ Js.prop record "$id" = Some JNull →
     index_record appId startTime backupId record w = (w, Throw TypeError))
  ∧ (∀ idField, Js.prop record "$id" = Some idField → idField ≠ JNull →
       Js.prop idField "value" = None ∨ Js.prop idField "value" = Some JNull →
       index_record appId startTime backupId record w
       = (w, Throw match bind_value
                           (or_else (value_of "$revision")
                              (or_else (value_of "更新日時") (Some (JStr startTime)))) with
                   | Throw e => e
                   | Ok _ => Error "NOT NULL constraint failed: record_index.record_id"
                   end)).
Proof.
  cbv zeta. pose proof (index_record_run appId startTime backupId fields w) as Hrun.
  cbv zeta in Hrun. rewrite Hrun. clear Hrun.
  assert (Hid : ∀ v, Js.opt_prop (Js.prop (JObj fields) "$id") "value" = Some v →
                     member (Js.prop (JObj fields) "$id") "value" = Ok (Some v)).
  { intros v. destruct (Js.prop (JObj fields) "$id") as [[ | | | | |] |];
      cbn [opt_prop member prop]; try discriminate; now intros ->. }
  split; [| split; [| split; [| split]]].
  - intros i rev Hi Hrev Hne. rewrite (Hid _ Hi), Hrev.
    unfold or_else at 1. cbn [truthy_opt truthy].
    destruct (String.eqb rev "") eqn:Heq; [apply String.eqb_eq in Heq; contradiction |].
    reflexivity.
  - intros i t Hi Hrev Ht Hne. rewrite (Hid _ Hi).
    unfold or_else at 1. rewrite Hrev, Ht.
    unfold or_else. cbn [truthy_opt truthy].
    destruct (String.eqb t "") eqn:Heq; [apply String.eqb_eq in Heq; contradiction |].
    reflexivity.
  - intros i Hi Hrev Ht. rewrite (Hid _ Hi).
    unfold or_else at 1. rewrite Hrev.
    unfold or_else. rewrite Ht. reflexivity.
  - intros [-> | ->]; reflexivity.
  - intros idField -> Hnull Hvalue.
    assert (Hbound : ∃ recordId, member (Some idField) "value" = Ok recordId
                                 ∧ bind_value recordId = Ok None).
    { destruct idField; try contradiction; cbn [member];
        destruct Hvalue as [-> | ->]; eexists; split; reflexivity. }
    destruct Hbound as (recordId & -> & ->).
    match goal with |- context [bind_value ?v] =>
      destruct (bind_value v) as [ut | e] end; reflexivity.
Qed.

End StepProps.

(** ** Restore: what is sent follows the resolution of the keys *)

Module ReconcileProps.
Import Effects Js KintoneClient BackupManager Runs BackupProps Footprints.

Local Open Scope list_scope.

#[local] Existing Instance touches_refl.
#[local] Existing Instance touches_trans.

Lemma lookup_call_no_write (appId : string) (calls : list call) :
  Forall (lookup_call appId) calls → List.filter is_write calls = [].
Proof.
  induction 1 as [| c calls Hc _ IH]; [reflexivity |].
  simpl. rewrite IH. destruct c; simpl in *; try reflexivity; contradiction.
Qed.

Lemma audit_call_no_write (C : config) (appId : string) (calls : list call) :
  Forall (backup_call C appId) calls → List.filter is_write calls = [].
Proof.
  induction 1 as [| c calls Hc _ IH]; [reflexivity |].
  simpl. rewrite IH. destruct c; simpl in *; try reflexivity; contradiction.
Qed.

(** The look-up of the keys answers with a mapping, whatever the service
    does, and sends no record. *)
Lemma resolve_keys_run (E : env) (appId : string) (numbers : list string) (w : world) :
  (∃ mapping, (resolve_keys E appId numbers w).2 = Ok mapping)
  ∧ List.filter is_write (trace (resolve_keys E appId numbers w).1)
    = List.filter is_write (trace w).
Proof.
  split.
  - unfold resolve_keys. destruct numbers as [| n ns]; [now eexists |].
    unfold try_catch.
    destruct (findRecordIdsByRecordNumbers E appId (n :: ns) w) as [w1 [m | e]];
      now eexists.
  - assert (T : respects (touches (lookup_footprint appId))
                  (resolve_keys E appId numbers)).
    { unfold resolve_keys. destruct numbers; [rret |].
      rtry; [| intros ?; rret].
      apply findRecordIds_touches; [reflexivity | intros; reflexivity]. }
    destruct (touches_summary _ _ _ (T w)) as ((calls & -> & Hcalls) & _).
    rewrite List.filter_app, (lookup_call_no_write appId calls Hcalls).
    apply app_nil_r.
Qed.

(** The audit entry of a restore: no throw, no record sent. *)
Lemma restore_log_run (E : env) (C : config) (logData : audit_entry) (w : world) :
  (logToKintoneBackupApp E C logData w).2 = Ok tt
  ∧ List.filter is_write (trace (logToKintoneBackupApp E C logData w).1)
    = List.filter is_write (trace w).
Proof.
  split; [apply logToKintoneBackupApp_total |].
  pose proof (logToKintoneBackupApp_touches E C "" (backup_footprint E C "" "" 0)
                (fun c H => H) logData w) as T.
  destruct (touches_summary _ _ _ T) as ((calls & -> & Hcalls) & _).
  rewrite List.filter_app, (audit_call_no_write C "" calls Hcalls).
  apply app_nil_r.
Qed.

Lemma batches_of_some {A} (x : A) (l : list A) :
  batches (length (x :: l)) 100 (x :: l) ≠ [].
Proof. cbn [length batches]. discriminate. Qed.

(** The update partition is sent batch by batch; a failure ends the
    sending and is reported as a flag, with the count 0. *)
Lemma apply_updates_run (E : env) (appId : string) (updates : list update_entry)
    (w : world) :
  let out := apply_updates E appId updates w in
  ∃ sent n failed,
    out.2 = Ok (n, failed)
    ∧ sent `prefix_of` batches (length updates) 100 updates
    ∧ trace out.1 = trace w ++ map (UpdateRecords appId) sent
    ∧ (updates ≠ [] → sent ≠ [])
    ∧ (failed = false →
       sent = batches (length updates) 100 updates ∧ n = Z.of_nat (length updates))
    ∧ (failed = true → n = 0).
Proof.
  cbv zeta. destruct updates as [| u us].
  - exists [], 0, false. cbn. rewrite app_nil_r. repeat split; try easy.
  - set (bs := batches (length (u :: us)) 100 (u :: us)).
    set (w1 := with_stats w {| apiRequestCount := apiRequestCount (stats w) + 1;
                               retryCount := retryCount (stats w) |}).
    assert (Hrun : apply_updates E appId (u :: us) w
                   = match updateRecords_loop E appId bs w1 with
                     | (w2, Ok _) => (w2, Ok (Z.of_nat (length (u :: us)), false))
                     | (w2, Throw _) => (w2, Ok (0, true))
                     end).
    { unfold apply_updates, updateAllRecords, updateRecords, try_catch.
      rewrite !bind_run. change (count_request 1 w) with (w1, Ok tt).
      cbv beta iota. rewrite bind_run. fold bs.
      destruct (updateRecords_loop E appId bs w1) as [w2 [[] | e]]; reflexivity. }
    rewrite Hrun. clear Hrun.
    destruct (ClientProps.updateRecords_loop_spec E appId bs w1)
      as (sent & Hpre & Htr & Hok & Hthrow & _).
    destruct (updateRecords_loop E appId bs w1) as [w2 [[] | e]] eqn:Hloop;
      cbn [fst snd] in *.
    + destruct (Hok eq_refl) as [-> _].
      exists (batches (length (u :: us)) 100 (u :: us)), (Z.of_nat (length (u :: us))), false.
      split; [reflexivity |]. split; [reflexivity |]. split; [exact Htr |].
      split; [intros _; apply batches_of_some |]. split; [now split | discriminate].
    + exists sent, 0, true.
      split; [reflexivity |]. split; [exact Hpre |]. split; [exact Htr |].
      split; [intros _; exact (Hthrow e eq_refl) |]. split; [discriminate | reflexivity].
Qed.

(** The add partition likewise; the count is the number of identifiers
    the service answered with. *)
Lemma apply_adds_run (E : env) (appId : string) (adds : list json) (w : world) :
  let out := apply_adds E appId adds w in
  ∃ sent n failed,
    out.2 = Ok (n, failed)
    ∧ sent `prefix_of` batches (length adds) 100 adds
    ∧ trace out.1 = trace w ++ map (AddRecords appId) sent
    ∧ (adds ≠ [] → sent ≠ [])
    ∧ (failed = false → sent = batches (length adds) 100 adds)
    ∧ (failed = true → n = 0).
Proof.
  cbv zeta. destruct adds as [| a rest].
  - exists [], 0, false. cbn. rewrite app_nil_r. repeat split; try easy.
  - set (bs := batches (length (a :: rest)) 100 (a :: rest)).
    set (w1 := with_stats w {| apiRequestCount := apiRequestCount (stats w) + 1;
                               retryCount := retryCount (stats w) |}).
    assert (Hrun : apply_adds E appId (a :: rest) w
                   = match addRecords_loop E appId bs [] w1 with
                     | (w2, Ok ids) => (w2, Ok (Z.of_nat (length ids), false))
                     | (w2, Throw _) => (w2, Ok (0, true))
                     end).
    { unfold apply_adds, addAllRecords, addRecords, try_catch.
      rewrite !bind_run. change (count_request 1 w) with (w1, Ok tt).
      cbv beta iota. fold bs.
      destruct (addRecords_loop E appId bs [] w1) as [w2 [ids | e]]; reflexivity. }
    rewrite Hrun. clear Hrun.
    destruct (ClientProps.addRecords_loop_spec E appId bs w1 [])
      as (sent & Hpre & Htr & Hok & Hthrow & _).
    destruct (addRecords_loop E appId bs [] w1) as [w2 [ids | e]] eqn:Hloop;
      cbn [fst snd] in *.
    + destruct (Hok ids eq_refl) as [-> _].
      exists (batches (length (a :: rest)) 100 (a :: rest)), (Z.of_nat (length ids)), false.
      split; [reflexivity |]. split; [reflexivity |]. split; [exact Htr |].
      split; [intros _; apply batches_of_some |]. split; [reflexivity | discriminate].
    + exists sent, 0, true.
      split; [reflexivity |]. split; [exact Hpre |]. split; [exact Htr |].
      split; [intros _; exact (Hthrow e eq_refl) |]. split; [discriminate | reflexivity].
Qed.

Lemma map_result_length {A B} (f : A → result B) (l : list A) (l' : list B) :
  map_result f l = Ok l' → length l' = length l.
Proof.
  revert l'. induction l as [| x l IH]; intros l'; cbn [map_result].
  - intros [= <-]. reflexivity.
  - destruct (f x) as [y | e]; [| discriminate].
    destruct (map_result f l) as [ys | e]; [| discriminate].
    intros [= <-]. cbn [length]. now rewrite (IH ys eq_refl).
Qed.

(** How the [try] block of a restore goes once there are records to
    restore. *)
Lemma restoreBackup_body_run (E : env) (C : config) (backupId : Z)
    (options : restore_options) (w : world) (backup : Database.backup_row) (file : string)
    (records toRestore cleaned : list json) (keys : list (option string)) :
  Database.file_path backup = Some file →
  (extractBackupZip E (path_join (archivesDir C) file) w).2 = Ok records →
  match selectedRecordIds options with
  | Some (i :: ids) => select_records (i :: ids) records
  | _ => Ok records
  end = Ok toRestore →
  toRestore ≠ [] →
  map_result cleanRecordForRestore toRestore = Ok cleaned →
  map_result business_key toRestore = Ok keys →
  let appId := Database.app_id backup in
  let lookup := resolve_keys E appId (unique_keys keys) w in
  ∀ mapping, lookup.2 = Ok mapping →
  let parts := partition mapping cleaned keys in
  let sentU := apply_updates E appId parts.1 lookup.1 in
  let sentA := apply_adds E appId parts.2 sentU.1 in
  ∀ nU fU nA fA, sentU.2 = Ok (nU, fU) → sentA.2 = Ok (nA, fA) →
  let out := restoreBackup_body E C backupId backup options w in
  List.filter is_write (trace out.1) = List.filter is_write (trace sentA.1)
  ∧ ∃ res, out.2 = Ok res ∧ updatedCount res = nU ∧ addedCount res = nA
           ∧ recordCount res = Z.of_nat (length toRestore).
Proof.
  intros Hfile Hextract Hselect Hsome Hclean Hkeys appId lookup mapping Hmap
    parts sentU sentA nU fU nA fA HU HA. cbv zeta.
  destruct (restoreBackup_body E C backupId backup options w) as [wf rf] eqn:Hbody.
  revert Hbody.
  unfold restoreBackup_body. cbv zeta. rewrite Hfile.
  rewrite bind_run. unfold lift at 1. cbv beta iota. rewrite bind_run.
  pose proof (extractBackupZip_same E (path_join (archivesDir C) file) w) as Hsame.
  destruct (extractBackupZip E (path_join (archivesDir C) file) w) as [w0 r0].
  cbn [fst snd] in *. subst w0 r0.
  rewrite bind_run. unfold lift at 1. rewrite Hselect.
  destruct toRestore as [| r rs]; [congruence |].
  rewrite bind_run. unfold lift at 1. rewrite Hclean.
  rewrite bind_run. unfold lift at 1. rewrite Hkeys.
  rewrite bind_run. fold appId. fold lookup.
  destruct lookup as [w1 rl] eqn:Hlookup. cbn [fst snd] in *. subst rl.
  fold parts. destruct parts as [updates adds] eqn:Hparts. cbn [fst snd] in *.
  rewrite bind_run. fold sentU.
  destruct sentU as [w2 rU] eqn:HsentU. cbn [fst snd] in *. subst rU.
  rewrite bind_run. fold sentA.
  destruct sentA as [w3 rA] eqn:HsentA. cbn [fst snd] in *. subst rA.
  rewrite bind_run, getStats_run. rewrite bind_run.
  match goal with |- context [logToKintoneBackupApp E C ?entry w3] =>
    destruct (restore_log_run E C entry w3) as [Hlog Hquiet];
    destruct (logToKintoneBackupApp E C entry w3) as [w4 r4]
  end.
  cbn [fst snd] in *. subst r4.
  intros [= <- <-]. cbn [fst snd].
  split; [exact Hquiet |].
  eexists. split; [reflexivity |]. repeat split.
Qed.

(** C7: what a restore does with the records it restores.  The keys of
    the records are looked up once, which gives the mapping.  The records
    whose key resolves to a live identifier in that mapping are, cleaned,
    in order and each with its identifier, the update partition; the
    others are, in order, the add partition; every record is in exactly
    one of the two.  What the restore sends is just that: the batches of
    the update partition with [updateRecords], then the batches of the
    add partition with [addRecords], each from its first batch up to the
    batch that fails, and nothing else is written to any app.  A
    partition that is counted in the result was sent whole. *)
Theorem restore_partitions_by_resolution (E : env) (C : config) (backupId : Z)
    (options : restore_options) (w : world) (backup : Database.backup_row) (file : string)
    (records toRestore cleaned : list json) (keys : list (option string)) :
  Database.getBackupById (store w) backupId = Some backup →
  Database.file_path backup = Some file →
  (extractBackupZip E (path_join (archivesDir C) file) w).2 = Ok records →
  match selectedRecordIds options with
  | Some (i :: ids) => select_records (i :: ids) records
  | _ => Ok records
  end = Ok toRestore →
  toRestore ≠ [] →
  map_result cleanRecordForRestore toRestore = Ok cleaned →
  map_result business_key toRestore = Ok keys →
  let appId := Database.app_id backup in
  let out := restoreBackup E C backupId options w in
  ∃ mapping sentU sentA res,
    (resolve_keys E appId (unique_keys keys) w).2 = Ok mapping
    ∧ out.2 = Ok res
    ∧ recordCount res = Z.of_nat (length toRestore)
    ∧ let updates := omap (as_update mapping) (zip cleaned keys) in
      let adds := omap (as_add mapping) (zip cleaned keys) in
      List.filter is_write (trace out.1)
      = List.filter is_write (trace w)
        ++ map (UpdateRecords appId) sentU ++ map (AddRecords appId) sentA
      ∧ sentU `prefix_of` batches (length updates) 100 updates
      ∧ sentA `prefix_of` batches (length adds) 100 adds
      ∧ (updates ≠ [] → sentU ≠ [])
      ∧ (adds ≠ [] → sentA ≠ [])
      ∧ (0 < updatedCount res → concat sentU = updates)
      ∧ (0 < addedCount res → concat sentA = adds)
      ∧ (length updates + length adds = length toRestore)%nat
      ∧ (∀ rec key i,
           (rec, key) ∈ zip cleaned keys → resolves_to mapping key = Some i →
           {| id := i; record := rec |} ∈ updates ∧ as_add mapping (rec, key) = None)
      ∧ (∀ rec key,
           (rec, key) ∈ zip cleaned keys → resolves_to mapping key = None →
           rec ∈ adds ∧ as_update mapping (rec, key) = None).
Proof.
  intros Hrow Hfile Hextract Hselect Hsome Hclean Hkeys appId. cbv zeta.
  destruct (resolve_keys_run E appId (unique_keys keys) w) as [[mapping Hmap] Hquiet].
  destruct (RestoreProps.partition_by_resolution mapping cleaned keys)
    as (Hparts & Hlen & Hup & Hadd).
  rewrite Hparts in Hlen, Hup, Hadd. cbn [fst snd] in Hlen, Hup, Hadd.
  set (updates := omap (as_update mapping) (zip cleaned keys)) in *.
  set (adds := omap (as_add mapping) (zip cleaned keys)) in *.
  set (w1 := (resolve_keys E appId (unique_keys keys) w).1) in *.
  destruct (apply_updates_run E appId updates w1)
    as (sentU & nU & fU & HU & HpreU & HtrU & HsomeU & HokU & HfailU).
  set (w2 := (apply_updates E appId updates w1).1) in *.
  destruct (apply_adds_run E appId adds w2)
    as (sentA & nA & fA & HA & HpreA & HtrA & HsomeA & HokA & HfailA).
  pose proof (restoreBackup_body_run E C backupId options w backup file records
                toRestore cleaned keys Hfile Hextract Hselect Hsome Hclean Hkeys
                mapping Hmap) as Hbody.
  cbv zeta in Hbody. rewrite Hparts in Hbody. cbn [fst snd] in Hbody.
  destruct (Hbody nU fU nA fA HU HA) as (Hwrites & res & Hres & HnU & HnA & Hcount).
  exists mapping, sentU, sentA, res.
  rewrite (RestoreRuns.restoreBackup_run _ _ _ _ _ _ Hrow). cbn [fst snd].
  change (trace (resetCounters ?x)) with (trace x).
  split; [exact Hmap |]. split; [exact Hres |]. split; [exact Hcount |].
  split.
  { rewrite Hwrites. fold appId updates adds w1 w2. rewrite HtrA, HtrU.
    rewrite !List.filter_app. fold w1. rewrite Hquiet.
    rewrite <- app_assoc. f_equal. f_equal.
    - clear. induction sentU as [| b l IH]; [reflexivity |]. simpl. now rewrite IH.
    - clear. induction sentA as [| b l IH]; [reflexivity |]. simpl. now rewrite IH. }
  split; [exact HpreU |]. split; [exact HpreA |].
  split; [exact HsomeU |]. split; [exact HsomeA |].
  split.
  { intros Hpos. destruct fU; [specialize (HfailU eq_refl); lia |].
    destruct (HokU eq_refl) as [-> _].
    apply (ClientProps.batches_spec 100 ltac:(lia) (length updates) updates). lia. }
  split.
  { intros Hpos. destruct fA; [specialize (HfailA eq_refl); lia |].
    rewrite (HokA eq_refl).
    apply (ClientProps.batches_spec 100 ltac:(lia) (length adds) adds). lia. }
  split.
  { transitivity (length (zip cleaned keys)); [exact Hlen |].
    rewrite length_zip.
    rewrite (map_result_length _ _ _ Hclean), (map_result_length _ _ _ Hkeys). lia. }
  split; [exact Hup | exact Hadd].
Qed.

Lemma restore_partitions_by_resolution_witness :
  let E := Samples.env_where [Samples.live_row "1" "101"] false false in
  let w := Samples.archived_world [Samples.customer "1" "山田"; Samples.customer "2" "田中"] in
  let cleaned := [JObj [("顧客名", JObj [("type", JStr "SINGLE_LINE_TEXT");
                                         ("value", JStr "山田")])];
                  JObj [("顧客名", JObj [("type", JStr "SINGLE_LINE_TEXT");
                                         ("value", JStr "田中")])]] in
  let keys := [Some "1"; Some "2"] in
  let out := restoreBackup E Samples.sample_config 1 Samples.restore_all w in
  ∃ mapping sentU sentA res,
    (resolve_keys E "10" (unique_keys keys) w).2 = Ok mapping
    ∧ out.2 = Ok res
    ∧ recordCount res = 2
    ∧ let updates := omap (as_update mapping) (zip cleaned keys) in
      let adds := omap (as_add mapping) (zip cleaned keys) in
      List.filter is_write (trace out.1)
      = List.filter is_write (trace w)
        ++ map (UpdateRecords "10") sentU ++ map (AddRecords "10") sentA
      ∧ sentU `prefix_of` batches (length updates) 100 updates
      ∧ sentA `prefix_of` batches (length adds) 100 adds
      ∧ (updates ≠ [] → sentU ≠ [])
      ∧ (adds ≠ [] → sentA ≠ [])
      ∧ (0 < updatedCount res → concat sentU = updates)
      ∧ (0 < addedCount res → concat sentA = adds)
      ∧ (length updates + length adds = 2)%nat
      ∧ (∀ rec key i,
           (rec, key) ∈ zip cleaned keys → resolves_to mapping key = Some i →
           {| id := i; record := rec |} ∈ updates ∧ as_add mapping (rec, key) = None)
      ∧ (∀ rec key,
           (rec, key) ∈ zip cleaned keys → resolves_to mapping key = None →
           rec ∈ adds ∧ as_update mapping (rec, key) = None).
Proof.
  intros E w cleaned keys.
  apply (restore_partitions_by_resolution E Samples.sample_config 1 Samples.restore_all w
           Samples.finished_run "app_10_2024-01-02_03-04-05_full.zip"
           [Samples.customer "1" "山田"; Samples.customer "2" "田中"]
           [Samples.customer "1" "山田"; Samples.customer "2" "田中"] cleaned keys).
  - reflexivity.
  - reflexivity.
  - vm_compute. reflexivity.
  - reflexivity.
  - discriminate.
  - vm_compute. reflexivity.
  - vm_compute. reflexivity.
Defined.

End ReconcileProps.
